(** * PreferencesController and PopupLogin: a shallow embedding

    The development follows [src/controllers/PreferencesController.js] and
    the [PopupLogin] Vue component.  JavaScript values are a small inductive
    type, JavaScript objects used as maps are [gmap]s, arrays are lists,
    objects mutated in place live in a heap addressed by position, and the
    controller's methods are computations in a state-and-exception monad
    over the controller's stores. *)

From stdpp Require Import gmap strings list fin_maps sorting.

Set Warnings "-register-all".

(** ** JavaScript values *)

Inductive JsVal : Type :=
| VUndefined
| VNull
| VBool (b : bool)
| VNum (n : Z)
| VStr (s : string)
| VDate (ms : Z)
| VArr (items : list JsVal)
| VObj (fields : list (string * JsVal))
| VError (message : string).

(** An Error-like object is [VError]; a plain object is [VObj], its
    properties in insertion order. *)

Definition truthy (v : JsVal) : bool :=
  match v with
  | VUndefined | VNull => false
  | VBool b => b
  | VNum n => negb (n =? 0)%Z
  | VStr s => negb (String.eqb s "")
  | VDate _ | VArr _ | VObj _ | VError _ => true
  end.

Inductive JsType := TUndefined | TObject | TBoolean | TNumber | TString.

Definition typeof (v : JsVal) : JsType :=
  match v with
  | VUndefined => TUndefined
  | VNull => TObject
  | VBool _ => TBoolean
  | VNum _ => TNumber
  | VStr _ => TString
  | VDate _ | VArr _ | VObj _ | VError _ => TObject
  end.

Definition isString (v : JsVal) : bool :=
  match typeof v with TString => true | _ => false end.

Definition isObject (v : JsVal) : bool :=
  match typeof v with TObject => true | _ => false end.

(** [a || b] *)
Definition orElse (a b : JsVal) : JsVal := if truthy a then a else b.

(** [v === 'literal'] *)
Definition strictEqStr (v : JsVal) (lit : string) : bool :=
  match v with VStr s => String.eqb s lit | _ => false end.

(** ** Objects as association lists *)

Fixpoint lookupField (k : string) (fs : list (string * JsVal)) : option JsVal :=
  match fs with
  | [] => None
  | (k', v) :: r => if String.eqb k k' then Some v else lookupField k r
  end.

(** [obj[k] = v]: an existing key keeps its place, a new key goes last. *)
Fixpoint setField (k : string) (v : JsVal) (fs : list (string * JsVal))
  : list (string * JsVal) :=
  match fs with
  | [] => [(k, v)]
  | (k', v') :: r =>
      if String.eqb k k' then (k, v) :: r else (k', v') :: setField k v r
  end.

(** [v.k] and [v?.k] on a value that is not [null] or [undefined]; on those
    two the optional chain yields [undefined]. *)
Definition getProp (k : string) (v : JsVal) : JsVal :=
  match v with
  | VObj fs => default VUndefined (lookupField k fs)
  | VError m => if String.eqb k "message" then VStr m else VUndefined
  | _ => VUndefined
  end.

(** The names every object inherits from [Object.prototype].  In an object
    literal that the code uses as a map, [obj[k]] for such a name finds the
    inherited member, a function or the prototype itself, before the name
    was ever written. *)
Definition objectPrototypeKeys : list string :=
  ["constructor"; "__proto__"; "hasOwnProperty"; "isPrototypeOf";
   "propertyIsEnumerable"; "toLocaleString"; "toString"; "valueOf";
   "__defineGetter__"; "__defineSetter__"; "__lookupGetter__";
   "__lookupSetter__"].

(** ** Past transactions *)

(** The object built by [formatPastTx], with the properties that
    [cancelTxCalculate] reads or writes.  [nonce] is the property key that
    [nonceMap[x.nonce]] uses, [date] the time value of the [Date]. *)
Record Tx := mkTx {
  nonce : string;
  date : Z;
  status : JsVal;
  is_cancel : JsVal;
  hasCancel : JsVal;
  cancelDateInitiated : JsVal;
  etherscanLink : JsVal;
  gas : JsVal;
  gasPrice : JsVal;
  cancelGas : JsVal;
  cancelGasPrice : JsVal;
  others : list (string * JsVal)
}.

(** [latestCancelTx.is_cancel = true] *)
Definition markLatest (x : Tx) : Tx :=
  mkTx (nonce x) (date x) (status x) (VBool true) (hasCancel x)
       (cancelDateInitiated x) (etherscanLink x) (gas x) (gasPrice x)
       (cancelGas x) (cancelGasPrice x) (others x).

(** A transaction as the wallet-orders request returns it, with the
    properties that [calculatePastTx] reads.  [raw_to] and [raw_from] are
    strings, empty when the property is absent. *)
Record RawTx := mkRawTx {
  raw_id : JsVal;
  raw_network : JsVal;
  raw_to : string;
  raw_from : string;
  raw_status : JsVal;
  raw_transaction_hash : string;
  raw_others : list (string * JsVal)
}.

(** What the controller imports from [utils/utils]. *)
Class Utils := {
  formatTime : Z → string;
  formatDate : Z → string;
  formatPastTx : RawTx → string → Tx;
  getUserLanguage : string;
  getIFrameOrigin : string
}.

Section CancelTx.

Context `{U : !Utils}.

(** The body of the [forEach] over [latestTxs.slice(1)]. *)
Definition markCancelled (latestCancelTx x : Tx) : Tx :=
  mkTx (nonce x) (date x)
       (VStr (if strictEqStr (status latestCancelTx) "confirmed"
              then "cancelled" else "cancelling"))
       (is_cancel x)
       (VBool true)
       (VStr (formatTime (date latestCancelTx) +:+ " - "
              +:+ formatDate (date latestCancelTx)))
       (etherscanLink latestCancelTx)
       (gas x) (gasPrice x)
       (gas latestCancelTx)
       (gasPrice latestCancelTx)
       (others x).

(** The array [pastTx] holds references; the objects themselves form the
    heap, and object [i] of the array is cell [i].  [nonceMap] maps a nonce
    to the references pushed under it.  It is the object literal [{}]: for
    a nonce that it does not hold yet and that names a member of
    [Object.prototype], [nonceMap[x.nonce]] is that member, which is truthy
    and has no [push], and the call throws a TypeError ([None]). *)
Definition pushNonce (nonceMap : gmap string (list nat)) (ix : nat * Tx)
  : option (gmap string (list nat)) :=
  match nonceMap !! nonce ix.2 with
  | Some value => Some (<[nonce ix.2 := value ++ [ix.1]]> nonceMap)
  | None =>
      if bool_decide (nonce ix.2 ∈ objectPrototypeKeys) then None
      else Some (<[nonce ix.2 := [ix.1]]> nonceMap)
  end.

(** The first loop. *)
Definition buildNonceMap (pastTx : list Tx)
  : option (gmap string (list nat)) :=
  foldl (λ nonceMap ix,
           match nonceMap with
           | Some m => pushNonce m ix
           | None => None
           end)
        (Some ∅) (imap pair pastTx).

Definition dateAt (heap : list Tx) (i : nat) : Z :=
  match heap !! i with Some x => date x | None => 0%Z end.

(** [value.sort((a, b) => b.date - a.date)]: the stable sort, latest
    first; [a] stays before [b] unless [b.date - a.date > 0]. *)
Fixpoint insertLatestFirst (heap : list Tx) (a : nat) (sorted : list nat)
  : list nat :=
  match sorted with
  | [] => [a]
  | b :: rest =>
      if (0 <? dateAt heap b - dateAt heap a)%Z
      then b :: insertLatestFirst heap a rest
      else a :: b :: rest
  end.

Definition sortLatestFirst (heap : list Tx) (value : list nat) : list nat :=
  foldr (insertLatestFirst heap) [] value.

Definition cancelOne (latest : nat) (heap : list Tx) (x : nat) : list Tx :=
  match heap !! latest with
  | Some latestCancelTx => alter (markCancelled latestCancelTx) x heap
  | None => heap
  end.

(** One iteration of the loop over [Object.entries(nonceMap)]. *)
Definition processGroup (heap : list Tx) (value : list nat) : list Tx :=
  if decide (1 < length value) then
    match sortLatestFirst heap value with
    | [] => heap
    | latest :: others =>
        foldl (cancelOne latest) (alter markLatest latest heap) others
    end
  else heap.

(** The array that the call returns, [None] when it throws. *)
Definition cancelTxCalculate (pastTx : list Tx) : option (list Tx) :=
  match buildNonceMap pastTx with
  | Some nonceMap => Some (foldl processGroup pastTx (map_to_list nonceMap).*2)
  | None => None
  end.

End CancelTx.

(** The references of the transactions of [l] whose nonce is [n], when the
    first cell of [l] is cell [k]: the group of [n], as the claim words it. *)
Fixpoint indicesFrom (n : string) (k : nat) (l : list Tx) : list nat :=
  match l with
  | [] => []
  | x :: r =>
      if decide (nonce x = n) then k :: indicesFrom n (S k) r
      else indicesFrom n (S k) r
  end.

Definition nonceGroup (pastTx : list Tx) (n : string) : list nat :=
  indicesFrom n 0 pastTx.

(** The reference that the sort puts first in the group of [n]. *)
Definition latestOf (pastTx : list Tx) (n : string) : nat :=
  default 0 (head (sortLatestFirst pastTx (nonceGroup pastTx n))).



(** ** Strings *)

Definition lowerAscii (c : Ascii.ascii) : Ascii.ascii :=
  let n := Ascii.nat_of_ascii c in
  if (65 <=? n) && (n <=? 90) then Ascii.ascii_of_nat (n + 32) else c.

(** [s.toLowerCase()], on the ASCII letters that addresses are made of;
    a letter outside ASCII is left as it is. *)
Fixpoint toLowerCase (s : string) : string :=
  match s with
  | EmptyString => EmptyString
  | String c r => String (lowerAscii c) (toLowerCase r)
  end.

(** The line feed, [\n] in a JavaScript string or template literal. *)
Definition LF : string :=
  String (Ascii.Ascii false true false true false false false false)
         EmptyString.

(** [s.startsWith(p)] *)
Definition startsWith (p s : string) : bool := String.prefix p s.

(** [s.includes(p)] *)
Fixpoint includes (p s : string) : bool :=
  String.prefix p s ||
  match s with
  | EmptyString => false
  | String _ r => includes p r
  end.

(** ** [deepmerge] with [arrayMerge: overwriteMerge] *)

(** [overwriteMerge]: the source array replaces the destination array. *)
Definition overwriteMerge (destinationArray sourceArray : list JsVal)
  : list JsVal := sourceArray.

(** The library's [isMergeableObject]: a non-null object that is not a
    [Date]. *)
Definition isMergeableObject (v : JsVal) : bool :=
  match v with
  | VArr _ | VObj _ | VError _ => true
  | _ => false
  end.

(** The own properties of an Error, none of them enumerable, and the
    members of [Error.prototype] that [Object.prototype] does not name. *)
Definition errorKeys : list string := ["message"; "stack"; "name"].

(** The members of [Date.prototype] (ECMAScript 2023, with Annex B) that
    [Object.prototype] does not name. *)
Definition datePrototypeKeys : list string :=
  ["getDate"; "getDay"; "getFullYear"; "getHours"; "getMilliseconds";
   "getMinutes"; "getMonth"; "getSeconds"; "getTime"; "getTimezoneOffset";
   "getUTCDate"; "getUTCDay"; "getUTCFullYear"; "getUTCHours";
   "getUTCMilliseconds"; "getUTCMinutes"; "getUTCMonth"; "getUTCSeconds";
   "getYear"; "setDate"; "setFullYear"; "setHours"; "setMilliseconds";
   "setMinutes"; "setMonth"; "setSeconds"; "setTime"; "setUTCDate";
   "setUTCFullYear"; "setUTCHours"; "setUTCMilliseconds"; "setUTCMinutes";
   "setUTCMonth"; "setUTCSeconds"; "setYear"; "toDateString"; "toGMTString";
   "toISOString"; "toJSON"; "toLocaleDateString"; "toLocaleTimeString";
   "toTimeString"; "toUTCString"].

(** Every name that some target has without owning it enumerably. *)
Definition inheritedNames : list string :=
  errorKeys ++ datePrototypeKeys ++ objectPrototypeKeys.

(** An own enumerable property: a property of a plain object. *)
Definition ownEnumerable (k : string) (target : JsVal) : bool :=
  match target with
  | VObj fs => bool_decide (is_Some (lookupField k fs))
  | _ => false
  end.

(** [propertyIsOnObject]: [key in target], own or inherited.  On a
    primitive [in] throws, which the library takes as [false]; an array is
    never the target of [mergeObject]. *)
Definition hasProp (k : string) (target : JsVal) : bool :=
  match target with
  | VObj _ =>
      ownEnumerable k target || bool_decide (k ∈ objectPrototypeKeys)
  | VError _ => bool_decide (k ∈ errorKeys ++ objectPrototypeKeys)
  | VDate _ => bool_decide (k ∈ datePrototypeKeys ++ objectPrototypeKeys)
  | _ => false
  end.

(** [propertyIsUnsafe]: a property that the target has without it being
    own and enumerable; the merge leaves such a property of the source
    out. *)
Definition propertyIsUnsafe (target : JsVal) (k : string) : bool :=
  hasProp k target && negb (ownEnumerable k target).

(** [cloneUnlessOtherwiseSpecified]: an array goes through [overwriteMerge]
    and comes back as it is; an object is merged into [{}], property by
    property, without the properties that are unsafe on [{}]; an Error has
    no enumerable property. *)
Fixpoint clone (v : JsVal) : JsVal :=
  match v with
  | VObj fs =>
      VObj ((fix go (l dest : list (string * JsVal)) :=
               match l with
               | [] => dest
               | (k, x) :: r =>
                   if propertyIsUnsafe (VObj []) k then go r dest
                   else go r (setField k (clone x) dest)
               end) fs [])
  | VArr items => VArr (overwriteMerge [] items)
  | VError _ => VObj []
  | _ => v
  end.

(** The first loop of [mergeObject]: the own properties of a mergeable
    target, each with the clone of its value. *)
Definition cloneOwn (target : JsVal) : list (string * JsVal) :=
  match target with
  | VObj fs => foldl (λ dest kv, setField kv.1 (clone kv.2) dest) [] fs
  | _ => []
  end.

(** [deepmerge(target, source, { arrayMerge: overwriteMerge })] for a source
    that is an object or an array: the partial state, an object literal at
    every call, and below it the values that pass [isMergeableObject]. *)
Fixpoint deepmerge (target source : JsVal) {struct source} : JsVal :=
  match source with
  | VArr sourceArray =>
      match target with
      | VArr destinationArray =>
          VArr (overwriteMerge destinationArray sourceArray)
      | _ => VArr (overwriteMerge [] sourceArray)
      end
  | VObj sfs =>
      match target with
      | VArr _ => clone source
      | _ =>
          VObj ((fix go (l dest : list (string * JsVal)) :=
                   match l with
                   | [] => dest
                   | (k, sv) :: r =>
                       if propertyIsUnsafe target k then go r dest
                       else if hasProp k target && isMergeableObject sv
                       then go r (setField k (deepmerge (getProp k target) sv) dest)
                       else go r (setField k (clone sv) dest)
                   end) sfs (cloneOwn target))
      end
  | VError _ =>
      match target with
      | VArr _ => VObj []
      | _ => VObj (cloneOwn target)
      end
  | _ => source
  end.

(** lodash's [cloneDeep]: a copy equal to its argument, property by
    property. *)
Fixpoint cloneDeep (v : JsVal) : JsVal :=
  match v with
  | VArr items => VArr (map cloneDeep items)
  | VObj fs =>
      VObj ((fix go (l : list (string * JsVal)) :=
               match l with
               | [] => []
               | (k, x) :: r => (k, cloneDeep x) :: go r
               end) fs)
  | _ => v
  end.


(** ** The controller's world *)

(** How a promise settles. *)
Inductive Settled (A : Type) : Type :=
| Resolved (value : A)
| Rejected (reason : JsVal).
Arguments Resolved {A} value.
Arguments Rejected {A} reason.

Inductive Method := GET | POST | PATCH | DELETE.

(** A request through [this.api]: [get], [post], [patch] or [remove] with
    its url, its body and the [Authorization] header when one is sent. *)
Record ApiCall := mkApiCall {
  method : Method;
  url : string;
  body : JsVal;
  authorization : option string
}.

(** A payment order as the past-orders request returns it. *)
Record RawPayment := mkRawPayment {
  pay_action : string;
  pay_status : string;
  pay_date : JsVal;
  pay_etherscanLink : JsVal;
  pay_fields : list (string * JsVal)
}.

Inductive LogLevel := LInfo | LWarn | LError.

(** What the controller does to the outside, in the order it does it. *)
Inductive Event :=
| EApi (call : ApiCall)
| EWalletOrders (authorization : string)
| EPastOrders (authorization : string)
| EEthTxStatus (transaction_hash : string)
| ESignMessage (address hashedMessage : string)
| ELog (level : LogLevel) (args : list JsVal)
| EAddSupportedNetworks (network : JsVal)
| ESetSentryEnabled (enabled : bool)
| EDispatch (action : string) (payload : JsVal)
| ECommit (mutation : string) (payload : JsVal)
| EUnhandledRejection (reason : JsVal).

(** The callbacks given to [setTimeout] and [setInterval]. *)
Inductive Callback :=
| ClearError
| ClearSuccess
| RecordLogin (userOrigin : string) (verifier verifierId : JsVal)
              (address : string).

Record Timer := mkTimer {
  timerId : nat;
  repeating : bool;
  delay : Z;
  callback : Callback
}.

(** A promise chain that was started and not awaited: the two order
    requests of [sync], sent with the headers of that moment. *)
Inductive Task :=
| OrdersFetched (address : string) (authorization : string).

Record World := mkWorld {
  store : gmap string JsVal;
  metadataStore : gmap string JsVal;
  errorStore : JsVal;
  successStore : JsVal;
  billboardStore : JsVal;
  announcementsStore : JsVal;
  networkIdentifier : string;
  timers : list Timer;
  nextTimer : nat;
  background : list Task;
  trace : list Event
}.

(** The state after [new PreferencesController(...)]. *)
Definition initialWorld (network : string) : World :=
  mkWorld {[ "selectedAddress" := VStr "" ]} ∅ (VStr "") (VStr "")
          (VObj []) (VObj []) network [] 0 [] [].

Definition setStore (s : gmap string JsVal) (w : World) : World :=
  mkWorld s (metadataStore w) (errorStore w) (successStore w)
          (billboardStore w) (announcementsStore w) (networkIdentifier w)
          (timers w) (nextTimer w) (background w) (trace w).

Definition setErrorStore (v : JsVal) (w : World) : World :=
  mkWorld (store w) (metadataStore w) v (successStore w)
          (billboardStore w) (announcementsStore w) (networkIdentifier w)
          (timers w) (nextTimer w) (background w) (trace w).

Definition setSuccessStore (v : JsVal) (w : World) : World :=
  mkWorld (store w) (metadataStore w) (errorStore w) v
          (billboardStore w) (announcementsStore w) (networkIdentifier w)
          (timers w) (nextTimer w) (background w) (trace w).

Definition setAnnouncementsStore (v : JsVal) (w : World) : World :=
  mkWorld (store w) (metadataStore w) (errorStore w) (successStore w)
          (billboardStore w) v (networkIdentifier w)
          (timers w) (nextTimer w) (background w) (trace w).

Definition setTimers (l : list Timer) (next : nat) (w : World) : World :=
  mkWorld (store w) (metadataStore w) (errorStore w) (successStore w)
          (billboardStore w) (announcementsStore w) (networkIdentifier w)
          l next (background w) (trace w).

Definition setBackground (l : list Task) (w : World) : World :=
  mkWorld (store w) (metadataStore w) (errorStore w) (successStore w)
          (billboardStore w) (announcementsStore w) (networkIdentifier w)
          (timers w) (nextTimer w) l (trace w).

Definition setTrace (l : list Event) (w : World) : World :=
  mkWorld (store w) (metadataStore w) (errorStore w) (successStore w)
          (billboardStore w) (announcementsStore w) (networkIdentifier w)
          (timers w) (nextTimer w) (background w) l.

(** ** The monad: state and exceptions *)

Inductive Outcome (A : Type) : Type :=
| Returned (value : A)
| Thrown (error : JsVal).
Arguments Returned {A} value.
Arguments Thrown {A} error.

Definition M (A : Type) : Type := World → Outcome A * World.

Definition ret {A} (a : A) : M A := λ w, (Returned a, w).

Definition bind {A B} (m : M A) (k : A → M B) : M B :=
  λ w, match m w with
       | (Returned a, w') => k a w'
       | (Thrown e, w') => (Thrown e, w')
       end.

#[global] Instance M_ret : MRet M := @ret.
#[global] Instance M_bind : MBind M := λ A B k m, bind m k.

Definition throw {A} (e : JsVal) : M A := λ w, (Thrown e, w).

(** [try { body } catch (error) { handler }] *)
Definition tryCatch {A} (body : M A) (handler : JsVal → M A) : M A :=
  λ w, match body w with
       | (Thrown e, w') => handler e w'
       | r => r
       end.

Definition emit (ev : Event) : M unit :=
  λ w, (Returned tt, setTrace (trace w ++ [ev]) w).

Definition modify (f : World → World) : M unit := λ w, (Returned tt, f w).

Definition gets {A} (f : World → A) : M A := λ w, (Returned (f w), w).

(** [await p] for a promise [p] that the event [ev] started. *)
Definition await {A} (ev : Event) (p : Settled A) : M A :=
  emit ev;;
  match p with
  | Resolved a => mret a
  | Rejected e => throw e
  end.

(** A call to an async function that is not awaited runs where it is made,
    to its end; what it throws is a rejection nobody handles.  The events
    of two such calls are kept apart, where the code may interleave them;
    no statement below orders them. *)
Definition detach (m : M unit) : M unit :=
  tryCatch m (λ e, emit (EUnhandledRejection e)).

(** [for (const x of l) body(x)] *)
Fixpoint forEach {A} (body : A → M unit) (l : list A) : M unit :=
  match l with
  | [] => mret tt
  | x :: r => body x;; forEach body r
  end.

Definition TypeError (message : string) : JsVal := VError message.

(** [log.info], [log.warn], [log.error] *)
Definition log (level : LogLevel) (args : list JsVal) : M unit :=
  emit (ELog level args).

(** [v.k] where a [null] or [undefined] [v] throws. *)
Definition getPropOrThrow (k : string) (v : JsVal) : M JsVal :=
  match v with
  | VUndefined | VNull =>
      throw (TypeError ("Cannot read properties of undefined (reading '"
                        +:+ k +:+ "')"))
  | _ => mret (getProp k v)
  end.

(** ** What the controller imports and talks to *)

(** [utils/enums] *)
Class Enums := {
  ERROR_TIME : Z;
  SUCCESS_TIME : Z;
  THEME_LIGHT_BLUE_NAME : string;
  ACCOUNT_TYPE_NORMAL : string;
  ACTIVITY_ACTION_TOPUP : string;
  ACTIVITY_ACTION_SEND : string;
  ACTIVITY_ACTION_RECEIVE : string
}.

(** The language runtime, the browser and the configuration. *)
Class Platform := {
  (** ToString on a value that is not a string *)
  ToString : JsVal → string;
  (** [config.api] *)
  config_api : string;
  (** [localStorage.getItem('torus-theme')] when local storage is there *)
  torusTheme : option string;
  (** [JSON.parse(sessionStorage.getItem('torus-white-label'))] when session
      storage is there and holds the item *)
  torusWhiteLabel : option (Settled JsVal);
  (** [new Date(v).getTime()] *)
  newDate : JsVal → Z;
  (** [hashPersonalMessage(Buffer.from(m, 'utf8')).toString('hex')] *)
  hashPersonalMessage : string → string;
  (** [window.location.origin] *)
  locationOrigin : string;
  (** [window.location.href.includes('referrer')] and the [referrer]
      parameter of [window.location.search] *)
  hrefHasReferrer : bool;
  referrer : string;
  (** [controllers/utils/permissionUtils.prettyPrintData] *)
  prettyPrintData : JsVal → string
}.

(** The answers of the remote services. *)
Class Remote := {
  (** the requests through [this.api] *)
  apiRequest : ApiCall → Settled JsVal;
  (** [this.api.getWalletOrders]: [walletTx?.data] *)
  walletOrders : string → Settled (option (list RawTx));
  (** [this.api.getPastOrders]: [paymentTx?.data] *)
  pastOrders : string → Settled (option (list RawPayment));
  (** [getEthTxStatus(transaction_hash, this.web3)] *)
  getEthTxStatus : string → Settled (option string);
  (** [this.signMessage(address, hashedMessage)] *)
  signMessage : string → string → Settled JsVal
}.


(** ** The controller *)

(** Modelled from the spec: [isErrorObject] of
    [controllers/utils/permissionUtils] is not under src; it recognises the
    Error-like objects, the values that carry an error message. *)
Definition isErrorObject (error : JsVal) : bool :=
  match error with VError _ => true | _ => false end.

(** [a === b] on primitive values; two objects are the same object only
    when they are one reference, which no call here compares. *)
Definition strictEq (a b : JsVal) : bool :=
  match a, b with
  | VUndefined, VUndefined | VNull, VNull => true
  | VBool x, VBool y => bool_decide (x = y)
  | VNum x, VNum y => bool_decide (x = y)
  | VStr x, VStr y => String.eqb x y
  | _, _ => false
  end.

Definition jsOfTx (x : Tx) : JsVal :=
  VObj (others x ++
        [("nonce", VStr (nonce x)); ("date", VDate (date x));
         ("status", status x); ("is_cancel", is_cancel x);
         ("hasCancel", hasCancel x);
         ("cancelDateInitiated", cancelDateInitiated x);
         ("etherscanLink", etherscanLink x); ("gas", gas x);
         ("gasPrice", gasPrice x); ("cancelGas", cancelGas x);
         ("cancelGasPrice", cancelGasPrice x)]).

Definition jsOfRawTx (x : RawTx) : JsVal :=
  VObj (raw_others x ++
        [("id", raw_id x); ("network", raw_network x);
         ("to", VStr (raw_to x)); ("from", VStr (raw_from x));
         ("status", raw_status x);
         ("transaction_hash", VStr (raw_transaction_hash x))]).

(** [finalObject.status = s] *)
Definition setStatus (s : JsVal) (x : Tx) : Tx :=
  mkTx (nonce x) (date x) s (is_cancel x) (hasCancel x)
       (cancelDateInitiated x) (etherscanLink x) (gas x) (gasPrice x)
       (cancelGas x) (cancelGasPrice x) (others x).

Section Controller.

Context `{U : !Utils, E : !Enums, P : !Platform, R : !Remote}.

(** [themeGlobal], set when the module loads. *)
Definition themeGlobal : string :=
  match torusTheme with
  | Some theme => if String.eqb theme "" then THEME_LIGHT_BLUE_NAME else theme
  | None => THEME_LIGHT_BLUE_NAME
  end.

Definition DEFAULT_ACCOUNT_STATE : JsVal :=
  VObj [("selectedCurrency", VStr "USD");
        ("theme", VStr themeGlobal);
        ("locale", VStr getUserLanguage);
        ("contacts", VArr []);
        ("permissions", VArr []);
        ("jwtToken", VStr "");
        ("fetchedPastTx", VArr []);
        ("pastTransactions", VArr []);
        ("paymentTx", VArr []);
        ("defaultPublicAddress", VStr "");
        ("accountType", VStr ACCOUNT_TYPE_NORMAL);
        ("customTokens", VArr []);
        ("customNfts", VArr [])].

(** The property key that a value makes. *)
Definition toKey (v : JsVal) : string :=
  match v with VStr s => s | _ => ToString v end.

(** [this.store.getState().selectedAddress] *)
Definition selectedAddress (w : World) : JsVal :=
  default VUndefined (store w !! "selectedAddress").

(** The key of [address || this.store.getState().selectedAddress]; an
    address that was not passed is the empty string. *)
Definition addressOrSelected (address : string) (w : World) : string :=
  if decide (address = "") then toKey (selectedAddress w) else address.

(** [this.state(address)]: the record the store holds under the key.
    The store is read at its own keys; under a key named like a member of
    [Object.prototype] that the store does not hold, the code finds the
    inherited member instead of [undefined], and the statements that
    depend on the difference exclude such a key
    ([objectPrototypeKeys]). *)
Definition state (address : string) (w : World) : JsVal :=
  default VUndefined (store w !! addressOrSelected address w).

(** The [Authorization] header of [this.headers(address)]. *)
Definition headers (address : string) (w : World) : string :=
  "Bearer " +:+
  toKey (orElse (getProp "jwtToken" (state address w)) (VStr "")).

(** [await this.api.get/post/patch/remove(...)] *)
Definition apiCall (call : ApiCall) : M JsVal :=
  await (EApi call) (apiRequest call).

Definition updateStore (newPartialState : list (string * JsVal))
    (address : string) : M JsVal :=
  λ w,
    let selectedAddress := addressOrSelected address w in
    let currentState :=
      orElse (state selectedAddress w) (cloneDeep DEFAULT_ACCOUNT_STATE) in
    let mergedState := deepmerge currentState (VObj newPartialState) in
    (Returned mergedState,
     setStore (<[selectedAddress := mergedState]> (store w)) w).

(** [setTimeout(callback, delay)] *)
Definition setTimeout (cb : Callback) (ms : Z) : M unit :=
  modify (λ w, setTimers (timers w ++ [mkTimer (nextTimer w) false ms cb])
                         (S (nextTimer w)) w).

(** [setInterval(callback, delay)] *)
Definition setInterval (cb : Callback) (ms : Z) : M nat :=
  λ w, (Returned (nextTimer w),
        setTimers (timers w ++ [mkTimer (nextTimer w) true ms cb])
                  (S (nextTimer w)) w).

(** [clearInterval(id)] *)
Definition clearInterval (id : nat) : M unit :=
  modify (λ w, setTimers (filter (λ t, timerId t ≠ id) (timers w))
                         (nextTimer w) w).

Definition handleError (error : JsVal) : M unit :=
  (if isErrorObject error then
     modify (setErrorStore
               (VStr ("Oops, That didn't work. Pls reload and try again. "
                      +:+ LF +:+ toKey (getProp "message" error))))
   else if truthy error && isString error then
     modify (setErrorStore error)
   else if truthy error && isObject error then
     let prettyError := prettyPrintData error in
     let payloadError :=
       if negb (String.eqb prettyError "") then "Error: " +:+ prettyError
       else "Something went wrong. Pls try again" in
     modify (setErrorStore (VStr payloadError))
   else
     modify (setErrorStore (orElse error (VStr ""))));;
  setTimeout ClearError ERROR_TIME.

Definition handleSuccess (message : JsVal) : M unit :=
  (if truthy message && isString message then
     modify (setSuccessStore message)
   else if truthy message && isObject message then
     let prettyMessage := prettyPrintData message in
     let payloadMessage :=
       if negb (String.eqb prettyMessage "") then "Success: " +:+ prettyMessage
       else "Success" in
     modify (setSuccessStore (VStr payloadMessage))
   else
     modify (setSuccessStore (orElse message (VStr ""))));;
  setTimeout ClearSuccess SUCCESS_TIME.

Definition setUserTheme (payload : string) : M unit :=
  theme ← gets (λ w, getProp "theme" (state "" w));
  if strictEq (VStr payload) theme then mret tt
  else
    tryCatch
      (auth ← gets (headers "");
       apiCall (mkApiCall PATCH (config_api +:+ "/user/theme")
                          (VObj [("theme", VStr payload)]) (Some auth));;
       handleSuccess (VStr "navBar.snackSuccessTheme");;
       updateStore [("theme", VStr payload)] "";;
       mret tt)
      (λ error,
         log LError [error];;
         handleError (VStr "navBar.snackFailTheme")).

Definition getNfts (userAddress network : string) : M JsVal :=
  jwtToken ← gets (λ w, getProp "jwtToken" (state userAddress w));
  if negb (truthy jwtToken) then mret (VObj [("data", VArr [])])
  else
    auth ← gets (headers "");
    apiCall (mkApiCall GET
               (config_api +:+ "/nfts?userAddress=" +:+ userAddress
                +:+ "&network=" +:+ network)
               VUndefined (Some auth)).

Definition patchPastTx (body : JsVal) (address : string) : M unit :=
  tryCatch
    (auth ← gets (headers address);
     response ← apiCall (mkApiCall PATCH (config_api +:+ "/transaction")
                                   body (Some auth));
     log LInfo [VStr "successfully patched"; response])
    (λ error, log LError [VStr "unable to patch tx"; error]).

(** *** Past transactions *)

(** The condition of the first loop of [calculatePastTx]. *)
Definition concernsAddress (lowerCaseSelectedAddress : string)
    (networkId : string) (x : RawTx) : bool :=
  strictEqStr (raw_network x) networkId &&
  negb (String.eqb (raw_to x) "") &&
  negb (String.eqb (raw_from x) "") &&
  (String.eqb lowerCaseSelectedAddress (toLowerCase (raw_from x)) ||
   String.eqb lowerCaseSelectedAddress (toLowerCase (raw_to x))).

(** One turn of the first loop, on the arrays [pastTx] and [pendingTx]. *)
Definition sortOut (lowerCaseSelectedAddress networkId : string)
    (acc : list Tx * list RawTx) (x : RawTx) : list Tx * list RawTx :=
  if concernsAddress lowerCaseSelectedAddress networkId x then
    if negb (strictEqStr (raw_status x) "confirmed")
    then (acc.1, acc.2 ++ [x])
    else (acc.1 ++ [formatPastTx x lowerCaseSelectedAddress], acc.2)
  else acc.

Definition jsOfStatus (s : option string) : JsVal :=
  match s with Some st => VStr st | None => VUndefined end.

(** [getEthTxStatus(x.transaction_hash, this.web3)]: the lookup starts. *)
Definition startTxStatus (x : RawTx) : M unit :=
  emit (EEthTxStatus (raw_transaction_hash x)).

(** [.catch((error) => log.error(error))], awaited: a lookup that fails
    is logged and gives [undefined]. *)
Definition resolveTxStatus (x : RawTx) : M JsVal :=
  match getEthTxStatus (raw_transaction_hash x) with
  | Resolved st => mret (jsOfStatus st)
  | Rejected error => log LError [error];; mret VUndefined
  end.

Fixpoint mapM {A B} (f : A → M B) (l : list A) : M (list B) :=
  match l with
  | [] => mret []
  | x :: r => y ← f x; ys ← mapM f r; mret (y :: ys)
  end.

(** The loop over [pendingTx.entries()]. *)
Fixpoint pushResolved (lowerCaseSelectedAddress address : string)
    (pending : list (RawTx * JsVal)) (pastTx : list Tx) : M (list Tx) :=
  match pending with
  | [] => mret pastTx
  | (element, resolved) :: rest =>
      let finalObject :=
        setStatus resolved (formatPastTx element lowerCaseSelectedAddress) in
      (if String.eqb lowerCaseSelectedAddress (toLowerCase (raw_from element))
          && truthy (status finalObject)
          && negb (strictEq (status finalObject) (raw_status element))
       then detach (patchPastTx
                      (VObj [("id", raw_id element);
                             ("status", status finalObject)]) address)
       else mret tt);;
      pushResolved lowerCaseSelectedAddress address rest
                   (pastTx ++ [finalObject])
  end.

Definition calculatePastTx (txs : list RawTx) (address : string) : M unit :=
  let lowerCaseSelectedAddress := toLowerCase address in
  networkId ← gets networkIdentifier;
  let sorted :=
    foldl (sortOut lowerCaseSelectedAddress networkId) ([], []) txs in
  forEach startTxStatus sorted.2;;
  resolvedTxStatuses ← mapM resolveTxStatus sorted.2;
  pastTx ← pushResolved lowerCaseSelectedAddress address
                        (zip sorted.2 resolvedTxStatuses) sorted.1;
  match cancelTxCalculate pastTx with
  | Some finalTx =>
      updateStore [("pastTransactions", VArr (jsOfTx <$> finalTx))] address;;
      mret tt
  | None => throw (TypeError "nonceMap[x.nonce].push is not a function")
  end.

Definition payField (k : string) (x : RawPayment) : JsVal :=
  default VUndefined (lookupField k (pay_fields x)).

Definition paymentAction (x : RawPayment) : string :=
  let lowerCaseAction := toLowerCase (pay_action x) in
  if includes lowerCaseAction ACTIVITY_ACTION_TOPUP then ACTIVITY_ACTION_TOPUP
  else if includes lowerCaseAction ACTIVITY_ACTION_SEND then ACTIVITY_ACTION_SEND
  else if includes lowerCaseAction ACTIVITY_ACTION_RECEIVE
  then ACTIVITY_ACTION_RECEIVE
  else "".

Definition formatPayment (x : RawPayment) : JsVal :=
  VObj [("id", payField "id" x);
        ("date", VDate (newDate (pay_date x)));
        ("from", payField "from" x);
        ("slicedFrom", payField "slicedFrom" x);
        ("action", VStr (paymentAction x));
        ("to", payField "to" x);
        ("slicedTo", payField "slicedTo" x);
        ("totalAmount", payField "totalAmount" x);
        ("totalAmountString", payField "totalAmountString" x);
        ("currencyAmount", payField "currencyAmount" x);
        ("currencyAmountString", payField "currencyAmountString" x);
        ("amount", payField "amount" x);
        ("ethRate", payField "ethRate" x);
        ("status", VStr (toLowerCase (pay_status x)));
        ("etherscanLink", orElse (pay_etherscanLink x) (VStr ""));
        ("currencyUsed", payField "currencyUsed" x)].

Definition calculatePaymentTx (txs : list RawPayment) (address : string)
  : M unit :=
  let accumulator := foldl (λ acc x, acc ++ [formatPayment x]) [] txs in
  updateStore [("paymentTx", VArr accumulator)] address;;
  mret tt.

(** *** [sync] *)

(** The white-label override of the locale. *)
Definition whiteLabelLocale : M JsVal :=
  match torusWhiteLabel with
  | None => mret VUndefined
  | Some (Resolved parsed) =>
      tryCatch (getPropOrThrow "defaultLanguage" parsed)
               (λ error, log LError [error];; mret VUndefined)
  | Some (Rejected error) => log LError [error];; mret VUndefined
  end.

Definition addCustomNetwork (i : JsVal) : M unit :=
  blockExplorer ← getPropOrThrow "block_explorer_url" i;
  emit (EAddSupportedNetworks
          (VObj [("blockExplorer", blockExplorer);
                 ("chainId", getProp "chain_id" i);
                 ("host", getProp "rpc_url" i);
                 ("networkName", getProp "network_name" i);
                 ("ticker", getProp "symbol" i);
                 ("id", getProp "id" i)])).

(** The body of [try] in [sync]. *)
Definition syncUser (address : string) : M JsVal :=
  auth ← gets (headers address);
  user ← apiCall (mkApiCall GET (config_api +:+ "/user?fetchTx=false")
                            VUndefined (Some auth));
  let data := getProp "data" user in
  if truthy data then
    localeOverride ← whiteLabelLocale;
    let public_address := getProp "public_address" data in
    updateStore
      [("contacts", getProp "contacts" data);
       ("theme", getProp "theme" data);
       ("crashReport", VBool (truthy (getProp "enable_crash_reporter" data)));
       ("selectedCurrency", getProp "default_currency" data);
       ("locale", orElse localeOverride
                    (orElse (getProp "locale" data) (VStr getUserLanguage)));
       ("permissions", getProp "permissions" data);
       ("accountType", orElse (getProp "account_type" data)
                              (VStr ACCOUNT_TYPE_NORMAL));
       ("defaultPublicAddress",
        orElse (getProp "default_public_address" data) public_address);
       ("customTokens", getProp "customTokens" data);
       ("customNfts", getProp "customNfts" data)]
      (if truthy public_address then toKey public_address else "");;
    match getProp "customNetworks" data with
    | VArr customNetworks => forEach addCustomNetwork customNetworks
    | _ => throw (TypeError "customNetworks.forEach is not a function")
    end;;
    emit (ESetSentryEnabled (truthy (getProp "enable_crash_reporter" data)));;
    mret user
  else mret VUndefined.

(** The [finally] of [sync]: the two order requests leave, and the chain
    that handles their answers is left pending. *)
Definition fetchOrders (address : string) : M unit :=
  auth ← gets (headers address);
  emit (EWalletOrders auth);;
  emit (EPastOrders auth);;
  modify (λ w, setBackground (background w ++ [OrdersFetched address auth]) w).

Definition sync (address : string) : M JsVal :=
  user ← tryCatch (syncUser address)
                  (λ error, log LWarn [error];; mret VUndefined);
  fetchOrders address;;
  mret user.

(** The chain [Promise.all([...]).then(...).catch(...)] when the two
    requests have settled. *)
Definition runTask (task : Task) : M unit :=
  match task with
  | OrdersFetched address auth =>
      walletTx ← match walletOrders auth with
                 | Resolved data => mret data
                 | Rejected error =>
                     log LError [VStr "unable to fetch wallet orders"; error];;
                     mret None
                 end;
      paymentTx ← match pastOrders auth with
                  | Resolved data => mret data
                  | Rejected error =>
                      log LError [VStr "unable to fetch past orders"; error];;
                      mret None
                  end;
      tryCatch
        (match paymentTx with
         | Some data => calculatePaymentTx data address
         | None => mret tt
         end;;
         match walletTx with
         | Some data =>
             updateStore [("fetchedPastTx", VArr (jsOfRawTx <$> data))]
                         address;;
             detach (calculatePastTx data address)
         | None => mret tt
         end)
        (λ error, log LError [error])
  end.

(** *** Announcements *)

(** One turn of the [reduce] of [getAnnouncementsContents]. *)
Definition pushAnnouncement (accumulator : list (string * JsVal))
    (announcement : JsVal) : M (list (string * JsVal)) :=
  locale ← getPropOrThrow "locale" announcement;
  let key := toKey locale in
  match lookupField key accumulator with
  | Some (VArr l) =>
      mret (setField key (VArr (l ++ [announcement])) accumulator)
  | _ => mret (setField key (VArr [announcement]) accumulator)
  end.

Fixpoint reduceM {A B} (f : B → A → M B) (l : list A) (acc : B) : M B :=
  match l with
  | [] => mret acc
  | x :: r => acc' ← f acc x; reduceM f r acc'
  end.

Definition getAnnouncementsContents : M unit :=
  tryCatch
    (selected ← gets selectedAddress;
     if negb (truthy selected) then mret tt
     else
       auth ← gets (headers "");
       resp ← apiCall (mkApiCall GET (config_api +:+ "/announcements")
                                 VUndefined (Some auth));
       data ← getPropOrThrow "data" resp;
       match data with
       | VArr items =>
           announcements ← reduceM pushAnnouncement items [];
           modify (setAnnouncementsStore (VObj announcements))
       | _ => throw (TypeError "resp.data.reduce is not a function")
       end)
    (λ error, log LError [error]).

(** *** [init] *)

Record InitOptions := mkInitOptions {
  init_address : string;
  init_jwtToken : JsVal;
  init_calledFromEmbed : bool;
  init_userInfo : JsVal;
  init_rehydrate : bool;
  init_accountType : JsVal;
  init_postboxAddress : string;
  init_customCurrency : JsVal;
  init_supportedCurrencies : list JsVal
}.

Definition getMessageForSigning (publicAddress : string) : M JsVal :=
  tryCatch
    (response ← apiCall (mkApiCall POST (config_api +:+ "/auth/message")
                           (VObj [("public_address", VStr publicAddress)])
                           None);
     getPropOrThrow "message" response)
    (λ error, log LError [error];; mret VUndefined).

Definition setVerifier (verifier verifierId : JsVal) (address : string)
  : M unit :=
  tryCatch
    (auth ← gets (headers address);
     response ← apiCall (mkApiCall PATCH (config_api +:+ "/user/verifier")
                           (VObj [("verifier", verifier);
                                  ("verifierId", verifierId)])
                           (Some auth));
     log LInfo [VStr "successfully updated verifier info"; response])
    (λ error, log LError [VStr "unable to update verifier info"; error]).

Definition createUser (selectedCurrency theme verifier verifierId
    accountType : JsVal) (address : string) : M unit :=
  auth ← gets (headers address);
  apiCall (mkApiCall POST (config_api +:+ "/user")
             (VObj [("default_currency", selectedCurrency);
                    ("theme", theme);
                    ("verifier", verifier);
                    ("verifierId", verifierId);
                    ("account_type", accountType)])
             (Some auth));;
  updateStore [("theme", theme);
               ("accountType", VStr ACCOUNT_TYPE_NORMAL);
               ("defaultPublicAddress", VStr address)] address;;
  mret tt.

Definition storeUserLogin (verifier verifierId : JsVal)
    (calledFromEmbed rehydrate : bool) (address : string) : M unit :=
  let userOrigin :=
    if calledFromEmbed then getIFrameOrigin else locationOrigin in
  if negb rehydrate then
    setInterval (RecordLogin userOrigin verifier verifierId address) 1000;;
    mret tt
  else mret tt.

(** What a timer does when it fires; [id] is the timer's handle. *)
Definition runCallback (id : nat) (cb : Callback) : M unit :=
  match cb with
  | ClearError => modify (setErrorStore (VStr ""))
  | ClearSuccess => modify (setSuccessStore (VStr ""))
  | RecordLogin userOrigin verifier verifierId address =>
      if hrefHasReferrer && String.eqb referrer "" then mret tt
      else
        auth ← gets (headers address);
        detach (apiCall (mkApiCall POST (config_api +:+ "/user/recordLogin")
                           (VObj [("hostname", VStr userOrigin);
                                  ("verifier", verifier);
                                  ("verifierId", verifierId);
                                  ("metadata",
                                   VStr ("referrer:" +:+ referrer))])
                           (Some auth));;
                mret tt);;
        clearInterval id
  end.

Definition setSelectedCurrencyAction (selectedCurrency : JsVal)
    (origin : string) : M unit :=
  emit (EDispatch "setSelectedCurrency"
          (VObj [("selectedCurrency", selectedCurrency);
                 ("origin", VStr origin)])).

Definition init (o : InitOptions) : M JsVal :=
  let address := init_address o in
  existing ← gets (state address);
  if truthy existing then
    mret (orElse (getProp "defaultPublicAddress" existing) (VStr address))
  else
    response ←
      (if negb (truthy (init_jwtToken o)) then
         messageToSign ← getMessageForSigning address;
         match messageToSign with
         | VStr m =>
             if negb (startsWith "Torus Signin" m)
             then throw (VError "Cannot sign on invalid message")
             else
               let hashedMessage := hashPersonalMessage m in
               signedMessage ← await (ESignMessage address hashedMessage)
                                     (signMessage address hashedMessage);
               apiCall (mkApiCall POST (config_api +:+ "/auth/verify")
                          (VObj [("public_address", VStr address);
                                 ("signed_message", signedMessage)])
                          None)
         | _ => throw (TypeError "messageToSign.startsWith is not a function")
         end
       else mret (VObj [("token", init_jwtToken o)]));
    token ← getPropOrThrow "token" response;
    currentState ← updateStore [("jwtToken", token)] address;
    verifier ← getPropOrThrow "verifier" (init_userInfo o);
    let verifierId := getProp "verifierId" (init_userInfo o) in
    user ← sync address;
    let data := getProp "data" user in
    defaultPublicAddress ←
      (if truthy data then
         let defaultCurrency := getProp "default_currency" data in
         (if existsb (strictEq defaultCurrency) (init_supportedCurrencies o)
          then setSelectedCurrencyAction defaultCurrency "store"
          else setSelectedCurrencyAction
                 (orElse (init_customCurrency o)
                         (getProp "selectedCurrency" currentState))
                 "home");;
         (if negb (truthy (getProp "verifier" data))
             || negb (truthy (getProp "verifier_id" data))
          then detach (setVerifier verifier verifierId address)
          else mret tt);;
         mret (getProp "default_public_address" data)
       else
         postbox ← gets (λ w, default VUndefined
                                (store w !! init_postboxAddress o));
         let accountState := orElse postbox currentState in
         let currency := orElse (init_customCurrency o)
                                (getProp "selectedCurrency" accountState) in
         createUser currency (getProp "theme" accountState) verifier
                    verifierId (init_accountType o) address;;
         emit (ECommit "setNewUser" (VBool true));;
         setSelectedCurrencyAction currency "home";;
         mret (VStr address));
    (if negb (init_rehydrate o)
     then storeUserLogin verifier verifierId (init_calledFromEmbed o)
                         (init_rehydrate o) address
     else mret tt);;
    mret defaultPublicAddress.

End Controller.


(** ** More of the controller *)

Definition setBillboardStore (v : JsVal) (w : World) : World :=
  mkWorld (store w) (metadataStore w) (errorStore w) (successStore w)
          v (announcementsStore w) (networkIdentifier w)
          (timers w) (nextTimer w) (background w) (trace w).

(** [array.filter(keep)] with a callback that may throw. *)
Fixpoint filterM {A} (keep : A → M bool) (l : list A) : M (list A) :=
  match l with
  | [] => mret []
  | x :: r =>
      keep x ≫= λ b : bool,
        rest ← filterM keep r;
        mret (if b then x :: rest else rest)
  end.

Section MoreController.

Context `{U : !Utils, E : !Enums, P : !Platform, R : !Remote}.

(** *** Settings *)

Definition setUserLocale (payload : string) : M unit :=
  locale ← gets (λ w, getProp "locale" (state "" w));
  if strictEq (VStr payload) locale then mret tt
  else
    tryCatch
      (auth ← gets (headers "");
       apiCall (mkApiCall PATCH (config_api +:+ "/user/locale")
                          (VObj [("locale", VStr payload)]) (Some auth));;
       updateStore [("locale", VStr payload)] "";;
       mret tt)
      (λ error, log LError [VStr "unable to set locale"; error]).

(** [payload] is [{ selectedCurrency, origin }]; only the currency is
    read. *)
Definition setSelectedCurrency (selectedCurrency : string) : M unit :=
  current ← gets (λ w, getProp "selectedCurrency" (state "" w));
  if strictEq (VStr selectedCurrency) current then mret tt
  else
    tryCatch
      (auth ← gets (headers "");
       apiCall (mkApiCall PATCH (config_api +:+ "/user")
                          (VObj [("default_currency", VStr selectedCurrency)])
                          (Some auth));;
       updateStore [("selectedCurrency", VStr selectedCurrency)] "";;
       handleSuccess (VStr "navBar.snackSuccessCurrency"))
      (λ error,
         log LError [error];;
         handleError (VStr "navBar.snackFailCurrency")).

Definition setDefaultPublicAddress (ofAddress address : string) : M unit :=
  tryCatch
    (auth ← gets (headers ofAddress);
     response ← apiCall (mkApiCall PATCH (config_api +:+ "/user")
                           (VObj [("default_public_address", VStr address)])
                           (Some auth));
     updateStore [("defaultPublicAddress", VStr address)] ofAddress;;
     log LInfo [VStr "successfully updated default public address";
                response])
    (λ error,
       log LError [VStr "unable to update default public address"; error]).

(** *** Contacts and custom tokens *)

(** [[...v]] for a value that the controller keeps as an array. *)
Definition spreadArray (v : JsVal) : M (list JsVal) :=
  match v with
  | VArr items => mret items
  | VStr s =>
      mret ((λ c, VStr (String c EmptyString)) <$> String.list_ascii_of_string s)
  | _ => throw (TypeError "value is not iterable")
  end.

(** [v.filter(keep)] *)
Definition filterArray (keep : JsVal → M bool) (v : JsVal)
  : M (list JsVal) :=
  match v with
  | VArr items => filterM keep items
  | _ => throw (TypeError "filter is not a function")
  end.

Definition addContact (payload : JsVal) : M unit :=
  tryCatch
    (auth ← gets (headers "");
     response ← apiCall (mkApiCall POST (config_api +:+ "/contact")
                                   payload (Some auth));
     current ← gets (state "");
     contacts ← getPropOrThrow "contacts" current;
     items ← spreadArray contacts;
     data ← getPropOrThrow "data" response;
     updateStore [("contacts", VArr (items ++ [data]))] "";;
     handleSuccess (VStr "navBar.snackSuccessContactAdd"))
    (λ _, handleError (VStr "navBar.snackFailContactAdd")).

(** [contact => contact.id !== response.data.id] *)
Definition otherId (response contact : JsVal) : M bool :=
  id ← getPropOrThrow "id" contact;
  data ← getPropOrThrow "data" response;
  removed ← getPropOrThrow "id" data;
  mret (negb (strictEq id removed)).

Definition deleteContact (payload : JsVal) : M unit :=
  tryCatch
    (auth ← gets (headers "");
     response ← apiCall (mkApiCall DELETE
                           (config_api +:+ "/contact/" +:+ toKey payload)
                           (VObj []) (Some auth));
     current ← gets (state "");
     contacts ← getPropOrThrow "contacts" current;
     finalContacts ← filterArray (otherId response) contacts;
     updateStore [("contacts", VArr finalContacts)] "";;
     handleSuccess (VStr "navBar.snackSuccessContactDelete"))
    (λ _, handleError (VStr "navBar.snackFailContactDelete")).

Definition addCustomToken (payload : JsVal) (throwError : bool) : M unit :=
  tryCatch
    (auth ← gets (headers "");
     response ← apiCall (mkApiCall POST (config_api +:+ "/customtoken")
                                   payload (Some auth));
     current ← gets (state "");
     customTokens ← getPropOrThrow "customTokens" current;
     items ← spreadArray customTokens;
     data ← getPropOrThrow "data" response;
     updateStore [("customTokens", VArr (items ++ [data]))] "";;
     handleSuccess (VStr "navBar.snackSuccessCustomTokenAdd"))
    (λ error,
       status ← getPropOrThrow "status" error;
       if negb (strictEq status (VNum 409)) then
         if throwError then throw error
         else handleError (VStr "navBar.snackFailCustomTokenAdd")
       else mret tt).

(** *** Custom networks *)

(** The method [addCustomNetwork(type, network)]; [network] is the
    object given by the caller, as its properties. *)
Definition addCustomNetwork' (type : string)
    (network : list (string * JsVal)) : M JsVal :=
  tryCatch
    (jwtToken ← gets (λ w, getProp "jwtToken" (state "" w));
     if truthy jwtToken then
       let payload :=
         VObj [("network_name", getProp "networkName" (VObj network));
               ("rpc_url", getProp "host" (VObj network));
               ("chain_id", getProp "chainId" (VObj network));
               ("symbol", getProp "symbol" (VObj network));
               ("block_explorer_url",
                orElse (getProp "blockExplorer" (VObj network)) VUndefined)]
       in
       auth ← gets (headers "");
       res ← apiCall (mkApiCall POST
                        (config_api +:+ "/customnetwork/" +:+ type)
                        payload (Some auth));
       data ← getPropOrThrow "data" res;
       id ← getPropOrThrow "id" data;
       emit (EAddSupportedNetworks (VObj (setField "id" id network)));;
       mret id
     else
       emit (EAddSupportedNetworks (VObj network));;
       mret VNull)
    (λ _,
       handleError (VStr "navBar.snackFailCustomNetworkAdd");;
       mret VNull).

(** *** Billboard and announcements *)

(** One turn of the [reduce] of [getBillboardContents]. *)
Definition pushBillboard (accumulator : list (string * JsVal))
    (event : JsVal) : M (list (string * JsVal)) :=
  link ← getPropOrThrow "callToActionLink" event;
  let key := toKey link in
  let inner :=
    match lookupField key accumulator with
    | Some (VObj byLocale) => byLocale
    | _ => []
    end in
  mret (setField key
          (VObj (setField (toKey (getProp "locale" event)) event inner))
          accumulator).

Definition getBillboardContents : M unit :=
  tryCatch
    (selected ← gets selectedAddress;
     if negb (truthy selected) then mret tt
     else
       auth ← gets (headers "");
       resp ← apiCall (mkApiCall GET (config_api +:+ "/billboard")
                                 VUndefined (Some auth));
       data ← getPropOrThrow "data" resp;
       match data with
       | VArr items =>
           events ← reduceM pushBillboard items [];
           modify (setBillboardStore (VObj events))
       | _ => throw (TypeError "resp.data.reduce is not a function")
       end)
    (λ error, log LError [error]).

(** [x => x.id !== id] *)
Definition notHidden (id x : JsVal) : M bool :=
  xid ← getPropOrThrow "id" x;
  mret (negb (strictEq xid id)).

(** One turn of the [reduce] of [hideAnnouncement]; [announcements] is
    the object given by the caller, as its properties. *)
Definition hideUnder (id : JsVal) (announcements : list (string * JsVal))
    (accumulator : list (string * JsVal)) (key : string)
  : M (list (string * JsVal)) :=
  filtered ← filterArray (notHidden id) (getProp key (VObj announcements));
  mret (setField key (VArr filtered) accumulator).

Definition hideAnnouncement (payload : JsVal)
    (announcements : list (string * JsVal)) : M unit :=
  id ← getPropOrThrow "id" payload;
  newAnnouncements ← reduceM (hideUnder id announcements)
                             announcements.*1 [];
  modify (setAnnouncementsStore (VObj newAnnouncements)).

(** *** Polling *)

(** The callback of the polling interval. *)
Definition pollTick : M unit :=
  storeSelectedAddress ← gets selectedAddress;
  if negb (truthy storeSelectedAddress) then mret tt
  else
    jwtToken ← gets (λ w, getProp "jwtToken" (state "" w));
    if negb (truthy jwtToken) then mret tt
    else detach (sync (toKey storeSelectedAddress);; mret tt).

End MoreController.


(** ** The PopupLogin component *)

Module PopupLogin.

(** The data of the component, its prop, and the events it has emitted to
    its parent, oldest first. *)
Record Component := mkComponent {
  loginDialog : bool;
  showModal : bool;
  viewMoreOptions : bool;
  emitted : list string;
  logged : list JsVal
}.

(** The elements of the template that carry a listener. *)
Inductive Element := CloseBtn | LoginButtons.

Inductive DomEvent :=
| Click
| TriggerLogin (verifier email : JsVal).

Inductive Handler :=
| CloseDialog
| StartLogin (verifier email : JsVal).

(** [@click="closeDialog"] on the close button and
    [@triggerLogin="startLogin"] on the login buttons. *)
Definition listener (el : Element) (ev : DomEvent) : option Handler :=
  match el, ev with
  | CloseBtn, Click => Some CloseDialog
  | LoginButtons, TriggerLogin verifier email =>
      Some (StartLogin verifier email)
  | _, _ => None
  end.

(** [:value="loginDialog && showModal"] of the dialog that holds both
    elements. *)
Definition dialogShown (c : Component) : bool :=
  loginDialog c && showModal c.

Definition setShowModal (b : bool) (c : Component) : Component :=
  mkComponent (loginDialog c) b (viewMoreOptions c) (emitted c) (logged c).

(** [this.$emit(name)] *)
Definition emit (name : string) (c : Component) : Component :=
  mkComponent (loginDialog c) (showModal c) (viewMoreOptions c)
              (emitted c ++ [name]) (logged c).

Definition logError (error : JsVal) (c : Component) : Component :=
  mkComponent (loginDialog c) (showModal c) (viewMoreOptions c)
              (emitted c) (logged c ++ [error]).

Definition closeDialog (c : Component) : Component :=
  emit "closeDialog" c.

(** [startLogin]; [triggerLogin] is how the store action settles. *)
Definition startLogin (triggerLogin : Settled JsVal) (c : Component)
  : Component :=
  let c1 := setShowModal false c in
  let c2 :=
    match triggerLogin with
    | Resolved _ => c1
    | Rejected error => closeDialog (logError error c1)
    end in
  setShowModal true c2.

Definition run (triggerLogin : Settled JsVal) (h : Handler) (c : Component)
  : Component :=
  match h with
  | CloseDialog => closeDialog c
  | StartLogin _ _ => startLogin triggerLogin c
  end.

(** An event of the page reaches the listener bound to the element. *)
Definition fire (triggerLogin : Settled JsVal) (el : Element)
    (ev : DomEvent) (c : Component) : Component :=
  match listener el ev with
  | Some h => run triggerLogin h c
  | None => c
  end.

End PopupLogin.


(** ** The words of the specification *)

(** A computation that only adds to the trace: the stores, the timers and
    the pending chains are as before. *)
Definition onlyTrace {A} (m : M A) : Prop :=
  ∀ w, ∃ evs, (m w).2 = setTrace (trace w ++ evs) w.

(** A computation after which the trace is the old trace and more. *)
Definition traceGrows {A} (m : M A) : Prop :=
  ∀ w, ∃ evs, trace (m w).2 = trace w ++ evs.

(** From [w], [m] gives the outcome [r] and adds [evs] to the trace,
    changing nothing else. *)
Definition runs {A} (m : M A) (w : World) (r : Outcome A) (evs : list Event)
  : Prop :=
  m w = (r, setTrace (trace w ++ evs) w).

(** A computation that leaves the pending chains alone. *)
Definition keepsBackground {A} (m : M A) : Prop :=
  ∀ w, background (m w).2 = background w.

#[global] Instance eq_VStr_dec (v : JsVal) (s : string) : Decision (v = VStr s).
Proof.
  destruct v as [| | | |s'| | | |]; try (right; discriminate).
  destruct (decide (s' = s)) as [->|Hne]; [by left|].
  right. intros [=]. done.
Defined.

Section PastTxSpec.

Context `{U : !Utils, R : !Remote}.

(** A fetched transaction is of the address on the current network: its
    network is the network identifier, its [to] and [from] are present,
    and its [from] or [to] is the address, letter case apart. *)
Definition relevantTo (address networkId : string) (x : RawTx) : Prop :=
  raw_network x = VStr networkId ∧
  raw_to x ≠ "" ∧ raw_from x ≠ "" ∧
  (toLowerCase (raw_from x) = toLowerCase address ∨
   toLowerCase (raw_to x) = toLowerCase address).

#[global] Instance relevantTo_dec address networkId x :
  Decision (relevantTo address networkId x).
Proof. unfold relevantTo. apply _. Defined.

Definition isConfirmed (x : RawTx) : Prop := raw_status x = VStr "confirmed".

(** The result of the on-chain status lookup; a lookup that fails, or that
    finds no status, gives [undefined]. *)
Definition lookedUpStatus (x : RawTx) : JsVal :=
  match getEthTxStatus (raw_transaction_hash x) with
  | Resolved (Some st) => VStr st
  | Resolved None => VUndefined
  | Rejected _ => VUndefined
  end.

(** [y] is [x] but for its status: every other property of [y] is the
    property of [x]. *)
Definition sameButStatus (x y : Tx) : Prop :=
  nonce y = nonce x ∧ date y = date x ∧
  is_cancel y = is_cancel x ∧ hasCancel y = hasCancel x ∧
  cancelDateInitiated y = cancelDateInitiated x ∧
  etherscanLink y = etherscanLink x ∧
  gas y = gas x ∧ gasPrice y = gasPrice x ∧
  cancelGas y = cancelGas x ∧ cancelGasPrice y = cancelGasPrice x ∧
  others y = others x.

(** The merged list of the claim, before the cancel calculation: the
    confirmed transactions of the address, formatted as they are, then
    the others, formatted and with their status replaced by the looked-up
    status. *)
Definition isMergedPastTx (txs : list RawTx) (address networkId : string)
    (merged : list Tx) : Prop :=
  ∃ looked,
    merged =
      ((λ x, formatPastTx x (toLowerCase address)) <$>
         filter (λ x, relevantTo address networkId x ∧ isConfirmed x) txs)
      ++ looked ∧
    Forall2
      (λ x y, status y = lookedUpStatus x ∧
              sameButStatus (formatPastTx x (toLowerCase address)) y)
      (filter (λ x, relevantTo address networkId x ∧ ¬ isConfirmed x) txs)
      looked.

(** What the two loops of [calculatePastTx] build. *)
Definition mergedPastTx (txs : list RawTx) (address networkId : string)
  : list Tx :=
  ((λ x, formatPastTx x (toLowerCase address)) <$>
     filter (λ x, relevantTo address networkId x ∧ isConfirmed x) txs) ++
  ((λ x, setStatus (lookedUpStatus x)
                   (formatPastTx x (toLowerCase address))) <$>
     filter (λ x, relevantTo address networkId x ∧ ¬ isConfirmed x) txs).

End PastTxSpec.

(** ** The deep merge, in the words of the claim *)

(** The deep-merge of a record with a partial state: a property of the
    partial state overrides the property of the record or extends the
    record; where both hold an object under one name, the two are merged in
    the same way; anything else of the partial state, an array included,
    replaces what the record holds. *)
Fixpoint deepMergeSpec (record partial : JsVal) {struct partial} : JsVal :=
  match partial with
  | VObj pfs =>
      match record with
      | VObj rfs =>
          VObj ((fix over (l merged : list (string * JsVal)) :=
                   match l with
                   | [] => merged
                   | (k, pv) :: rest =>
                       over rest
                            (setField k
                               match lookupField k rfs with
                               | Some rv => deepMergeSpec rv pv
                               | None => pv
                               end merged)
                   end) pfs rfs)
      | _ => partial
      end
  | _ => partial
  end.

(** Plain data, as the account records and the partial states are: a
    primitive, an array, or an object whose property names are distinct and
    name no member of [Object.prototype] and whose values are plain data.
    What an array holds is not looked at: the merge takes arrays whole. *)
Fixpoint plainData (v : JsVal) : Prop :=
  match v with
  | VObj fs =>
      NoDup fs.*1 ∧
      (fix all (l : list (string * JsVal)) : Prop :=
         match l with
         | [] => True
         | (k, x) :: r => (k ∉ objectPrototypeKeys) ∧ plainData x ∧ all r
         end) fs
  | VDate _ | VError _ => False
  | _ => True
  end.


(** ** A sample environment

    One environment and a few worlds on which the methods are run in the
    examples at the end. *)

Definition sampleUtils : Utils :=
  {| formatTime := λ _, "10:00";
     formatDate := λ _, "1 Jan 2022";
     formatPastTx := λ x lowerCaseSelectedAddress,
       mkTx (toLowerCase (raw_transaction_hash x)) 0 (raw_status x)
            (VBool false) VUndefined VUndefined VUndefined
            (VStr "") (VStr "") VUndefined VUndefined [];
     getUserLanguage := "en";
     getIFrameOrigin := "https://dapp.example" |}.

Definition sampleEnums : Enums :=
  {| ERROR_TIME := 5000;
     SUCCESS_TIME := 5000;
     THEME_LIGHT_BLUE_NAME := "light-blue";
     ACCOUNT_TYPE_NORMAL := "normal";
     ACTIVITY_ACTION_TOPUP := "walletActivity.topup";
     ACTIVITY_ACTION_SEND := "walletActivity.send";
     ACTIVITY_ACTION_RECEIVE := "walletActivity.receive" |}.

Definition samplePlatform : Platform :=
  {| ToString := λ v,
       match v with
       | VUndefined => "undefined"
       | VNull => "null"
       | VBool true => "true"
       | VBool false => "false"
       | _ => "[object Object]"
       end;
     config_api := "https://api.example";
     torusTheme := None;
     torusWhiteLabel := None;
     newDate := λ _, 0%Z;
     hashPersonalMessage := λ m, m;
     locationOrigin := "https://app.example";
     hrefHasReferrer := false;
     referrer := "";
     prettyPrintData := λ _, "" |}.

(** A remote side that rejects every request. *)
Definition sampleRemote : Remote :=
  {| apiRequest := λ _, Rejected (VError "offline");
     walletOrders := λ _, Rejected (VError "offline");
     pastOrders := λ _, Rejected (VError "offline");
     getEthTxStatus := λ _, Rejected (VError "offline");
     signMessage := λ _ _, Rejected (VError "offline") |}.

Definition sampleAccount : JsVal :=
  VObj [("selectedCurrency", VStr "USD");
        ("theme", VStr "light-blue");
        ("jwtToken", VStr "token");
        ("defaultPublicAddress", VStr "")].

(** A world where the address [0xab] is selected and has a record. *)
Definition sampleWorld : World :=
  setStore (<["0xab" := sampleAccount]>
              (<["selectedAddress" := VStr "0xab"]> ∅))
           (initialWorld "mainnet").

Definition sampleTx (n : string) (d : Z) (st : string) : Tx :=
  mkTx n d (VStr st) (VBool false) VUndefined VUndefined (VStr ("link" +:+ n))
       (VStr "21000") (VStr "5") VUndefined VUndefined [].

(** Two transactions with the nonce 7 and one with the nonce 8. *)
Definition samplePastTx : list Tx :=
  [sampleTx "7" 10 "submitted"; sampleTx "8" 20 "confirmed";
   sampleTx "7" 30 "confirmed"].

Definition sampleInit : InitOptions :=
  mkInitOptions "0xab" (VStr "token") false (VObj []) false (VStr "normal")
                "" VUndefined [VStr "USD"].


(** ** Flat records *)

(** A value that the merge takes as a whole: a primitive, a date or an
    array. *)
Definition leafValue (v : JsVal) : Prop :=
  isMergeableObject v = false ∨ ∃ items, v = VArr items.

(** The properties of an object whose keys are distinct and whose values
    are all leaves; the default account state is one. *)
Definition flatFields (fs : list (string * JsVal)) : Prop :=
  NoDup fs.*1 ∧ Forall (λ kv, leafValue kv.2) fs.

(** A value that can be the target of [mergeObject]. *)
Definition notArray (v : JsVal) : Prop :=
  match v with VArr _ => False | _ => True end.

(** [Object.prototype.hasOwnProperty.call(v, k) ? v[k] : absent]: the
    property of the object itself, nothing inherited. *)
Definition ownProperty (k : string) (v : JsVal) : option JsVal :=
  match v with VObj fs => lookupField k fs | _ => None end.

(** No property of the object is named like a member of
    [Object.prototype]. *)
Definition ownNames (fs : list (string * JsVal)) : Prop :=
  Forall (λ kv, kv.1 ∉ objectPrototypeKeys) fs.


(** ** Vocabulary of the statements about requests and lists *)

(** [null] and [undefined], on which a property access throws. *)
Definition nullish (v : JsVal) : bool :=
  match v with VUndefined | VNull => true | _ => false end.

Section AnnouncementSpec.

Context `{P : !Platform}.

(** The announcements of one locale, in the order of the response. *)
Definition underLocale (key : string) (items : list JsVal) : list JsVal :=
  filter (λ a, toKey (getProp "locale" a) = key) items.

Definition groupOf (key : string) (items : list JsVal) : option JsVal :=
  match underLocale key items with
  | [] => None
  | a :: rest => Some (VArr (a :: rest))
  end.

(** An element of the response that the [reduce] callbacks can read. *)
Definition readable (a : JsVal) : Prop :=
  nullish a = false ∧ toKey (getProp "locale" a) ∉ objectPrototypeKeys.

(** The announcements other than the one of the given id. *)
Definition withoutId (id : JsVal) (items : list JsVal) : list JsVal :=
  filter (λ x, negb (strictEq (getProp "id" x) id) = true) items.

Definition hideIn (id : JsVal) (announcements : list (string * JsVal))
  : list (string * JsVal) :=
  (λ kv : string * JsVal,
     (kv.1, match kv.2 with
            | VArr items => VArr (withoutId id items)
            | v => v
            end)) <$> announcements.

(** An object of arrays of announcements, as [getAnnouncementsContents]
    builds it. *)
Definition announcementLists (announcements : list (string * JsVal))
  : Prop :=
  NoDup announcements.*1 ∧
  Forall (λ kv : string * JsVal,
            kv.1 ≠ "__proto__" ∧
            ∃ items, kv.2 = VArr items ∧
                     Forall (λ x, nullish x = false) items)
         announcements.

(** The last event of the response for a link and a locale. *)
Definition lastFor (link locale : string) (items : list JsVal)
  : option JsVal :=
  last (filter (λ e, toKey (getProp "callToActionLink" e) = link ∧
                     toKey (getProp "locale" e) = locale) items).

(** [events[link][locale]], when both are there. *)
Definition cell (link locale : string) (events : list (string * JsVal))
  : option JsVal :=
  match lookupField link events with
  | Some (VObj byLocale) => lookupField locale byLocale
  | _ => None
  end.

(** An element of the billboard response that the callback can read. *)
Definition readableEvent (e : JsVal) : Prop :=
  nullish e = false ∧
  (toKey (getProp "callToActionLink" e) ∉ objectPrototypeKeys) ∧
  toKey (getProp "locale" e) ≠ "__proto__".

End AnnouncementSpec.

Section SyncSpec.

Context `{P : !Platform}.

(** The language that the white-label item of the session storage gives,
    [undefined] when there is no item or it cannot be read. *)
Definition whiteLabelDefaultLanguage : JsVal :=
  match torusWhiteLabel with
  | Some (Resolved parsed) =>
      if nullish parsed then VUndefined
      else getProp "defaultLanguage" parsed
  | _ => VUndefined
  end.

(** The user data carries an array of custom networks that the loop of
    [sync] can read. *)
Definition customNetworksOk (data : JsVal) : bool :=
  match getProp "customNetworks" data with
  | VArr customNetworks => forallb (λ i, negb (nullish i)) customNetworks
  | _ => false
  end.

End SyncSpec.


(** ** What [cancelTxCalculate] does to one object *)

Section CancelTxSpec.

Context `{U : !Utils}.

(** The object at position [i] after the call, read off the two loops:
    alone with its nonce it is as before, first of the sorted group it is
    marked as the cancel, otherwise it is marked as cancelled by the first
    of the group. *)
Definition cancelledAt (pastTx : list Tx) (i : nat) (x : Tx) : Tx :=
  if decide (1 < length (nonceGroup pastTx (nonce x))) then
    if decide (i = latestOf pastTx (nonce x)) then markLatest x
    else match pastTx !! latestOf pastTx (nonce x) with
         | Some latestCancelTx => markCancelled latestCancelTx x
         | None => x
         end
  else x.

End CancelTxSpec.


(** ** More of the sample environment *)

Definition sampleAnnouncement (id : Z) (locale : string) : JsVal :=
  VObj [("id", VNum id); ("locale", VStr locale)].

(** The announcements [1] and [3] in English, [2] in German. *)
Definition sampleAnnouncements : list JsVal :=
  [sampleAnnouncement 1 "en"; sampleAnnouncement 2 "de";
   sampleAnnouncement 3 "en"].

Definition sampleShown : list (string * JsVal) :=
  [("en", VArr [sampleAnnouncement 1 "en"; sampleAnnouncement 3 "en"]);
   ("de", VArr [sampleAnnouncement 2 "de"])].

(** The user of the address [0xab] as the server knows it. *)
Definition sampleUser : JsVal :=
  VObj [("data",
         VObj [("public_address", VStr "0xab");
               ("default_currency", VStr "EUR");
               ("locale", VStr "de");
               ("customNetworks", VArr [])])].

(** A remote side that answers every request. *)
Definition answeringRemote : Remote :=
  {| apiRequest := λ call,
       if String.eqb (url call) "https://api.example/announcements"
       then Resolved (VObj [("data", VArr sampleAnnouncements)])
       else if String.eqb (url call) "https://api.example/user?fetchTx=false"
       then Resolved sampleUser
       else if String.eqb (url call) "https://api.example/auth/message"
       then Resolved (VObj [("message", VStr "Please sign this")])
       else Resolved (VObj [("data", VObj [("id", VNum 1)])]);
     walletOrders := λ _, Resolved None;
     pastOrders := λ _, Resolved None;
     getEthTxStatus := λ _, Resolved (Some "confirmed");
     signMessage := λ _ _, Resolved (VStr "signature") |}.

(** Two transactions with the nonce 7 and the same date. *)
Definition sampleTie : list Tx :=
  [sampleTx "7" 10 "submitted"; sampleTx "7" 10 "confirmed"].

(** [init] for the address [0xcd], which has no record, without a token. *)
Definition sampleInitNew : InitOptions :=
  mkInitOptions "0xcd" VUndefined false (VObj []) false (VStr "normal")
                "" VUndefined [VStr "USD"].

Definition sampleRawTx (from status : string) : RawTx :=
  mkRawTx (VNum 1) (VStr "mainnet") "0xEE" from (VStr status) "0xhash" [].

(** A confirmed transaction of [0xab] and a pending one of another
    address. *)
Definition sampleFetched : list RawTx :=
  [sampleRawTx "0xAB" "confirmed"; sampleRawTx "0xFF" "submitted"].

(** A confirmed transaction of [0xab] that the sample [formatPastTx] gives
    the nonce ['constructor']. *)
Definition sampleInherited : list RawTx :=
  [mkRawTx (VNum 2) (VStr "mainnet") "0xEE" "0xAB" (VStr "confirmed")
           "constructor" []].


(** ** Nonce collisions: [cancelTxCalculate] *)

Section CancelTxFacts.

Context `{U : !Utils}.

(** *** The sort *)

Lemma insertLatestFirst_perm heap a sorted :
  insertLatestFirst heap a sorted ≡ₚ a :: sorted.
Proof.
  induction sorted as [|b rest IH]; simpl; [done|].
  case_match; [|done].
  rewrite IH. apply Permutation_swap.
Qed.

Lemma sortLatestFirst_perm heap value : sortLatestFirst heap value ≡ₚ value.
Proof.
  induction value as [|a value IH]; simpl; [done|].
  rewrite insertLatestFirst_perm. by rewrite IH.
Qed.

Lemma insertLatestFirst_ext heap heap' a sorted :
  dateAt heap a = dateAt heap' a →
  (∀ b, b ∈ sorted → dateAt heap b = dateAt heap' b) →
  insertLatestFirst heap a sorted = insertLatestFirst heap' a sorted.
Proof.
  intros Ha. induction sorted as [|b rest IH]; intros Hs; simpl; [done|].
  rewrite Ha, (Hs b) by left.
  rewrite IH; [done|]. intros c Hc. apply Hs. by right.
Qed.

Lemma sortLatestFirst_ext heap heap' value :
  (∀ b, b ∈ value → dateAt heap b = dateAt heap' b) →
  sortLatestFirst heap value = sortLatestFirst heap' value.
Proof.
  induction value as [|a value IH]; intros Hs; simpl; [done|].
  rewrite IH by (intros; apply Hs; by right).
  apply insertLatestFirst_ext; [apply Hs; by left|].
  intros b Hb. apply Hs. right.
  by rewrite <- (sortLatestFirst_perm heap' value).
Qed.

(** The head of the sorted group is a transaction with the latest date. *)
Lemma sortLatestFirst_head heap value latest rest :
  sortLatestFirst heap value = latest :: rest →
  ∀ j, j ∈ value → (dateAt heap j ≤ dateAt heap latest)%Z.
Proof.
  revert latest rest.
  induction value as [|a value IH]; intros latest rest Hsort j Hj.
  { by apply elem_of_nil in Hj. }
  simpl in Hsort.
  destruct (sortLatestFirst heap value) as [|b sorted] eqn:Hs.
  - pose proof (sortLatestFirst_perm heap value) as Hp. rewrite Hs in Hp.
    apply Permutation_nil_l in Hp. subst value.
    simpl in Hsort. injection Hsort as <- <-.
    apply list_elem_of_singleton in Hj. by subst.
  - specialize (IH b sorted eq_refl).
    simpl in Hsort.
    destruct (0 <? dateAt heap b - dateAt heap a)%Z eqn:Hcmp.
    + injection Hsort as <- <-.
      apply Z.ltb_lt in Hcmp.
      apply elem_of_cons in Hj as [->|Hj]; [lia|by apply IH].
    + injection Hsort as <- <-.
      apply Z.ltb_ge in Hcmp.
      apply elem_of_cons in Hj as [->|Hj]; [lia|].
      specialize (IH j Hj). lia.
Qed.

(** *** One group *)

Lemma markCancelled_markLatest xl :
  markCancelled (markLatest xl) = markCancelled xl.
Proof. done. Qed.

Lemma cancelOne_length latest heap x :
  length (cancelOne latest heap x) = length heap.
Proof. unfold cancelOne. case_match; [apply length_alter|done]. Qed.

Lemma foldl_cancelOne_length latest others heap :
  length (foldl (cancelOne latest) heap others) = length heap.
Proof.
  revert heap. induction others as [|x others IH]; intros heap; simpl; [done|].
  by rewrite IH, cancelOne_length.
Qed.

Lemma foldl_cancelOne_lookup latest xl others heap i :
  latest ∉ others →
  heap !! latest = Some xl →
  foldl (cancelOne latest) heap others !! i =
    if decide (i ∈ others) then markCancelled xl <$> heap !! i else heap !! i.
Proof.
  revert heap.
  induction others as [|x others IH]; intros heap Hnot Hl; cbn [foldl].
  { destruct (decide (i ∈ [])) as [Hi|]; [by apply elem_of_nil in Hi|done]. }
  apply not_elem_of_cons in Hnot as [Hne Hnot].
  assert (cancelOne latest heap x = alter (markCancelled xl) x heap) as ->.
  { unfold cancelOne. by rewrite Hl. }
  rewrite IH; [|done|by rewrite list_lookup_alter_ne].
  destruct (decide (i = x)) as [->|Hix].
  - rewrite list_lookup_alter_eq.
    destruct (decide (x ∈ x :: others)) as [_|[]]; [|by left].
    case_decide; [|done].
    by destruct (heap !! x).
  - rewrite list_lookup_alter_ne by done.
    assert (i ∈ x :: others ↔ i ∈ others) as Hiff.
    { rewrite elem_of_cons. naive_solver. }
    repeat case_decide; naive_solver.
Qed.

(** What one iteration does to the heap, cell by cell. *)
Lemma processGroup_lookup heap value :
  NoDup value →
  (∀ i, i ∈ value → i < length heap) →
  1 < length value →
  ∃ latest rest xl,
    sortLatestFirst heap value = latest :: rest ∧
    heap !! latest = Some xl ∧
    ∀ i, processGroup heap value !! i =
         if decide (i = latest) then Some (markLatest xl)
         else if decide (i ∈ value) then markCancelled xl <$> heap !! i
         else heap !! i.
Proof.
  intros Hnd Hrange Hlen.
  pose proof (sortLatestFirst_perm heap value) as Hperm.
  destruct (sortLatestFirst heap value) as [|latest rest] eqn:Hsort.
  { apply Permutation_nil_l in Hperm. subst value. simpl in Hlen. lia. }
  assert (latest ∈ value) as Hin by (rewrite <- Hperm; left).
  destruct (lookup_lt_is_Some_2 heap latest (Hrange _ Hin)) as [xl Hxl].
  assert (NoDup (latest :: rest)) as Hnd' by by rewrite Hperm.
  apply NoDup_cons in Hnd' as [Hnot _].
  exists latest, rest, xl. split_and!; [done..|].
  intros i. unfold processGroup.
  rewrite decide_True by done. rewrite Hsort.
  rewrite (foldl_cancelOne_lookup latest (markLatest xl)); [|done|].
  2:{ by rewrite list_lookup_alter_eq, Hxl. }
  destruct (decide (i = latest)) as [->|Hne].
  - rewrite decide_False by done.
    by rewrite list_lookup_alter_eq, Hxl.
  - rewrite list_lookup_alter_ne by done.
    rewrite markCancelled_markLatest.
    assert (i ∈ rest ↔ i ∈ value) as Hiff.
    { rewrite <- Hperm, elem_of_cons. naive_solver. }
    repeat case_decide; naive_solver.
Qed.

Lemma processGroup_length heap value :
  length (processGroup heap value) = length heap.
Proof.
  unfold processGroup. case_decide; [|done].
  case_match; [done|].
  by rewrite foldl_cancelOne_length, length_alter.
Qed.

Lemma processGroup_small heap value :
  (length value ≤ 1)%nat → processGroup heap value = heap.
Proof. intros. unfold processGroup. rewrite decide_False; [done|lia]. Qed.

(** An iteration leaves the cells outside its group alone ... *)
Lemma processGroup_frame heap value i :
  NoDup value →
  (∀ j, j ∈ value → j < length heap) →
  i ∉ value →
  processGroup heap value !! i = heap !! i.
Proof.
  intros Hnd Hrange Hi.
  destruct (decide (1 < length value)) as [Hlen|Hlen].
  - destruct (processGroup_lookup heap value Hnd Hrange Hlen)
      as (latest & rest & xl & Hsort & Hxl & Hl).
    rewrite Hl.
    assert (latest ∈ value).
    { rewrite <- (sortLatestFirst_perm heap value), Hsort. left. }
    rewrite decide_False by (intros ->; done).
    by rewrite decide_False.
  - rewrite processGroup_small; [done|lia].
Qed.

(** ... and reads only the cells of its group. *)
Lemma processGroup_local heap heap' value i :
  NoDup value →
  (∀ j, j ∈ value → j < length heap) →
  (∀ j, j ∈ value → heap !! j = heap' !! j) →
  i ∈ value →
  processGroup heap value !! i = processGroup heap' value !! i.
Proof.
  intros Hnd Hrange Hagree Hi.
  assert (∀ j, j ∈ value → j < length heap') as Hrange'.
  { intros j Hj. apply lookup_lt_is_Some. rewrite <- Hagree by done.
    apply lookup_lt_is_Some. auto. }
  destruct (decide (1 < length value)) as [Hlen|Hlen].
  - destruct (processGroup_lookup heap value Hnd Hrange Hlen)
      as (latest & rest & xl & Hsort & Hxl & Hl).
    destruct (processGroup_lookup heap' value Hnd Hrange' Hlen)
      as (latest' & rest' & xl' & Hsort' & Hxl' & Hl').
    rewrite (sortLatestFirst_ext heap heap') in Hsort.
    2:{ intros b Hb. unfold dateAt. by rewrite Hagree. }
    rewrite Hsort in Hsort'. injection Hsort' as <- <-.
    assert (latest ∈ value).
    { rewrite <- (sortLatestFirst_perm heap' value), Hsort. left. }
    rewrite Hagree, Hxl' in Hxl by done. injection Hxl as <-.
    rewrite Hl, Hl'. by rewrite Hagree.
  - rewrite !processGroup_small; [by apply Hagree|lia..].
Qed.

(** *** The nonce map *)

Lemma indicesFrom_app n k l l' :
  indicesFrom n k (l ++ l') =
  indicesFrom n k l ++ indicesFrom n (k + length l) l'.
Proof.
  revert k. induction l as [|x l IH]; intros k; simpl.
  { by rewrite Nat.add_0_r. }
  rewrite IH. replace (S k + length l) with (k + S (length l)) by lia.
  by case_decide.
Qed.

Lemma elem_of_indicesFrom n k l i :
  i ∈ indicesFrom n k l ↔
  k ≤ i ∧ ∃ x, l !! (i - k) = Some x ∧ nonce x = n.
Proof.
  revert k. induction l as [|x l IH]; intros k; simpl.
  { split; [by intros ?%elem_of_nil|]. by intros (_ & ? & ? & _). }
  assert (i ∈ indicesFrom n (S k) l ↔
          k < i ∧ ∃ y, (x :: l) !! (i - k) = Some y ∧ nonce y = n) as Hrest.
  { rewrite IH. split.
    - intros (Hle & y & Hy & Hn). split; [lia|]. exists y. split; [|done].
      replace (i - k) with (S (i - S k)) by lia. done.
    - intros (Hlt & y & Hy & Hn). split; [lia|]. exists y. split; [|done].
      replace (i - k) with (S (i - S k)) in Hy by lia. done. }
  case_decide as Hx.
  - rewrite elem_of_cons, Hrest. split.
    + intros [->|(Hlt & Hy)]; [|split; [lia|done]].
      split; [done|]. exists x. by rewrite Nat.sub_diag.
    + intros (Hle & y & Hy & Hn).
      destruct (decide (i = k)) as [->|]; [by left|right].
      split; [lia|]. by exists y.
  - rewrite Hrest. split.
    + intros (Hlt & Hy). split; [lia|done].
    + intros (Hle & y & Hy & Hn).
      destruct (decide (i = k)) as [->|]; [|split; [lia|by exists y]].
      rewrite Nat.sub_diag in Hy. simpl in Hy. congruence.
Qed.

Lemma NoDup_indicesFrom n k l : NoDup (indicesFrom n k l).
Proof.
  revert k. induction l as [|x l IH]; intros k; simpl; [constructor|].
  case_decide; [|done].
  constructor; [|done].
  rewrite elem_of_indicesFrom. lia.
Qed.

Lemma elem_of_nonceGroup pastTx n i :
  i ∈ nonceGroup pastTx n ↔ ∃ x, pastTx !! i = Some x ∧ nonce x = n.
Proof.
  unfold nonceGroup. rewrite elem_of_indicesFrom, Nat.sub_0_r.
  split; [by intros [_ ?]|]. intros ?. split; [lia|done].
Qed.

Lemma nonceGroup_range pastTx n i :
  i ∈ nonceGroup pastTx n → i < length pastTx.
Proof.
  intros (x & Hx & _)%elem_of_nonceGroup. by apply lookup_lt_Some in Hx.
Qed.

Lemma pushNonce_lookup m k x :
  (is_Some (m !! nonce x) ∨ nonce x ∉ objectPrototypeKeys) →
  ∃ m',
    pushNonce m (k, x) = Some m' ∧
    ∀ n, m' !! n =
         if decide (nonce x = n) then Some (default [] (m !! n) ++ [k])
         else m !! n.
Proof.
  intros Hok. unfold pushNonce. cbn [fst snd].
  destruct (m !! nonce x) as [value|] eqn:Hm.
  - eexists. split; [done|]. intros n. case_decide as Hn.
    + subst n. by rewrite lookup_insert_eq, Hm.
    + by rewrite lookup_insert_ne.
  - destruct Hok as [[? [=]]|Hown].
    rewrite bool_decide_eq_false_2 by done.
    eexists. split; [done|]. intros n. case_decide as Hn.
    + subst n. by rewrite lookup_insert_eq, Hm.
    + by rewrite lookup_insert_ne.
Qed.

Lemma buildNonceMap_snoc pastTx x :
  buildNonceMap (pastTx ++ [x]) =
  match buildNonceMap pastTx with
  | Some m => pushNonce m (length pastTx, x)
  | None => None
  end.
Proof.
  unfold buildNonceMap. rewrite imap_app, foldl_app. cbn [imap foldl].
  destruct (foldl _ _ _); [|done]. by rewrite Nat.add_0_r.
Qed.

(** After the first loop, [nonceMap[n]] is the group of [n], in the order
    of the array, and is absent when the group is empty. *)
Lemma buildNonceMap_lookup pastTx :
  Forall (λ x, nonce x ∉ objectPrototypeKeys) pastTx →
  ∃ m,
    buildNonceMap pastTx = Some m ∧
    ∀ n, m !! n =
         if decide (nonceGroup pastTx n = []) then None
         else Some (nonceGroup pastTx n).
Proof.
  unfold nonceGroup.
  induction pastTx as [|x pastTx IH] using rev_ind; intros Hown.
  { by exists ∅. }
  apply Forall_app in Hown as [Hown Hx]. apply Forall_cons in Hx as [Hx _].
  destruct (IH Hown) as (m & Hm & Hlookup).
  destruct (pushNonce_lookup m (length pastTx) x) as (m' & Hm' & Hlookup');
    [by right|].
  exists m'. rewrite buildNonceMap_snoc, Hm. split; [done|].
  intros n. rewrite Hlookup', Hlookup, indicesFrom_app. simpl.
  destruct (decide (nonce x = n)).
  - rewrite (decide_False (P := _ ++ _ = [])) by (by intros [_ ?]%app_eq_nil).
    by case_decide as Hg; [rewrite Hg|].
  - by rewrite app_nil_r.
Qed.

(** A nonce named like a member of [Object.prototype] makes the first
    loop throw. *)
Lemma buildNonceMap_inherited pastTx :
  Exists (λ x, nonce x ∈ objectPrototypeKeys) pastTx →
  buildNonceMap pastTx = None.
Proof.
  induction pastTx as [|x pastTx IH] using rev_ind; intros Hex.
  { by apply Exists_nil in Hex. }
  rewrite buildNonceMap_snoc.
  destruct (decide (Exists (λ x, nonce x ∈ objectPrototypeKeys) pastTx))
    as [Hbefore|Hbefore].
  { by rewrite IH. }
  apply not_Exists_Forall in Hbefore; [|apply _].
  apply Exists_app in Hex as [Hex|Hex]; [by apply Forall_not_Exists in Hex|].
  apply Exists_cons in Hex as [Hx|Hex]; [|by apply Exists_nil in Hex].
  destruct (buildNonceMap_lookup pastTx) as (m & -> & Hlookup); [done|].
  unfold pushNonce. cbn [fst snd]. rewrite Hlookup.
  rewrite decide_True; [by rewrite bool_decide_eq_true_2|].
  destruct (nonceGroup pastTx (nonce x)) as [|i g] eqn:Hg; [done|].
  assert (i ∈ nonceGroup pastTx (nonce x)) as Hi by (rewrite Hg; left).
  apply elem_of_nonceGroup in Hi as (y & Hy & Hn).
  rewrite Forall_forall in Hbefore.
  destruct (Hbefore y); [by eapply list_elem_of_lookup_2|].
  by rewrite Hn.
Qed.

(** *** All groups *)

Lemma foldl_processGroup_length groups heap :
  length (foldl processGroup heap groups) = length heap.
Proof.
  revert heap. induction groups as [|g groups IH]; intros heap; simpl; [done|].
  by rewrite IH, processGroup_length.
Qed.

Lemma foldl_processGroup_lookup pastTx entries heap i :
  NoDup entries.*1 →
  (∀ n g, (n, g) ∈ entries → g = nonceGroup pastTx n) →
  length heap = length pastTx →
  (∀ n, n ∈ entries.*1 → i ∈ nonceGroup pastTx n →
     foldl processGroup heap entries.*2 !! i =
     processGroup heap (nonceGroup pastTx n) !! i) ∧
  ((∀ n, n ∈ entries.*1 → i ∉ nonceGroup pastTx n) →
     foldl processGroup heap entries.*2 !! i = heap !! i).
Proof.
  revert heap.
  induction entries as [|[n0 g0] entries IH]; intros heap Hnd Hgroups Hlen.
  { split; [by intros n ?%elem_of_nil|done]. }
  rewrite fmap_cons in Hnd. apply NoDup_cons in Hnd as [Hn0 Hnd].
  assert (g0 = nonceGroup pastTx n0) as -> by (apply Hgroups; left).
  assert (∀ j, j ∈ nonceGroup pastTx n0 → j < length heap) as Hrange.
  { intros j Hj. rewrite Hlen. by eapply nonceGroup_range. }
  pose proof (NoDup_indicesFrom n0 0 pastTx) as Hnd0.
  fold (nonceGroup pastTx n0) in Hnd0.
  destruct (IH (processGroup heap (nonceGroup pastTx n0))) as [IHin IHout];
    [done|by intros; apply Hgroups; right
    |by rewrite processGroup_length|].
  rewrite !fmap_cons. cbn [foldl fst snd]. split.
  - intros n Hn Hi. apply elem_of_cons in Hn as [->|Hn].
    + apply IHout. intros n Hn Hi'.
      apply elem_of_nonceGroup in Hi as (x & Hx & Hxn).
      apply elem_of_nonceGroup in Hi' as (x' & Hx' & Hxn').
      assert (n = n0) as -> by congruence. done.
    + rewrite (IHin n Hn Hi).
      pose proof (NoDup_indicesFrom n 0 pastTx) as Hndn.
      fold (nonceGroup pastTx n) in Hndn.
      apply processGroup_local; [done| |  |done].
      * intros j Hj. rewrite processGroup_length, Hlen.
        by eapply nonceGroup_range.
      * intros j Hj. apply processGroup_frame; [done..|].
        intros Hj0.
        apply elem_of_nonceGroup in Hj as (x & Hx & Hxn).
        apply elem_of_nonceGroup in Hj0 as (x' & Hx' & Hxn').
        assert (n = n0) as -> by congruence. done.
  - intros Hout. rewrite IHout.
    + apply processGroup_frame; [done..|]. apply Hout. left.
    + intros n Hn. apply Hout. by right.
Qed.

Lemma NoDup_all_eq_length (l : list nat) i :
  NoDup l → (∀ a, a ∈ l → a = i) → length l ≤ 1.
Proof.
  intros Hnd Hall.
  destruct l as [|a [|b l]]; simpl; [lia..|].
  apply NoDup_cons in Hnd as [Hab _].
  assert (a = i) as -> by (apply Hall; left).
  assert (b = i) as -> by (apply Hall; right; left).
  destruct Hab. left.
Qed.

Lemma two_elems_length (l : list nat) i j :
  i ∈ l → j ∈ l → i ≠ j → 1 < length l.
Proof.
  intros Hi Hj Hne.
  destruct l as [|a [|b l]]; simpl; [|exfalso|lia].
  - by apply elem_of_nil in Hi.
  - apply list_elem_of_singleton in Hi, Hj. congruence.
Qed.

Lemma cancelledAt_kept pastTx i x :
  nonce (cancelledAt pastTx i x) = nonce x ∧
  date (cancelledAt pastTx i x) = date x ∧
  gas (cancelledAt pastTx i x) = gas x ∧
  gasPrice (cancelledAt pastTx i x) = gasPrice x ∧
  others (cancelledAt pastTx i x) = others x.
Proof.
  unfold cancelledAt. repeat case_decide; try done.
  by destruct (pastTx !! latestOf pastTx (nonce x)).
Qed.

Lemma indicesFrom_sorted n k l : StronglySorted lt (indicesFrom n k l).
Proof.
  revert k. induction l as [|x l IH]; intros k; simpl; [constructor|].
  case_decide; [|done].
  constructor; [done|].
  apply Forall_forall. intros j Hj%elem_of_indicesFrom. lia.
Qed.

(** The first of the stable sort of an increasing list of references: no
    date exceeds its date, and no earlier reference has its date. *)
Lemma sortLatestFirst_head_first heap value latest rest :
  StronglySorted lt value →
  sortLatestFirst heap value = latest :: rest →
  ∀ j, j ∈ value →
    (dateAt heap j ≤ dateAt heap latest)%Z ∧
    (dateAt heap j = dateAt heap latest → latest ≤ j).
Proof.
  revert latest rest.
  induction value as [|a value IH]; intros latest rest Hsorted Hsort j Hj.
  { by apply elem_of_nil in Hj. }
  apply StronglySorted_inv in Hsorted as [Hsorted Hlt].
  rewrite Forall_forall in Hlt.
  simpl in Hsort.
  destruct (sortLatestFirst heap value) as [|b sorted] eqn:Hs.
  - pose proof (sortLatestFirst_perm heap value) as Hp. rewrite Hs in Hp.
    apply Permutation_nil_l in Hp. subst value.
    simpl in Hsort. injection Hsort as <- <-.
    apply list_elem_of_singleton in Hj. subst. split; [lia|done].
  - specialize (IH b sorted Hsorted eq_refl).
    assert (b ∈ value) as Hb.
    { rewrite <- (sortLatestFirst_perm heap value), Hs. left. }
    simpl in Hsort.
    destruct (0 <? dateAt heap b - dateAt heap a)%Z eqn:Hcmp.
    + injection Hsort as <- <-. apply Z.ltb_lt in Hcmp.
      apply elem_of_cons in Hj as [->|Hj]; [split; lia|by apply IH].
    + injection Hsort as <- <-. apply Z.ltb_ge in Hcmp.
      apply elem_of_cons in Hj as [->|Hj]; [split; [lia|done]|].
      destruct (IH j Hj) as [Hle _]. split; [lia|].
      intros _. specialize (Hlt j Hj). lia.
Qed.

Lemma processGroup_at pastTx i x :
  pastTx !! i = Some x →
  processGroup pastTx (nonceGroup pastTx (nonce x)) !! i
    = Some (cancelledAt pastTx i x).
Proof.
  intros Hx. unfold cancelledAt.
  pose proof (NoDup_indicesFrom (nonce x) 0 pastTx) as Hnd.
  fold (nonceGroup pastTx (nonce x)) in Hnd.
  assert (i ∈ nonceGroup pastTx (nonce x)) as Hi.
  { apply elem_of_nonceGroup. by exists x. }
  destruct (decide (1 < length (nonceGroup pastTx (nonce x)))) as [Hlen|Hlen].
  - destruct (processGroup_lookup pastTx _ Hnd
                (λ a, nonceGroup_range pastTx (nonce x) a) Hlen)
      as (latest & rest & xl & Hsort & Hxl & Hl).
    assert (latestOf pastTx (nonce x) = latest) as ->.
    { unfold latestOf. by rewrite Hsort. }
    rewrite Hl, Hxl. case_decide as Heq.
    + subst i. congruence.
    + rewrite decide_True by done. by rewrite Hx.
  - rewrite processGroup_small; [done|lia].
Qed.

(** The call returns when no nonce names a member of [Object.prototype],
    and then object [i] of the result is [cancelledAt] of object [i]. *)
Lemma cancelTxCalculate_imap pastTx :
  Forall (λ x, nonce x ∉ objectPrototypeKeys) pastTx →
  cancelTxCalculate pastTx = Some (imap (cancelledAt pastTx) pastTx).
Proof.
  intros Hown. unfold cancelTxCalculate.
  destruct (buildNonceMap_lookup pastTx Hown) as (m & -> & Hlookup).
  f_equal. apply list_eq. intros i. rewrite list_lookup_imap.
  destruct (pastTx !! i) as [x|] eqn:Hx; simpl.
  - rewrite <- (processGroup_at pastTx i x Hx).
    assert (i ∈ nonceGroup pastTx (nonce x)) as Hi.
    { apply elem_of_nonceGroup. by exists x. }
    edestruct (foldl_processGroup_lookup pastTx (map_to_list m) pastTx i)
      as [Hin _].
    + apply NoDup_fst_map_to_list.
    + intros n g Hng%elem_of_map_to_list.
      rewrite Hlookup in Hng. case_decide; congruence.
    + done.
    + apply Hin; [|done].
      apply list_elem_of_fmap. exists (nonce x, nonceGroup pastTx (nonce x)).
      split; [done|]. apply elem_of_map_to_list.
      rewrite Hlookup. rewrite decide_False; [done|].
      intros Hnil. rewrite Hnil in Hi. by apply elem_of_nil in Hi.
  - apply lookup_ge_None. rewrite foldl_processGroup_length.
    by apply lookup_ge_None.
Qed.

Lemma cancelTxCalculate_throws pastTx :
  Exists (λ x, nonce x ∈ objectPrototypeKeys) pastTx →
  cancelTxCalculate pastTx = None.
Proof.
  intros Hex. unfold cancelTxCalculate.
  by rewrite buildNonceMap_inherited.
Qed.

(** The group of a nonce that several objects have: its latest. *)
Lemma nonceGroup_latest pastTx i x j z :
  pastTx !! i = Some x → pastTx !! j = Some z → nonce z = nonce x →
  j ≠ i →
  1 < length (nonceGroup pastTx (nonce x)) ∧
  ∃ latestCancelTx,
    pastTx !! latestOf pastTx (nonce x) = Some latestCancelTx ∧
    nonce latestCancelTx = nonce x ∧
    ∀ k y, pastTx !! k = Some y → nonce y = nonce x →
      (date y ≤ date latestCancelTx)%Z ∧
      (date y = date latestCancelTx → latestOf pastTx (nonce x) ≤ k).
Proof.
  intros Hx Hz Hn Hne.
  pose proof (NoDup_indicesFrom (nonce x) 0 pastTx) as Hnd.
  fold (nonceGroup pastTx (nonce x)) in Hnd.
  assert (1 < length (nonceGroup pastTx (nonce x))) as Hlen.
  { apply (two_elems_length _ i j); [| |done];
      apply elem_of_nonceGroup; eauto. }
  split; [done|].
  destruct (processGroup_lookup pastTx _ Hnd
              (λ a, nonceGroup_range pastTx (nonce x) a) Hlen)
    as (latest & rest & xl & Hsort & Hxl & Hl).
  assert (latestOf pastTx (nonce x) = latest) as ->.
  { unfold latestOf. by rewrite Hsort. }
  assert (latest ∈ nonceGroup pastTx (nonce x)) as Hlin.
  { rewrite <- (sortLatestFirst_perm pastTx), Hsort. left. }
  exists xl. split_and!; [done| |].
  - apply elem_of_nonceGroup in Hlin as (? & ? & ?). congruence.
  - intros k y Hy Hyn.
    pose proof (sortLatestFirst_head_first pastTx _ latest rest
                  (indicesFrom_sorted (nonce x) 0 pastTx) Hsort k) as Hk.
    unfold dateAt in Hk. rewrite Hy, Hxl in Hk. apply Hk.
    apply elem_of_nonceGroup. eauto.
Qed.

Lemma strictEqStr_decide v lit :
  strictEqStr v lit = bool_decide (v = VStr lit).
Proof.
  unfold strictEqStr.
  destruct v as [| | | |s| | | |];
    try (symmetry; apply bool_decide_eq_false_2; discriminate).
  destruct (String.eqb_spec s lit) as [->|Hne]; symmetry.
  - by apply bool_decide_eq_true_2.
  - apply bool_decide_eq_false_2. by intros [=].
Qed.

(** C1.  For an array of transactions whose nonces name no member of
    [Object.prototype], as the nonce of a transaction does not,
    [cancelTxCalculate] returns an array of the same length, object by
    object.  An object whose nonce no other object of the array has is
    unchanged.  In a group of several objects with one nonce, the latest
    is the object of the group whose date no other of the group exceeds,
    the first in the array among those of that date.  The latest has
    [is_cancel] set to [true] and is otherwise unchanged.  Each other
    object of the group has [hasCancel] set to [true], [status] set to
    ['cancelled'] when the status of the latest is ['confirmed'] and to
    ['cancelling'] otherwise, [cancelDateInitiated] set to the formatted
    time and date of the latest, and [etherscanLink], [cancelGas] and
    [cancelGasPrice] set to the latest's [etherscanLink], [gas] and
    [gasPrice]; its other properties are unchanged. *)
Theorem cancelTxCalculate_collisions pastTx :
  Forall (λ x, nonce x ∉ objectPrototypeKeys) pastTx →
  ∃ result,
    cancelTxCalculate pastTx = Some result ∧
    length result = length pastTx ∧
    ∀ i x, pastTx !! i = Some x →
      ∃ y,
        result !! i = Some y ∧
        nonce y = nonce x ∧ date y = date x ∧ gas y = gas x ∧
        gasPrice y = gasPrice x ∧ others y = others x ∧
        ((∀ j z, pastTx !! j = Some z → nonce z = nonce x → j = i) →
         y = x) ∧
        (∀ j z, j ≠ i → pastTx !! j = Some z → nonce z = nonce x →
         ∃ latest latestCancelTx,
           pastTx !! latest = Some latestCancelTx ∧
           nonce latestCancelTx = nonce x ∧
           (∀ k z', pastTx !! k = Some z' → nonce z' = nonce x →
              (date z' ≤ date latestCancelTx)%Z ∧
              (date z' = date latestCancelTx → latest ≤ k)) ∧
           if decide (i = latest) then
             is_cancel y = VBool true ∧
             hasCancel y = hasCancel x ∧ status y = status x ∧
             cancelDateInitiated y = cancelDateInitiated x ∧
             etherscanLink y = etherscanLink x ∧
             cancelGas y = cancelGas x ∧
             cancelGasPrice y = cancelGasPrice x
           else
             hasCancel y = VBool true ∧
             status y =
               VStr (if decide (status latestCancelTx = VStr "confirmed")
                     then "cancelled" else "cancelling") ∧
             cancelDateInitiated y =
               VStr (formatTime (date latestCancelTx) +:+ " - "
                     +:+ formatDate (date latestCancelTx)) ∧
             etherscanLink y = etherscanLink latestCancelTx ∧
             cancelGas y = gas latestCancelTx ∧
             cancelGasPrice y = gasPrice latestCancelTx ∧
             is_cancel y = is_cancel x).
Proof.
  intros Hown. exists (imap (cancelledAt pastTx) pastTx).
  split; [by apply cancelTxCalculate_imap|].
  split; [apply length_imap|].
  intros i x Hx. exists (cancelledAt pastTx i x).
  split; [by rewrite list_lookup_imap, Hx|].
  destruct (cancelledAt_kept pastTx i x) as (-> & -> & -> & -> & ->).
  split_and!; try done.
  - intros Huniq. unfold cancelledAt. rewrite decide_False; [done|].
    pose proof (NoDup_indicesFrom (nonce x) 0 pastTx) as Hnd.
    enough (length (nonceGroup pastTx (nonce x)) ≤ 1) by lia.
    apply (NoDup_all_eq_length _ i); [done|].
    intros a (z & Hz & Hn)%elem_of_nonceGroup. by eapply Huniq.
  - intros j z Hne Hz Hn.
    destruct (nonceGroup_latest pastTx i x j z Hx Hz Hn Hne)
      as (Hlen & xl & Hxl & Hnl & Hmax).
    exists (latestOf pastTx (nonce x)), xl.
    split; [done|]. split; [done|]. split; [exact Hmax|].
    unfold cancelledAt.
    destruct (decide (1 < length (nonceGroup pastTx (nonce x))))
      as [_|[]]; [|done].
    destruct (decide (i = latestOf pastTx (nonce x))) as [Hi|Hi]; [done|].
    rewrite Hxl.
    cbn [markCancelled hasCancel status cancelDateInitiated etherscanLink
         cancelGas cancelGasPrice is_cancel].
    split_and!; try done.
    rewrite strictEqStr_decide. by case_bool_decide; case_decide.
Qed.

End CancelTxFacts.


(** ** The monad and the merge *)

Lemma bind_eq {A B} (m : M A) (k : A → M B) w :
  (m ≫= k) w =
  match m w with
  | (Returned a, w') => k a w'
  | (Thrown e, w') => (Thrown e, w')
  end.
Proof. done. Qed.

Lemma bind_gets {A B} (f : World → A) (k : A → M B) w :
  (gets f ≫= k) w = k (f w) w.
Proof. done. Qed.

Lemma bind_ret {A B} (a : A) (k : A → M B) w : (mret a ≫= k) w = k a w.
Proof. done. Qed.

Lemma bind_throw {A B} (e : JsVal) (k : A → M B) w :
  (throw e ≫= k) w = (Thrown e, w).
Proof. done. Qed.

Lemma bind_emit {B} ev (k : unit → M B) w :
  (emit ev ≫= k) w = k tt (setTrace (trace w ++ [ev]) w).
Proof. done. Qed.

Lemma bind_modify {B} f (k : unit → M B) w :
  (modify f ≫= k) w = k tt (f w).
Proof. done. Qed.

Lemma bind_assoc {A B C} (m : M A) (k : A → M B) (k' : B → M C) w :
  ((m ≫= k) ≫= k') w = (m ≫= λ a, k a ≫= k') w.
Proof. rewrite !bind_eq. by destruct (m w) as [[a|e] w']. Qed.

(** Projections of a world that was built by the setters. *)
Ltac wsimpl :=
  unfold mret, M_ret, ret;
  cbn [fst snd store metadataStore errorStore successStore billboardStore
       announcementsStore networkIdentifier timers nextTimer background trace
       setStore setErrorStore setSuccessStore setAnnouncementsStore setTimers
       setBackground setTrace].

Lemma String_eqb_decide (a b : string) : String.eqb a b = bool_decide (a = b).
Proof.
  destruct (String.eqb_spec a b).
  - by rewrite bool_decide_eq_true_2.
  - by rewrite bool_decide_eq_false_2.
Qed.

Lemma lookupField_setField_eq k v fs :
  lookupField k (setField k v fs) = Some v.
Proof.
  induction fs as [|[k' v'] fs IH]; simpl.
  - by rewrite String.eqb_refl.
  - destruct (String.eqb k k') eqn:E; simpl.
    + by rewrite String.eqb_refl.
    + by rewrite E.
Qed.

Lemma lookupField_setField_ne k k' v fs :
  k ≠ k' → lookupField k (setField k' v fs) = lookupField k fs.
Proof.
  intros Hne.
  induction fs as [|[k'' v''] fs IH]; simpl.
  - destruct (String.eqb_spec k k'); done.
  - destruct (String.eqb_spec k' k'') as [->|]; simpl.
    + destruct (String.eqb_spec k k''); done.
    + by rewrite IH.
Qed.


(** ** The merge *)

Lemma lookupField_None k fs : k ∉ fs.*1 → lookupField k fs = None.
Proof.
  induction fs as [|[k' v] fs IH]; simpl; [done|].
  intros Hk. apply not_elem_of_cons in Hk as [Hne Hk].
  destruct (String.eqb_spec k k'); [done|]. by apply IH.
Qed.

Lemma lookupField_Some_elem k v fs : lookupField k fs = Some v → (k, v) ∈ fs.
Proof.
  induction fs as [|[k' v'] fs IH]; simpl; [done|].
  destruct (String.eqb_spec k k') as [->|Hne].
  - intros [= ->]. left.
  - intros Hl. right. by apply IH.
Qed.

Lemma setField_fresh k v fs : k ∉ fs.*1 → setField k v fs = fs ++ [(k, v)].
Proof.
  induction fs as [|[k' v'] fs IH]; simpl; [done|].
  intros Hk. apply not_elem_of_cons in Hk as [Hne Hk].
  destruct (String.eqb_spec k k'); [done|]. by rewrite IH.
Qed.

Lemma setField_keys k v fs :
  (setField k v fs).*1 = if decide (k ∈ fs.*1) then fs.*1 else fs.*1 ++ [k].
Proof.
  induction fs as [|[k' v'] fs IH].
  { destruct (decide (k ∈ ([] : list (string * JsVal)).*1)) as [Hin|];
      [by apply elem_of_nil in Hin|done]. }
  cbn [setField]. rewrite fmap_cons. cbn [fst].
  destruct (String.eqb_spec k k') as [->|Hne].
  - destruct (decide (k' ∈ k' :: fs.*1)) as [|Hn]; [done|].
    destruct Hn. left.
  - rewrite fmap_cons, IH. cbn [fst].
    destruct (decide (k ∈ fs.*1)) as [Hin|Hin];
      destruct (decide (k ∈ k' :: fs.*1)) as [Hin'|Hin']; try done.
    + destruct Hin'. by right.
    + apply elem_of_cons in Hin' as [?|?]; done.
Qed.

Lemma setField_NoDup k v fs : NoDup fs.*1 → NoDup (setField k v fs).*1.
Proof.
  intros Hnd. rewrite setField_keys. case_decide as Hin; [done|].
  apply NoDup_app. split_and!; [done| |apply NoDup_singleton].
  intros x Hx ->%list_elem_of_singleton. done.
Qed.

Lemma setField_Forall (P : string * JsVal → Prop) k v fs :
  P (k, v) → Forall P fs → Forall P (setField k v fs).
Proof.
  intros Hkv. induction 1 as [|[k' v'] fs Hx Hfs IH]; simpl.
  { by constructor. }
  destruct (String.eqb k k'); constructor; done.
Qed.

(** Writing the properties of a list one after the other. *)
Lemma lookupField_foldl_setField k (partial dest : list (string * JsVal)) :
  NoDup partial.*1 →
  lookupField k (foldl (λ d kv, setField kv.1 kv.2 d) dest partial) =
  match lookupField k partial with
  | Some v => Some v
  | None => lookupField k dest
  end.
Proof.
  revert dest. induction partial as [|[k0 v0] partial IH]; intros dest Hnd.
  { done. }
  rewrite fmap_cons in Hnd. apply NoDup_cons in Hnd as [Hk0 Hnd].
  simpl. rewrite IH by done.
  destruct (String.eqb_spec k k0) as [->|Hne].
  - by rewrite (lookupField_None k0 partial), lookupField_setField_eq.
  - destruct (lookupField k partial); [done|].
    by rewrite lookupField_setField_ne.
Qed.

Lemma foldl_setField_flat (partial dest : list (string * JsVal)) :
  NoDup dest.*1 → Forall (λ kv, leafValue kv.2) dest →
  Forall (λ kv, leafValue kv.2) partial →
  flatFields (foldl (λ d kv, setField kv.1 kv.2 d) dest partial).
Proof.
  revert dest. induction partial as [|[k0 v0] partial IH];
    intros dest Hnd Hdest Hpartial.
  { done. }
  apply Forall_cons in Hpartial as [Hv0 Hpartial].
  simpl. apply IH; [by apply setField_NoDup| |done].
  by apply setField_Forall.
Qed.

Lemma foldl_setField_nodup (fs dest : list (string * JsVal)) :
  NoDup (dest ++ fs).*1 →
  foldl (λ d kv, setField kv.1 kv.2 d) dest fs = dest ++ fs.
Proof.
  revert dest. induction fs as [|[k v] fs IH]; intros dest Hnd; simpl.
  { by rewrite app_nil_r. }
  rewrite setField_fresh.
  - rewrite IH; rewrite <- app_assoc; done.
  - rewrite fmap_app, fmap_cons in Hnd.
    apply NoDup_app in Hnd as (_ & Hdisj & _).
    intros Hin. apply (Hdisj k Hin). left.
Qed.

Lemma foldl_ext_in {A B} (f g : A → B → A) (l : list B) (a : A) :
  (∀ d x, x ∈ l → f d x = g d x) → foldl f a l = foldl g a l.
Proof.
  revert a. induction l as [|x l IH]; intros a Hfg; [done|].
  cbn [foldl]. rewrite Hfg by left. apply IH.
  intros d y Hy. apply Hfg. by right.
Qed.

(** *** What the merge leaves out *)

Ltac solve_key := apply (bool_decide_unpack _); vm_compute; exact I.

Lemma propertyIsUnsafe_VObj fs k :
  propertyIsUnsafe (VObj fs) k =
  bool_decide (k ∈ objectPrototypeKeys) &&
  negb (bool_decide (is_Some (lookupField k fs))).
Proof.
  unfold propertyIsUnsafe, hasProp, ownEnumerable.
  by destruct (bool_decide (is_Some _)), (bool_decide (k ∈ _)).
Qed.

Lemma propertyIsUnsafe_own fs k :
  k ∉ objectPrototypeKeys → propertyIsUnsafe (VObj fs) k = false.
Proof.
  intros Hk. rewrite propertyIsUnsafe_VObj.
  by rewrite (bool_decide_eq_false_2 _ Hk).
Qed.

(** A name that nothing inherits is safe on every target. *)
Lemma propertyIsUnsafe_data target k :
  k ∉ inheritedNames → propertyIsUnsafe target k = false.
Proof.
  unfold inheritedNames. rewrite !not_elem_of_app. intros (He & Hd & Ho).
  destruct target; try done.
  - unfold propertyIsUnsafe, hasProp.
    rewrite bool_decide_eq_false_2; [done|].
    rewrite not_elem_of_app. done.
  - by apply propertyIsUnsafe_own.
  - unfold propertyIsUnsafe, hasProp.
    rewrite bool_decide_eq_false_2; [done|].
    rewrite not_elem_of_app. done.
Qed.

Lemma inheritedNames_own k : k ∉ inheritedNames → k ∉ objectPrototypeKeys.
Proof. unfold inheritedNames. rewrite !not_elem_of_app. tauto. Qed.

(** *** The loops as folds *)

Lemma clone_VObj fs :
  clone (VObj fs) =
  VObj (foldl (λ d kv,
                 if propertyIsUnsafe (VObj []) kv.1 then d
                 else setField kv.1 (clone kv.2) d) [] fs).
Proof.
  cbn [clone]. f_equal.
  enough (∀ dest,
    (fix go (l dest : list (string * JsVal)) :=
       match l with
       | [] => dest
       | (k, x) :: r =>
           if propertyIsUnsafe (VObj []) k then go r dest
           else go r (setField k (clone x) dest)
       end) fs dest =
    foldl (λ d kv,
             if propertyIsUnsafe (VObj []) kv.1 then d
             else setField kv.1 (clone kv.2) d) dest fs) as Hgo by apply Hgo.
  induction fs as [|[k x] fs IH]; intros dest; [done|].
  cbn [foldl fst snd]. destruct (propertyIsUnsafe (VObj []) k); apply IH.
Qed.

Lemma deepmerge_VObj target sfs :
  notArray target →
  deepmerge target (VObj sfs) =
  VObj (foldl (λ d kv,
                 if propertyIsUnsafe target kv.1 then d
                 else if hasProp kv.1 target && isMergeableObject kv.2
                 then setField kv.1 (deepmerge (getProp kv.1 target) kv.2) d
                 else setField kv.1 (clone kv.2) d)
              (cloneOwn target) sfs).
Proof.
  intros Htarget.
  assert (deepmerge target (VObj sfs) =
          VObj ((fix go (l dest : list (string * JsVal)) :=
                   match l with
                   | [] => dest
                   | (k, sv) :: r =>
                       if propertyIsUnsafe target k then go r dest
                       else if hasProp k target && isMergeableObject sv
                       then go r (setField k
                                    (deepmerge (getProp k target) sv) dest)
                       else go r (setField k (clone sv) dest)
                   end) sfs (cloneOwn target))) as ->.
  { by destruct target. }
  f_equal. generalize (cloneOwn target).
  induction sfs as [|[k x] sfs IH]; intros dest; [done|].
  cbn [foldl fst snd].
  destruct (propertyIsUnsafe target k); [apply IH|].
  destruct (hasProp k target && isMergeableObject x); apply IH.
Qed.

Lemma deepMergeSpec_VObj rfs pfs :
  deepMergeSpec (VObj rfs) (VObj pfs) =
  VObj (foldl (λ d kv,
                 setField kv.1
                   match lookupField kv.1 rfs with
                   | Some rv => deepMergeSpec rv kv.2
                   | None => kv.2
                   end d) rfs pfs).
Proof.
  cbn [deepMergeSpec]. f_equal.
  enough (∀ dest,
    (fix over (l merged : list (string * JsVal)) :=
       match l with
       | [] => merged
       | (k, pv) :: rest =>
           over rest
                (setField k
                   match lookupField k rfs with
                   | Some rv => deepMergeSpec rv pv
                   | None => pv
                   end merged)
       end) pfs dest =
    foldl (λ d kv,
             setField kv.1
               match lookupField kv.1 rfs with
               | Some rv => deepMergeSpec rv kv.2
               | None => kv.2
               end d) dest pfs) as Hover by apply Hover.
  induction pfs as [|[k x] pfs IH]; intros dest; [done|]. apply IH.
Qed.

(** *** Leaves and flat records *)

Lemma clone_leaf v : leafValue v → clone v = v.
Proof. intros [Hv|[items ->]]; [by destruct v|done]. Qed.

Lemma deepmerge_leaf target v : leafValue v → isMergeableObject v = true →
  deepmerge target v = v.
Proof.
  intros [Hv|[items ->]] Hm; [congruence|]. by destruct target.
Qed.

Lemma cloneOwn_flat fs : flatFields fs → cloneOwn (VObj fs) = fs.
Proof.
  intros [Hnd Hleaf]. cbn [cloneOwn].
  rewrite (foldl_ext_in _ (λ d kv, setField kv.1 kv.2 d)).
  - by apply foldl_setField_nodup.
  - intros d [k v] Hin. cbn [fst snd]. rewrite clone_leaf; [done|].
    rewrite Forall_forall in Hleaf. apply (Hleaf (k, v) Hin).
Qed.

(** A partial state with one property whose value is a primitive or an
    array puts that value under the property, whatever the target is, when
    the name of the property is inherited by nothing. *)
Lemma getProp_deepmerge_single target k v :
  k ∉ inheritedNames →
  (isMergeableObject v = false ∨ ∃ l, v = VArr l) →
  getProp k (deepmerge target (VObj [(k, v)])) = v.
Proof.
  intros Hk Hv.
  pose proof (clone_leaf v Hv) as Hclone.
  assert (notArray target ∨ ∃ l, target = VArr l) as [Htarget|[l ->]].
  { destruct target; (by left) || (right; by eexists). }
  - rewrite deepmerge_VObj by done. cbn [foldl fst snd].
    rewrite propertyIsUnsafe_data by done.
    cbn [getProp].
    destruct (hasProp k target && isMergeableObject v) eqn:Hm.
    + rewrite lookupField_setField_eq.
      apply andb_true_iff in Hm as [_ Hm]. by apply deepmerge_leaf.
    + by rewrite lookupField_setField_eq, Hclone.
  - cbn [deepmerge]. rewrite clone_VObj. cbn [foldl fst snd].
    rewrite propertyIsUnsafe_own by (by apply inheritedNames_own).
    cbn [getProp setField lookupField].
    by rewrite String.eqb_refl, Hclone.
Qed.

(** On flat records the merge is an override, property by property, but
    for the properties of the partial state that are unsafe on the record,
    which are left out; its result is flat. *)
Lemma deepmerge_flat tfs sfs :
  flatFields tfs → flatFields sfs →
  ∃ merged,
    deepmerge (VObj tfs) (VObj sfs) = VObj merged ∧
    flatFields merged ∧
    ∀ k, lookupField k merged =
         match lookupField k sfs with
         | Some v =>
             if propertyIsUnsafe (VObj tfs) k then lookupField k tfs
             else Some v
         | None => lookupField k tfs
         end.
Proof.
  intros Ht [Hnd Hleaf].
  rewrite deepmerge_VObj by done. rewrite (cloneOwn_flat tfs Ht).
  rewrite (foldl_ext_in _
             (λ d kv, if propertyIsUnsafe (VObj tfs) kv.1 then d
                      else setField kv.1 kv.2 d)).
  2:{ intros d [k v] Hin. cbn [fst snd].
      rewrite Forall_forall in Hleaf. pose proof (Hleaf (k, v) Hin) as Hv.
      destruct (propertyIsUnsafe (VObj tfs) k); [done|].
      destruct (hasProp k (VObj tfs) && isMergeableObject v) eqn:Hm.
      - apply andb_true_iff in Hm as [_ Hm]. by rewrite deepmerge_leaf.
      - by rewrite clone_leaf. }
  set (step := λ (d : list (string * JsVal)) (kv : string * JsVal),
                 if propertyIsUnsafe (VObj tfs) kv.1 then d
                 else setField kv.1 kv.2 d).
  assert (∀ dest, NoDup dest.*1 → Forall (λ kv, leafValue kv.2) dest →
                  flatFields (foldl step dest sfs)) as Hflat.
  { clear Hnd. induction Hleaf as [|[k v] fs' Hv Hfs IH];
      intros dest Hdnd Hdleaf; [by split|].
    cbn [foldl]. unfold step at 2. cbn [fst snd].
    destruct (propertyIsUnsafe (VObj tfs) k); [by apply IH|].
    apply IH; [by apply setField_NoDup|by apply setField_Forall]. }
  assert (∀ dest k,
    lookupField k (foldl step dest sfs) =
    match lookupField k sfs with
    | Some v =>
        if propertyIsUnsafe (VObj tfs) k then lookupField k dest else Some v
    | None => lookupField k dest
    end) as Hlook.
  { clear Hleaf Hflat.
    induction sfs as [|[k0 v0] sfs IH]; intros dest k; [done|].
    rewrite fmap_cons in Hnd. apply NoDup_cons in Hnd as [Hk0 Hnd].
    cbn [foldl lookupField]. unfold step at 2. cbn [fst snd].
    rewrite IH by done.
    destruct (String.eqb_spec k k0) as [->|Hne].
    - rewrite (lookupField_None k0 sfs) by done.
      destruct (propertyIsUnsafe (VObj tfs) k0); [done|].
      by rewrite lookupField_setField_eq.
    - destruct (propertyIsUnsafe (VObj tfs) k0); [done|].
      by rewrite lookupField_setField_ne. }
  exists (foldl step tfs sfs). split; [done|]. destruct Ht as [Htnd Htleaf].
  split; [by apply Hflat|]. intros k. apply Hlook.
Qed.

(** *** Plain data: the merge is the deep-merge of the claim *)

Lemma JsVal_fields_ind (P : JsVal → Prop) :
  (∀ v, (∀ fs, v = VObj fs → Forall (λ kv, P kv.2) fs) → P v) →
  ∀ v, P v.
Proof.
  intros Hstep. fix IH 1. intros v. apply Hstep.
  destruct v as [| | | | | | |fields|]; try discriminate.
  intros fs [= <-].
  induction fields as [|[k x] r IHr]; constructor; [apply IH|apply IHr].
Qed.

Lemma plainData_VObj fs :
  plainData (VObj fs) ↔
  NoDup fs.*1 ∧
  Forall (λ kv, (kv.1 ∉ objectPrototypeKeys) ∧ plainData kv.2) fs.
Proof.
  cbn [plainData]. apply and_iff_compat_l.
  induction fs as [|[k x] fs IH].
  { split; [constructor|done]. }
  rewrite Forall_cons. cbn [fst snd]. rewrite <- IH. tauto.
Qed.

Lemma plainData_lookup fs k v :
  plainData (VObj fs) → lookupField k fs = Some v → plainData v.
Proof.
  intros [_ Hall]%plainData_VObj Hv%lookupField_Some_elem.
  rewrite Forall_forall in Hall. by destruct (Hall _ Hv).
Qed.

Lemma clone_plain v : plainData v → clone v = v.
Proof.
  induction v as [v IH] using JsVal_fields_ind. intros Hv.
  destruct v as [| | | | | | |fs|]; try done.
  specialize (IH fs eq_refl).
  apply plainData_VObj in Hv as [Hnd Hall].
  rewrite clone_VObj. f_equal.
  rewrite (foldl_ext_in _ (λ d kv, setField kv.1 kv.2 d)).
  - by apply foldl_setField_nodup.
  - intros d [k x] Hin. cbn [fst snd].
    rewrite Forall_forall in Hall, IH.
    destruct (Hall _ Hin) as [Hk Hx]. cbn [fst snd] in Hk, Hx.
    rewrite propertyIsUnsafe_own by done.
    pose proof (IH _ Hin Hx) as Hclone. cbn [snd] in Hclone.
    by rewrite Hclone.
Qed.

Lemma cloneOwn_plain fs : plainData (VObj fs) → cloneOwn (VObj fs) = fs.
Proof.
  intros [Hnd Hall]%plainData_VObj. cbn [cloneOwn].
  rewrite (foldl_ext_in _ (λ d kv, setField kv.1 kv.2 d)).
  - by apply foldl_setField_nodup.
  - intros d [k x] Hin. cbn [fst snd].
    rewrite Forall_forall in Hall. destruct (Hall _ Hin) as [_ Hx].
    by rewrite clone_plain.
Qed.

Lemma deepMergeSpec_leaf record partial :
  (∀ fs, partial ≠ VObj fs) → deepMergeSpec record partial = partial.
Proof. intros Hp. destruct partial; try done. by destruct (Hp fields). Qed.

(** On plain data the library's merge is the deep-merge of the claim. *)
Lemma deepmerge_plain partial : ∀ record,
  plainData record → plainData partial →
  deepmerge record partial = deepMergeSpec record partial.
Proof.
  induction partial as [partial IH] using JsVal_fields_ind.
  intros record Hrecord Hpartial.
  destruct partial as [| | | | | |items|sfs|]; try done.
  { by destruct record. }
  specialize (IH sfs eq_refl).
  pose proof Hpartial as [Hnd Hall]%plainData_VObj.
  rewrite Forall_forall in Hall, IH.
  destruct record as [| | | | | |ritems|rfs|]; try done.
  6:{ (* an array: the source is cloned *)
      cbn [deepmerge deepMergeSpec]. by apply clone_plain. }
  6:{ (* an object *)
      rewrite deepmerge_VObj by done. rewrite deepMergeSpec_VObj.
      rewrite cloneOwn_plain by done. f_equal.
      apply foldl_ext_in. intros d [k sv] Hin. cbn [fst snd].
      destruct (Hall _ Hin) as [Hk Hsv]. cbn [fst snd] in Hk, Hsv.
      rewrite propertyIsUnsafe_own by done.
      unfold hasProp, ownEnumerable.
      rewrite (bool_decide_eq_false_2 _ Hk), orb_false_r.
      destruct (lookupField k rfs) as [rv|] eqn:Hrv.
      - rewrite bool_decide_eq_true_2 by done. cbn [andb getProp].
        rewrite Hrv. change (default VUndefined (Some rv)) with rv.
        pose proof (plainData_lookup rfs k rv Hrecord Hrv) as Hplain.
        destruct (isMergeableObject sv) eqn:Hm.
        + pose proof (IH _ Hin rv Hplain Hsv) as Hmerge.
          cbn [snd] in Hmerge. by rewrite Hmerge.
        + rewrite clone_plain by done.
          rewrite deepMergeSpec_leaf; [done|]. intros fs ->. done.
      - rewrite bool_decide_eq_false_2 by (by intros [? ?]).
        cbn [andb]. by rewrite clone_plain. }
  (* a primitive record: the source is rebuilt on an empty object *)
  all: rewrite deepmerge_VObj by done; cbn [deepMergeSpec cloneOwn]; f_equal.
  all: rewrite (foldl_ext_in _ (λ d kv, setField kv.1 kv.2 d));
    [by apply foldl_setField_nodup|].
  all: intros d [k sv] Hin; cbn [fst snd];
    destruct (Hall _ Hin) as [Hk Hsv]; cbn [fst snd] in Hk, Hsv;
    unfold propertyIsUnsafe, hasProp; cbn [andb];
    by rewrite clone_plain.
Qed.


(** ** The account store *)

Section ControllerFacts.

Context `{U : !Utils, E : !Enums, P : !Platform, R : !Remote}.

Lemma addressOrSelected_idem address w :
  addressOrSelected (addressOrSelected address w) w =
  addressOrSelected address w.
Proof.
  unfold addressOrSelected.
  destruct (decide (address = "")) as [->|Hne].
  - by destruct (decide (toKey (selectedAddress w) = "")) as [->|].
  - by rewrite decide_False.
Qed.

Lemma state_resolved address w :
  state (addressOrSelected address w) w = state address w.
Proof. unfold state. by rewrite addressOrSelected_idem. Qed.

Lemma cloneDeep_default :
  cloneDeep DEFAULT_ACCOUNT_STATE = DEFAULT_ACCOUNT_STATE.
Proof. done. Qed.

Lemma updateStore_eq newPartialState address w :
  updateStore newPartialState address w =
  (Returned (deepmerge (orElse (state address w)
                               (cloneDeep DEFAULT_ACCOUNT_STATE))
                       (VObj newPartialState)),
   setStore (<[addressOrSelected address w :=
               deepmerge (orElse (state address w)
                                 (cloneDeep DEFAULT_ACCOUNT_STATE))
                         (VObj newPartialState)]> (store w)) w).
Proof. unfold updateStore. by rewrite state_resolved. Qed.

Lemma default_plain : plainData DEFAULT_ACCOUNT_STATE.
Proof.
  apply plainData_VObj. split; [solve_key|].
  repeat (apply Forall_cons; split; [split; [solve_key|exact I]|]).
  apply Forall_nil_2.
Qed.

(** C3.  For an address, which names no member of [Object.prototype], and
    a partial state of plain data, [updateStore] puts under the key of the
    address (the selected address when none is passed) the deep-merge of
    the record found there, or of the default account state when there is
    none, with the partial state, and returns that merged record.  The
    deep-merge is the one of the claim's words, [deepMergeSpec]: the
    properties of the partial state override or extend the record,
    objects under one name are merged in the same way, and an array
    replaces an array. *)
Theorem updateStore_deepmerge newPartialState address w :
  let key := addressOrSelected address w in
  let existing :=
    match store w !! key with
    | Some record => if truthy record then record else DEFAULT_ACCOUNT_STATE
    | None => DEFAULT_ACCOUNT_STATE
    end in
  let mergedState := deepMergeSpec existing (VObj newPartialState) in
  key ∉ objectPrototypeKeys →
  (∀ record, store w !! key = Some record → plainData record) →
  plainData (VObj newPartialState) →
  updateStore newPartialState address w =
    (Returned mergedState, setStore (<[key := mergedState]> (store w)) w) ∧
  store (updateStore newPartialState address w).2 !! key = Some mergedState.
Proof.
  intros key existing mergedState _ Hrecord Hpartial.
  assert (orElse (state address w) (cloneDeep DEFAULT_ACCOUNT_STATE)
          = existing ∧ plainData existing) as [Hexisting Hplain].
  { unfold existing, state, orElse. fold key. rewrite cloneDeep_default.
    destruct (store w !! key) as [record|] eqn:Hkey.
    - change (default VUndefined (Some record)) with record.
      destruct (truthy record); [|split; [done|apply default_plain]].
      split; [done|]. by apply Hrecord.
    - change (default VUndefined None) with VUndefined. cbn [truthy].
      split; [done|apply default_plain]. }
  assert (updateStore newPartialState address w =
    (Returned mergedState, setStore (<[key := mergedState]> (store w)) w))
    as Heq.
  { rewrite updateStore_eq, Hexisting. fold key.
    by rewrite deepmerge_plain. }
  split; [done|]. rewrite Heq. cbn [snd store setStore].
  apply lookup_insert_eq.
Qed.

(** C8.  [updateStore] changes the entry of the address it resolves and
    nothing else: every other key of the store keeps its value, in
    particular [selectedAddress], and the other stores are untouched. *)
Theorem updateStore_frame newPartialState address w :
  let w' := (updateStore newPartialState address w).2 in
  (∀ other, other ≠ addressOrSelected address w →
            store w' !! other = store w !! other) ∧
  (addressOrSelected address w ≠ "selectedAddress" →
   selectedAddress w' = selectedAddress w) ∧
  w' = setStore (store w') w.
Proof.
  intros w'.
  assert (∀ other, other ≠ addressOrSelected address w →
                   store w' !! other = store w !! other) as Hframe.
  { intros other Hne. unfold w', updateStore. simpl.
    by rewrite lookup_insert_ne. }
  split_and!; [done| |done].
  intros Hne. unfold selectedAddress. by rewrite Hframe.
Qed.

(** ** Messages *)

Lemma setTimeout_eq cb ms w :
  setTimeout cb ms w =
  (Returned tt, setTimers (timers w ++ [mkTimer (nextTimer w) false ms cb])
                          (S (nextTimer w)) w).
Proof. done. Qed.

Lemma handleError_eq error w :
  handleError error w =
  (Returned tt,
   setTimers (timers w ++ [mkTimer (nextTimer w) false ERROR_TIME ClearError])
     (S (nextTimer w))
     (setErrorStore
        match error with
        | VError m =>
            VStr ("Oops, That didn't work. Pls reload and try again. "
                  +:+ LF +:+ m)
        | VStr s => VStr s
        | VDate _ | VArr _ | VObj _ =>
            VStr (if decide (prettyPrintData error = "")
                  then "Something went wrong. Pls try again"
                  else "Error: " +:+ prettyPrintData error)
        | _ => if truthy error then error else VStr ""
        end w)).
Proof.
  unfold handleError.
  destruct error as [| |[]|n|s|ms|items|fields|m].
  all: rewrite ?bind_eq; simpl; rewrite ?String_eqb_decide; try done.
  all: repeat case_bool_decide; try done; simpl.
  all: try (by unfold orElse; simpl; destruct (n =? 0)%Z).
  all: try (by subst).
  all: rewrite ?String_eqb_decide; repeat case_bool_decide; try done.
  all: try case_decide; try done.
Qed.

Lemma handleSuccess_eq message w :
  handleSuccess message w =
  (Returned tt,
   setTimers
     (timers w ++ [mkTimer (nextTimer w) false SUCCESS_TIME ClearSuccess])
     (S (nextTimer w))
     (setSuccessStore
        match message with
        | VStr s => VStr s
        | VDate _ | VArr _ | VObj _ | VError _ =>
            VStr (if decide (prettyPrintData message = "")
                  then "Success"
                  else "Success: " +:+ prettyPrintData message)
        | _ => if truthy message then message else VStr ""
        end w)).
Proof.
  unfold handleSuccess.
  destruct message as [| |[]|n|s|ms|items|fields|m].
  all: rewrite ?bind_eq; simpl; rewrite ?String_eqb_decide; try done.
  all: repeat case_bool_decide; try done; simpl.
  all: try (by unfold orElse; simpl; destruct (n =? 0)%Z).
  all: try (by subst).
  all: rewrite ?String_eqb_decide; repeat case_bool_decide; try done.
  all: try case_decide; try done.
Qed.

(** C6, as the code has it.  [handleError] stores: for an Error-like
    object, the fixed sentence, a line feed (the character of code 10)
    and the error's message; a non-empty string as it is; any other
    object pretty-printed after ["Error: "], or a fixed sentence when the
    pretty-printing is empty; any other value as it is when it is truthy,
    and the empty string when it is falsy.  It then sets a timer of
    [ERROR_TIME] whose callback puts the empty string in the error store.
    [handleSuccess] does the same on the success store with
    [SUCCESS_TIME], without the Error-like case. *)
Theorem handleError_stores error message w :
  let w1 := (handleError error w).2 in
  let w2 := (handleSuccess message w).2 in
  (handleError error w).1 = Returned tt ∧
  errorStore w1 =
    match error with
    | VError m =>
        VStr ("Oops, That didn't work. Pls reload and try again. "
              +:+ String (Ascii.ascii_of_nat 10) m)
    | VStr s => VStr s
    | VDate _ | VArr _ | VObj _ =>
        VStr (if decide (prettyPrintData error = "")
              then "Something went wrong. Pls try again"
              else "Error: " +:+ prettyPrintData error)
    | _ => if truthy error then error else VStr ""
    end ∧
  timers w1 = timers w ++ [mkTimer (nextTimer w) false ERROR_TIME ClearError] ∧
  (∀ id w', errorStore (runCallback id ClearError w').2 = VStr "") ∧
  (handleSuccess message w).1 = Returned tt ∧
  successStore w2 =
    match message with
    | VStr s => VStr s
    | VDate _ | VArr _ | VObj _ | VError _ =>
        VStr (if decide (prettyPrintData message = "")
              then "Success"
              else "Success: " +:+ prettyPrintData message)
    | _ => if truthy message then message else VStr ""
    end ∧
  timers w2 =
    timers w ++ [mkTimer (nextTimer w) false SUCCESS_TIME ClearSuccess] ∧
  (∀ id w', successStore (runCallback id ClearSuccess w').2 = VStr "").
Proof.
  intros w1 w2. unfold w1, w2.
  rewrite handleError_eq, handleSuccess_eq. by split_and!.
Qed.

(** ** The theme *)

Lemma strictEq_VStr s v : strictEq (VStr s) v = true ↔ v = VStr s.
Proof.
  destruct v; simpl; try (split; [done|congruence]).
  rewrite String_eqb_decide, bool_decide_eq_true. split; congruence.
Qed.

(** C4.  With the stored theme as payload, [setUserTheme] returns at
    once: no request, no change.  Otherwise it sends the PATCH; when that
    resolves, the record of the selected address has the payload as its
    theme and the success store holds the success message; when it is
    rejected, the account store is as before and the error store holds the
    failure message. *)
Theorem setUserTheme_cases payload w :
  let selected := addressOrSelected "" w in
  let call := mkApiCall PATCH (config_api +:+ "/user/theme")
                        (VObj [("theme", VStr payload)])
                        (Some (headers "" w)) in
  let w' := (setUserTheme payload w).2 in
  (getProp "theme" (state "" w) = VStr payload →
   setUserTheme payload w = (Returned tt, w)) ∧
  (getProp "theme" (state "" w) ≠ VStr payload →
   (setUserTheme payload w).1 = Returned tt ∧
   match apiRequest call with
   | Resolved _ =>
       getProp "theme" (default VUndefined (store w' !! selected))
         = VStr payload ∧
       successStore w' = VStr "navBar.snackSuccessTheme" ∧
       errorStore w' = errorStore w ∧
       trace w' = trace w ++ [EApi call]
   | Rejected error =>
       store w' = store w ∧
       errorStore w' = VStr "navBar.snackFailTheme" ∧
       successStore w' = successStore w ∧
       trace w' = trace w ++ [EApi call; ELog LError [error]]
   end).
Proof.
  intros selected call w'. split.
  - intros Htheme. unfold setUserTheme. rewrite bind_gets, Htheme.
    simpl. by rewrite String.eqb_refl.
  - intros Htheme.
    assert (strictEq (VStr payload) (getProp "theme" (state "" w)) = false)
      as Hneq.
    { apply not_true_is_false. by rewrite strictEq_VStr. }
    unfold w', setUserTheme. rewrite bind_gets, Hneq.
    unfold tryCatch, apiCall, await. rewrite bind_gets, bind_assoc, bind_emit.
    fold call.
    destruct (apiRequest call) as [response|error].
    all: rewrite ?bind_ret, ?bind_throw, ?handleSuccess_eq, ?handleError_eq.
    all: rewrite ?bind_assoc, ?bind_eq, ?handleSuccess_eq, ?handleError_eq.
    all: cbn [fst snd].
    + rewrite bind_eq, updateStore_eq. wsimpl. split; [done|].
      split_and!; [|done..].
      change (addressOrSelected "" _) with selected.
      rewrite lookup_insert_eq. cbn [default].
      apply getProp_deepmerge_single; [solve_key|by left].
    + unfold log, emit. rewrite handleError_eq. wsimpl.
      split_and!; try done. by rewrite <- app_assoc.
Qed.

(** ** NFTs *)

(** C10.  When the record that [state(userAddress)] finds is absent or has
    a falsy [jwtToken], [getNfts] returns [{data: []}] and does nothing;
    when the token is truthy it sends the one NFTs request and returns its
    answer (or throws its rejection). *)
Theorem getNfts_guard userAddress network w :
  let call := mkApiCall GET
                (config_api +:+ "/nfts?userAddress=" +:+ userAddress
                 +:+ "&network=" +:+ network)
                VUndefined (Some (headers "" w)) in
  (store w !! addressOrSelected userAddress w = None →
   getNfts userAddress network w = (Returned (VObj [("data", VArr [])]), w)) ∧
  (truthy (getProp "jwtToken" (state userAddress w)) = false →
   getNfts userAddress network w = (Returned (VObj [("data", VArr [])]), w)) ∧
  (truthy (getProp "jwtToken" (state userAddress w)) = true →
   getNfts userAddress network w =
   (match apiRequest call with
    | Resolved res => Returned res
    | Rejected error => Thrown error
    end, setTrace (trace w ++ [EApi call]) w)).
Proof.
  intros call.
  assert (truthy (getProp "jwtToken" (state userAddress w)) = false →
          getNfts userAddress network w =
          (Returned (VObj [("data", VArr [])]), w)) as Hfalsy.
  { intros Hjwt. unfold getNfts. by rewrite bind_gets, Hjwt. }
  split_and!; [|done|].
  - intros Hnone. apply Hfalsy. unfold state. by rewrite Hnone.
  - intros Hjwt. unfold getNfts. rewrite bind_gets, Hjwt. cbn [negb].
    unfold apiCall, await. rewrite bind_gets, bind_emit. fold call.
    by destruct (apiRequest call).
Qed.

(** ** [init] *)

(** C9.  When [state(address)] finds a record, [init] returns its
    [defaultPublicAddress], or the address when that is empty, and the
    world is as it was: no request, no store changed. *)
Theorem init_existing o fields w :
  state (init_address o) w = VObj fields →
  init o w =
  (Returned (let defaultPublicAddress :=
               getProp "defaultPublicAddress" (VObj fields) in
             if truthy defaultPublicAddress then defaultPublicAddress
             else VStr (init_address o)), w).
Proof.
  intros Hstate. unfold init. by rewrite bind_gets, Hstate.
Qed.

End ControllerFacts.


(** ** Computations that only add to the trace *)

Lemma setTrace_id w : setTrace (trace w) w = w.
Proof. by destruct w. Qed.

Lemma runs_ret {A} (a : A) w : runs (mret a) w (Returned a) [].
Proof. unfold runs. by rewrite app_nil_r, setTrace_id. Qed.

Lemma runs_gets {A} (f : World → A) w : runs (gets f) w (Returned (f w)) [].
Proof. unfold runs. by rewrite app_nil_r, setTrace_id. Qed.

Lemma runs_throw {A} e w : runs (throw (A := A) e) w (Thrown e) [].
Proof. unfold runs. by rewrite app_nil_r, setTrace_id. Qed.

Lemma runs_emit ev w : runs (emit ev) w (Returned tt) [ev].
Proof. done. Qed.

Lemma runs_bind {A B} (m : M A) (k : A → M B) w a e1 r e2 :
  runs m w (Returned a) e1 →
  runs (k a) (setTrace (trace w ++ e1) w) r e2 →
  runs (m ≫= k) w r (e1 ++ e2).
Proof.
  unfold runs. intros Hm Hk. rewrite bind_eq, Hm, Hk. simpl.
  by rewrite app_assoc.
Qed.

Lemma runs_bind_thrown {A B} (m : M A) (k : A → M B) w e e1 :
  runs m w (Thrown e) e1 → runs (m ≫= k) w (Thrown e) e1.
Proof. unfold runs. intros Hm. by rewrite bind_eq, Hm. Qed.

Lemma runs_tryCatch_returned {A} (m : M A) h w a e1 :
  runs m w (Returned a) e1 → runs (tryCatch m h) w (Returned a) e1.
Proof. unfold runs, tryCatch. by intros ->. Qed.

Lemma runs_tryCatch_thrown {A} (m : M A) h w e e1 r e2 :
  runs m w (Thrown e) e1 →
  runs (h e) (setTrace (trace w ++ e1) w) r e2 →
  runs (tryCatch m h) w r (e1 ++ e2).
Proof.
  unfold runs, tryCatch. intros -> ->. simpl. by rewrite app_assoc.
Qed.

Section PastTxFacts.

Context `{U : !Utils, E : !Enums, P : !Platform, R : !Remote}.

Lemma runs_apiCall call w :
  runs (apiCall call) w
       match apiRequest call with
       | Resolved v => Returned v
       | Rejected e => Thrown e
       end [EApi call].
Proof.
  unfold runs, apiCall, await. rewrite bind_emit.
  by destruct (apiRequest call).
Qed.

(** [patchPastTx] catches what its request throws. *)
Lemma runs_patchPastTx body address w :
  ∃ evs, runs (patchPastTx body address) w (Returned tt) evs.
Proof.
  unfold patchPastTx.
  set (call := mkApiCall PATCH (config_api +:+ "/transaction") body
                         (Some (headers address w))).
  pose proof (runs_apiCall call w) as Hcall.
  destruct (apiRequest call) as [response|error].
  - eexists. apply runs_tryCatch_returned.
    eapply runs_bind; [apply runs_gets|].
    rewrite app_nil_r, setTrace_id.
    eapply runs_bind; [apply Hcall|]. apply runs_emit.
  - eexists. eapply runs_tryCatch_thrown; [|apply runs_emit].
    eapply runs_bind; [apply runs_gets|].
    rewrite app_nil_r, setTrace_id.
    apply runs_bind_thrown, Hcall.
Qed.

Lemma runs_detach m w r evs :
  runs m w r evs →
  ∃ evs', runs (detach m) w (Returned tt) evs'.
Proof.
  intros Hm. unfold detach. destruct r as [[]|e].
  - eexists. by apply runs_tryCatch_returned.
  - eexists. eapply runs_tryCatch_thrown; [done|apply runs_emit].
Qed.

Lemma runs_forEach_start pending w :
  ∃ evs, runs (forEach startTxStatus pending) w (Returned tt) evs.
Proof.
  revert w. induction pending as [|x pending IH]; intros w.
  - eexists. apply runs_ret.
  - destruct (IH (setTrace (trace w ++ [EEthTxStatus (raw_transaction_hash x)]) w))
      as [evs Hevs].
    eexists. simpl. eapply runs_bind; [apply runs_emit|apply Hevs].
Qed.

Lemma runs_resolveTxStatus x w :
  ∃ evs, runs (resolveTxStatus x) w (Returned (lookedUpStatus x)) evs.
Proof.
  unfold resolveTxStatus, lookedUpStatus.
  destruct (getEthTxStatus (raw_transaction_hash x)) as [[st|]|error].
  - eexists. apply runs_ret.
  - eexists. apply runs_ret.
  - eexists. eapply runs_bind; [apply runs_emit|apply runs_ret].
Qed.

Lemma runs_mapM_resolve pending w :
  ∃ evs, runs (mapM resolveTxStatus pending) w
              (Returned (lookedUpStatus <$> pending)) evs.
Proof.
  revert w. induction pending as [|x pending IH]; intros w.
  - eexists. apply runs_ret.
  - destruct (runs_resolveTxStatus x w) as [e1 Hrun1].
    destruct (IH (setTrace (trace w ++ e1) w)) as [e2 Hrun2].
    eexists. simpl. eapply runs_bind; [apply Hrun1|].
    eapply runs_bind; [apply Hrun2|]. apply runs_ret.
Qed.

Lemma runs_pushResolved lower address pending pastTx w :
  ∃ evs, runs (pushResolved lower address pending pastTx) w
              (Returned (pastTx ++
                         ((λ p : RawTx * JsVal,
                             setStatus p.2 (formatPastTx p.1 lower))
                            <$> pending))) evs.
Proof.
  revert pastTx w.
  induction pending as [|[element resolved] pending IH]; intros pastTx w.
  - eexists. simpl. rewrite app_nil_r. apply runs_ret.
  - simpl pushResolved.
    set (finalObject := setStatus resolved (formatPastTx element lower)).
    assert (∃ e1, runs
      (if String.eqb lower (toLowerCase (raw_from element))
          && truthy (status finalObject)
          && negb (strictEq (status finalObject) (raw_status element))
       then detach (patchPastTx
                      (VObj [("id", raw_id element);
                             ("status", status finalObject)]) address)
       else mret tt) w (Returned tt) e1) as [e1 Hrun1].
    { case_match.
      - destruct (runs_patchPastTx
                    (VObj [("id", raw_id element);
                           ("status", status finalObject)]) address w)
          as [e He].
        by eapply runs_detach.
      - eexists. apply runs_ret. }
    destruct (IH (pastTx ++ [finalObject]) (setTrace (trace w ++ e1) w))
      as [e2 Hrun2].
    eexists. rewrite fmap_cons. cbn [fst snd]. fold finalObject.
    eapply runs_bind; [apply Hrun1|].
    unfold runs in *. rewrite Hrun2. by rewrite <- app_assoc.
Qed.

(** *** The first loop against the words of the claim *)

Lemma concernsAddress_spec address networkId x :
  concernsAddress (toLowerCase address) networkId x = true ↔
  relevantTo address networkId x.
Proof.
  unfold concernsAddress, relevantTo.
  rewrite !andb_true_iff, orb_true_iff, !negb_true_iff.
  rewrite !String_eqb_decide, !bool_decide_eq_true, !bool_decide_eq_false.
  assert (strictEqStr (raw_network x) networkId = true ↔
          raw_network x = VStr networkId) as ->.
  { destruct (raw_network x); simpl; try (split; [done|congruence]).
    rewrite String_eqb_decide, bool_decide_eq_true. split; congruence. }
  naive_solver.
Qed.

Lemma isConfirmed_spec x :
  strictEqStr (raw_status x) "confirmed" = true ↔ isConfirmed x.
Proof.
  unfold isConfirmed.
  destruct (raw_status x); simpl; try (split; [done|congruence]).
  rewrite String_eqb_decide, bool_decide_eq_true. split; congruence.
Qed.

Lemma foldl_sortOut address networkId txs pastTx pendingTx :
  foldl (sortOut (toLowerCase address) networkId) (pastTx, pendingTx) txs =
  (pastTx ++ ((λ x, formatPastTx x (toLowerCase address)) <$>
                filter (λ x, relevantTo address networkId x ∧ isConfirmed x)
                       txs),
   pendingTx ++
     filter (λ x, relevantTo address networkId x ∧ ¬ isConfirmed x) txs).
Proof.
  revert pastTx pendingTx.
  induction txs as [|x txs IH]; intros pastTx pendingTx; simpl.
  { by rewrite !app_nil_r. }
  rewrite !filter_cons. unfold sortOut at 2.
  destruct (concernsAddress (toLowerCase address) networkId x) eqn:Hc.
  - apply concernsAddress_spec in Hc.
    destruct (strictEqStr (raw_status x) "confirmed") eqn:Hs; simpl.
    + apply isConfirmed_spec in Hs. rewrite IH.
      rewrite decide_True by done.
      rewrite decide_False by naive_solver.
      by rewrite fmap_cons, <- app_assoc.
    + assert (¬ isConfirmed x) as Hn.
      { rewrite <- isConfirmed_spec. congruence. }
      rewrite IH.
      rewrite decide_False by naive_solver.
      rewrite decide_True by done.
      by rewrite <- app_assoc.
  - assert (¬ relevantTo address networkId x) as Hn.
    { rewrite <- concernsAddress_spec. congruence. }
    rewrite IH. by rewrite !decide_False by naive_solver.
Qed.

Lemma fmap_zip_fmap {A B C} (f : A → B) (g : A * B → C) (l : list A) :
  g <$> zip l (f <$> l) = (λ x, g (x, f x)) <$> l.
Proof. induction l as [|x l IH]; simpl; [done|]. f_equal. exact IH. Qed.

(** What [calculatePastTx] does, by what the cancel calculation of the
    merged list gives. *)
Lemma calculatePastTx_eq txs address w :
  ∃ evs,
    calculatePastTx txs address w =
    match cancelTxCalculate
            (mergedPastTx txs address (networkIdentifier w)) with
    | Some finalTx =>
        (Returned tt,
         setStore
           (<[addressOrSelected address w :=
              deepmerge (orElse (state address w)
                                (cloneDeep DEFAULT_ACCOUNT_STATE))
                (VObj [("pastTransactions", VArr (jsOfTx <$> finalTx))])]>
              (store w))
           (setTrace (trace w ++ evs) w))
    | None =>
        (Thrown (TypeError "nonceMap[x.nonce].push is not a function"),
         setTrace (trace w ++ evs) w)
    end.
Proof.
  unfold calculatePastTx.
  rewrite bind_gets, foldl_sortOut. cbn [fst snd app].
  set (pending := filter _ txs).
  set (confirmed := _ <$> filter _ txs).
  destruct (runs_forEach_start pending w) as [e1 Hrun1].
  destruct (runs_mapM_resolve pending (setTrace (trace w ++ e1) w))
    as [e2 Hrun2].
  destruct (runs_pushResolved (toLowerCase address) address
              (zip pending (lookedUpStatus <$> pending)) confirmed
              (setTrace (trace (setTrace (trace w ++ e1) w) ++ e2)
                        (setTrace (trace w ++ e1) w))) as [e3 Hrun3].
  unfold runs in Hrun1, Hrun2, Hrun3.
  rewrite bind_eq, Hrun1. rewrite bind_eq, Hrun2. rewrite bind_eq, Hrun3.
  assert (confirmed ++
          ((λ p : RawTx * JsVal,
              setStatus p.2 (formatPastTx p.1 (toLowerCase address)))
             <$> zip pending (lookedUpStatus <$> pending)) =
          mergedPastTx txs address (networkIdentifier w)) as ->.
  { unfold mergedPastTx. fold pending confirmed. f_equal.
    apply fmap_zip_fmap. }
  exists (e1 ++ e2 ++ e3).
  destruct (cancelTxCalculate _) as [finalTx|].
  - rewrite bind_eq, updateStore_eq. wsimpl. by rewrite !app_assoc.
  - unfold throw. wsimpl. by rewrite !app_assoc.
Qed.

(** The list that the two loops build is the merged list of the
    claim. *)
Lemma mergedPastTx_isMerged txs address networkId :
  isMergedPastTx txs address networkId
                 (mergedPastTx txs address networkId).
Proof.
  unfold isMergedPastTx, mergedPastTx. eexists. split; [done|].
  apply Forall2_fmap_r, Forall_Forall2_diag, Forall_forall.
  intros x _. by split.
Qed.

Lemma mergedPastTx_nonces txs address networkId :
  Forall (λ x, relevantTo address networkId x →
               nonce (formatPastTx x (toLowerCase address))
                 ∉ objectPrototypeKeys) txs →
  Forall (λ y, nonce y ∉ objectPrototypeKeys)
         (mergedPastTx txs address networkId).
Proof.
  intros Hown. rewrite Forall_forall in Hown.
  unfold mergedPastTx. apply Forall_app. split.
  - apply Forall_fmap, Forall_forall.
    intros x [[Hr _] Hx]%list_elem_of_filter. by apply Hown.
  - apply Forall_fmap, Forall_forall.
    intros x [[Hr _] Hx]%list_elem_of_filter. by apply Hown.
Qed.

(** C2.  For fetched transactions whose formatted nonces name no member
    of [Object.prototype], as the nonce of a transaction does not,
    [calculatePastTx] returns and leaves, under the key of the address, a
    record whose [pastTransactions] is the cancel calculation of the
    merged list.  The merged list holds the transactions of the input on
    the current network, with [to] and [from] present and one of them the
    address (letter case apart): first the confirmed ones, formatted as
    they are, then the others, each formatted and with its status, and
    only its status, replaced by the looked-up status ([undefined] when
    the lookup fails). *)
Theorem calculatePastTx_stores txs address w :
  let key := addressOrSelected address w in
  let networkId := networkIdentifier w in
  let w' := (calculatePastTx txs address w).2 in
  Forall (λ x, relevantTo address networkId x →
               nonce (formatPastTx x (toLowerCase address))
                 ∉ objectPrototypeKeys) txs →
  (calculatePastTx txs address w).1 = Returned tt ∧
  ∃ merged finalTx,
    isMergedPastTx txs address networkId merged ∧
    cancelTxCalculate merged = Some finalTx ∧
    getProp "pastTransactions" (default VUndefined (store w' !! key))
      = VArr (jsOfTx <$> finalTx).
Proof.
  intros key networkId w' Hown. unfold w'.
  destruct (calculatePastTx_eq txs address w) as [evs ->].
  fold networkId.
  pose proof (cancelTxCalculate_imap _
                (mergedPastTx_nonces txs address networkId Hown)) as Hfinal.
  rewrite Hfinal. split; [done|].
  eexists _, _. split; [apply mergedPastTx_isMerged|].
  split; [exact Hfinal|]. wsimpl. fold key.
  rewrite lookup_insert_eq.
  change (default VUndefined (Some ?v)) with v.
  apply getProp_deepmerge_single; [solve_key|right; by eexists].
Qed.

End PastTxFacts.


(** ** The fetches that may fail *)

Lemma traceGrows_ret {A} (a : A) : traceGrows (mret a).
Proof. intros w. exists []. by rewrite app_nil_r. Qed.

Lemma traceGrows_throw {A} e : traceGrows (throw (A := A) e).
Proof. intros w. exists []. by rewrite app_nil_r. Qed.

Lemma traceGrows_gets {A} (f : World → A) : traceGrows (gets f).
Proof. intros w. exists []. by rewrite app_nil_r. Qed.

Lemma traceGrows_emit ev : traceGrows (emit ev).
Proof. intros w. by exists [ev]. Qed.

Lemma traceGrows_bind {A B} (m : M A) (k : A → M B) :
  traceGrows m → (∀ a, traceGrows (k a)) → traceGrows (m ≫= k).
Proof.
  intros Hm Hk w. rewrite bind_eq.
  destruct (Hm w) as [e1 He1].
  destruct (m w) as [[a|e] w1]; simpl in *.
  - destruct (Hk a w1) as [e2 He2]. exists (e1 ++ e2).
    by rewrite He2, He1, app_assoc.
  - by exists e1.
Qed.

Lemma traceGrows_tryCatch {A} (m : M A) h :
  traceGrows m → (∀ e, traceGrows (h e)) → traceGrows (tryCatch m h).
Proof.
  intros Hm Hh w. unfold tryCatch.
  destruct (Hm w) as [e1 He1].
  destruct (m w) as [[a|e] w1]; simpl in *.
  - by exists e1.
  - destruct (Hh e w1) as [e2 He2]. exists (e1 ++ e2).
    by rewrite He2, He1, app_assoc.
Qed.

Lemma traceGrows_detach m : traceGrows m → traceGrows (detach m).
Proof.
  intros Hm. apply traceGrows_tryCatch; [done|].
  intros e. apply traceGrows_emit.
Qed.

(** A [try] whose [catch] only logs does not throw. *)
Lemma tryCatch_log_returns (m : M unit) level w :
  (tryCatch m (λ error, log level [error]) w).1 = Returned tt.
Proof. unfold tryCatch. by destruct (m w) as [[[]|e] w1]. Qed.

Lemma keepsBackground_ret {A} (a : A) : keepsBackground (mret a).
Proof. done. Qed.

Lemma keepsBackground_throw {A} e : keepsBackground (throw (A := A) e).
Proof. done. Qed.

Lemma keepsBackground_gets {A} (f : World → A) : keepsBackground (gets f).
Proof. done. Qed.

Lemma keepsBackground_emit ev : keepsBackground (emit ev).
Proof. done. Qed.

Lemma keepsBackground_bind {A B} (m : M A) (k : A → M B) :
  keepsBackground m → (∀ a, keepsBackground (k a)) →
  keepsBackground (m ≫= k).
Proof.
  intros Hm Hk w. rewrite bind_eq. specialize (Hm w).
  destruct (m w) as [[a|e] w1]; simpl in *; [|done].
  by rewrite Hk.
Qed.

Lemma keepsBackground_tryCatch {A} (m : M A) h :
  keepsBackground m → (∀ e, keepsBackground (h e)) →
  keepsBackground (tryCatch m h).
Proof.
  intros Hm Hh w. unfold tryCatch. specialize (Hm w).
  destruct (m w) as [[a|e] w1]; simpl in *; [done|].
  by rewrite Hh.
Qed.

Lemma keepsBackground_forEach {A} (body : A → M unit) l :
  (∀ x, keepsBackground (body x)) → keepsBackground (forEach body l).
Proof.
  intros Hbody. induction l as [|x l IH]; simpl.
  - apply keepsBackground_ret.
  - apply keepsBackground_bind; [apply Hbody|done].
Qed.

Section SyncFacts.

Context `{U : !Utils, E : !Enums, P : !Platform, R : !Remote}.

Lemma traceGrows_updateStore newPartialState address :
  traceGrows (updateStore newPartialState address).
Proof. intros w. exists []. by rewrite app_nil_r. Qed.

Lemma traceGrows_calculatePaymentTx txs address :
  traceGrows (calculatePaymentTx txs address).
Proof.
  apply traceGrows_bind; [apply traceGrows_updateStore|].
  intros _. apply traceGrows_ret.
Qed.

Lemma traceGrows_calculatePastTx txs address :
  traceGrows (calculatePastTx txs address).
Proof.
  intros w. destruct (calculatePastTx_eq txs address w) as [evs ->].
  exists evs. by destruct (cancelTxCalculate _).
Qed.

Lemma keepsBackground_apiCall call : keepsBackground (apiCall call).
Proof.
  apply keepsBackground_bind; [apply keepsBackground_emit|].
  intros _. by destruct (apiRequest call).
Qed.

Lemma keepsBackground_getPropOrThrow k v :
  keepsBackground (getPropOrThrow k v).
Proof. by destruct v. Qed.

Lemma keepsBackground_syncUser address : keepsBackground (syncUser address).
Proof.
  unfold syncUser.
  apply keepsBackground_bind; [apply keepsBackground_gets|]. intros auth.
  apply keepsBackground_bind; [apply keepsBackground_apiCall|]. intros user.
  case_match; [|apply keepsBackground_ret].
  apply keepsBackground_bind.
  { unfold whiteLabelLocale. destruct torusWhiteLabel as [[parsed|error]|].
    - apply keepsBackground_tryCatch;
        [apply keepsBackground_getPropOrThrow|].
      intros e. apply keepsBackground_bind; [apply keepsBackground_emit|].
      intros _. apply keepsBackground_ret.
    - apply keepsBackground_bind; [apply keepsBackground_emit|].
      intros _. apply keepsBackground_ret.
    - apply keepsBackground_ret. }
  intros localeOverride.
  apply keepsBackground_bind; [done|]. intros _.
  apply keepsBackground_bind.
  { case_match; try apply keepsBackground_throw.
    apply keepsBackground_forEach. intros i. unfold addCustomNetwork.
    apply keepsBackground_bind; [apply keepsBackground_getPropOrThrow|].
    intros blockExplorer. apply keepsBackground_emit. }
  intros _.
  apply keepsBackground_bind; [apply keepsBackground_emit|].
  intros _. apply keepsBackground_ret.
Qed.

Lemma fetchOrders_eq address w :
  fetchOrders address w =
  (Returned tt,
   setBackground
     (background w ++ [OrdersFetched address (headers address w)])
     (setTrace (trace w ++ [EWalletOrders (headers address w);
                            EPastOrders (headers address w)]) w)).
Proof.
  unfold fetchOrders. rewrite bind_gets, !bind_emit. unfold modify. wsimpl.
  by rewrite <- app_assoc.
Qed.

(** What [sync] returns and what it leaves pending. *)
Lemma sync_eq address w :
  ∃ user w1,
    tryCatch (syncUser address)
             (λ error, log LWarn [error];; mret VUndefined) w
      = (Returned user, w1) ∧
    background w1 = background w ∧
    sync address w =
    (Returned user,
     setBackground
       (background w ++ [OrdersFetched address (headers address w1)])
       (setTrace (trace w1 ++ [EWalletOrders (headers address w1);
                               EPastOrders (headers address w1)]) w1)).
Proof.
  assert (keepsBackground
            (tryCatch (syncUser address)
                      (λ error, log LWarn [error];; mret VUndefined)))
    as Hkeep.
  { apply keepsBackground_tryCatch; [apply keepsBackground_syncUser|].
    intros e. apply keepsBackground_bind; [apply keepsBackground_emit|].
    intros _. apply keepsBackground_ret. }
  specialize (Hkeep w). unfold sync. rewrite bind_eq.
  destruct (tryCatch (syncUser address) _ w) as [[user|e] w1] eqn:Htry.
  - exists user, w1. split_and!; [done..|].
    rewrite bind_eq, fetchOrders_eq. wsimpl. simpl in Hkeep.
    by rewrite Hkeep.
  - exfalso. unfold tryCatch in Htry.
    destruct (syncUser address w) as [[user|e'] w2]; [done|].
    unfold log in Htry. by rewrite bind_emit in Htry.
Qed.

Lemma runTask_eq address auth w :
  ∃ evs,
    (runTask (OrdersFetched address auth) w).1 = Returned tt ∧
    trace (runTask (OrdersFetched address auth) w).2 =
      trace w ++
      match walletOrders auth with
      | Resolved _ => []
      | Rejected error =>
          [ELog LError [VStr "unable to fetch wallet orders"; error]]
      end ++
      match pastOrders auth with
      | Resolved _ => []
      | Rejected error =>
          [ELog LError [VStr "unable to fetch past orders"; error]]
      end ++ evs.
Proof.
  unfold runTask.
  set (handle := λ (paymentTx : option (list RawPayment))
                   (walletTx : option (list RawTx)),
         tryCatch
           (match paymentTx with
            | Some data => calculatePaymentTx data address
            | None => mret tt
            end;;
            match walletTx with
            | Some data =>
                updateStore [("fetchedPastTx", VArr (jsOfRawTx <$> data))]
                            address;;
                detach (calculatePastTx data address)
            | None => mret tt
            end)
           (λ error, log LError [error])).
  assert (∀ paymentTx walletTx w0, ∃ evs,
            (handle paymentTx walletTx w0).1 = Returned tt ∧
            trace (handle paymentTx walletTx w0).2 = trace w0 ++ evs)
    as Hhandle.
  { intros paymentTx walletTx w0. unfold handle.
    edestruct (traceGrows_tryCatch (A := unit)) as [evs Hevs]; last first.
    { exists evs. split; [apply tryCatch_log_returns|apply Hevs]. }
    - intros e. apply traceGrows_emit.
    - apply traceGrows_bind.
      + destruct paymentTx;
          [apply traceGrows_calculatePaymentTx|apply traceGrows_ret].
      + intros _. destruct walletTx; [|apply traceGrows_ret].
        apply traceGrows_bind; [apply traceGrows_updateStore|].
        intros _. apply traceGrows_detach, traceGrows_calculatePastTx. }
  destruct (walletOrders auth) as [walletTx|e1];
    destruct (pastOrders auth) as [paymentTx|e2].
  all: unfold log; repeat rewrite ?bind_ret, ?bind_assoc, ?bind_emit.
  - destruct (Hhandle paymentTx walletTx w) as (evs & Hr & Ht).
    exists evs. split; [exact Hr|]. etrans; [exact Ht|done].
  - destruct (Hhandle None walletTx
                (setTrace (trace w ++ [ELog LError
                   [VStr "unable to fetch past orders"; e2]]) w))
      as (evs & Hr & Ht).
    exists evs. split; [exact Hr|]. etrans; [exact Ht|].
    wsimpl. by rewrite <- app_assoc.
  - destruct (Hhandle paymentTx None
                (setTrace (trace w ++ [ELog LError
                   [VStr "unable to fetch wallet orders"; e1]]) w))
      as (evs & Hr & Ht).
    exists evs. split; [exact Hr|]. etrans; [exact Ht|].
    wsimpl. by rewrite <- app_assoc.
  - destruct (Hhandle None None
                (setTrace
                   (trace (setTrace (trace w ++ [ELog LError
                      [VStr "unable to fetch wallet orders"; e1]]) w)
                    ++ [ELog LError
                          [VStr "unable to fetch past orders"; e2]])
                   (setTrace (trace w ++ [ELog LError
                      [VStr "unable to fetch wallet orders"; e1]]) w)))
      as (evs & Hr & Ht).
    exists evs. split; [exact Hr|]. etrans; [exact Ht|].
    wsimpl. by rewrite <- !app_assoc.
Qed.

Lemma getAnnouncementsContents_rejected error w :
  let call := mkApiCall GET (config_api +:+ "/announcements") VUndefined
                        (Some (headers "" w)) in
  truthy (selectedAddress w) = true →
  apiRequest call = Rejected error →
  getAnnouncementsContents w =
  (Returned tt, setTrace (trace w ++ [EApi call; ELog LError [error]]) w).
Proof.
  intros call Hsel Hcall. unfold getAnnouncementsContents, tryCatch.
  rewrite bind_gets, Hsel. cbn [negb].
  rewrite bind_gets. unfold apiCall, await.
  rewrite bind_assoc, bind_emit. fold call. rewrite Hcall, bind_throw.
  unfold log, emit. wsimpl. by rewrite <- app_assoc.
Qed.

(** C5.  The fetches that are not critical fail without an exception
    reaching the caller.  [sync] returns, whatever its requests do; it
    sends the two order requests and leaves their chain pending, and what
    it returns is the same whatever the order requests answer.  The chain
    returns too; an order request that is rejected is logged.
    [getAnnouncementsContents] returns; when its request is rejected the
    error is logged and nothing else changes, the announcements store
    included. *)
Theorem noncritical_fetches_caught address auth w :
  (∃ user w1,
     sync address w =
     (Returned user,
      setBackground
        (background w ++ [OrdersFetched address (headers address w1)])
        (setTrace (trace w1 ++ [EWalletOrders (headers address w1);
                                EPastOrders (headers address w1)]) w1))) ∧
  (∀ other : Remote,
     @apiRequest other = @apiRequest R →
     @sync U E P other address w = sync address w) ∧
  (runTask (OrdersFetched address auth) w).1 = Returned tt ∧
  (∀ error, walletOrders auth = Rejected error →
     ELog LError [VStr "unable to fetch wallet orders"; error]
       ∈ trace (runTask (OrdersFetched address auth) w).2) ∧
  (∀ error, pastOrders auth = Rejected error →
     ELog LError [VStr "unable to fetch past orders"; error]
       ∈ trace (runTask (OrdersFetched address auth) w).2) ∧
  (getAnnouncementsContents w).1 = Returned tt ∧
  (∀ error,
     truthy (selectedAddress w) = true →
     apiRequest (mkApiCall GET (config_api +:+ "/announcements") VUndefined
                           (Some (headers "" w))) = Rejected error →
     announcementsStore (getAnnouncementsContents w).2
       = announcementsStore w ∧
     (getAnnouncementsContents w).2 =
     setTrace (trace w ++
               [EApi (mkApiCall GET (config_api +:+ "/announcements")
                                VUndefined (Some (headers "" w)));
                ELog LError [error]]) w).
Proof.
  destruct (runTask_eq address auth w) as (evs & Hret & Htrace).
  split_and!.
  - destruct (sync_eq address w) as (user & w1 & _ & _ & Hsync).
    by exists user, w1.
  - intros other Hother. unfold sync, syncUser, apiCall.
    by rewrite Hother.
  - done.
  - intros error Hw. rewrite Htrace, Hw.
    rewrite !elem_of_app, elem_of_cons. naive_solver.
  - intros error Hp. rewrite Htrace, Hp.
    rewrite !elem_of_app, elem_of_cons. naive_solver.
  - apply tryCatch_log_returns.
  - intros error Hsel Hcall.
    by rewrite (getAnnouncementsContents_rejected error w Hsel Hcall).
Qed.

End SyncFacts.


(** ** The close button *)

(** C7.  The click on the close button runs [closeDialog], which emits
    [closeDialog] to the parent and changes nothing else of the
    component. *)
Theorem close_click_emits_closeDialog triggerLogin c :
  PopupLogin.listener PopupLogin.CloseBtn PopupLogin.Click
    = Some PopupLogin.CloseDialog ∧
  PopupLogin.fire triggerLogin PopupLogin.CloseBtn PopupLogin.Click c
    = PopupLogin.closeDialog c ∧
  PopupLogin.emitted (PopupLogin.closeDialog c)
    = PopupLogin.emitted c ++ ["closeDialog"] ∧
  PopupLogin.showModal (PopupLogin.closeDialog c) = PopupLogin.showModal c ∧
  PopupLogin.loginDialog (PopupLogin.closeDialog c) = PopupLogin.loginDialog c.
Proof. done. Qed.


(** ** Examples on the sample environment *)

Lemma cancelTxCalculate_collisions_witness :
  Forall (λ x, nonce x ∉ objectPrototypeKeys) samplePastTx ∧
  ∃ result,
    cancelTxCalculate (U := sampleUtils) samplePastTx = Some result ∧
    length result = 3 ∧
    result !! 1 = Some (sampleTx "8" 20 "confirmed") ∧
    ∃ y, result !! 0 = Some y ∧
         hasCancel y = VBool true ∧ status y = VStr "cancelled" ∧
         etherscanLink y = VStr "link7" ∧ is_cancel y = VBool false.
Proof.
  assert (Forall (λ x, nonce x ∉ objectPrototypeKeys) samplePastTx) as Hown.
  { repeat constructor; solve_key. }
  split; [exact Hown|].
  destruct (cancelTxCalculate_collisions (U := sampleUtils) samplePastTx Hown)
    as (result & Hresult & Hlen & Hspec).
  exists result. split; [exact Hresult|]. split; [exact Hlen|]. split.
  - destruct (Hspec 1 (sampleTx "8" 20 "confirmed") eq_refl)
      as (y & Hy & _ & _ & _ & _ & _ & Hunique & _).
    rewrite Hy. f_equal. apply Hunique.
    intros [|[|[|j]]] z Hz Hn; try reflexivity; simpl in Hz;
      try discriminate; injection Hz as <-; discriminate.
  - destruct (Hspec 0 (sampleTx "7" 10 "submitted") eq_refl)
      as (y & Hy & _ & _ & _ & _ & _ & _ & Hgroup).
    exists y. split; [exact Hy|].
    destruct (Hgroup 2 (sampleTx "7" 30 "confirmed"))
      as (latest & latestCancelTx & Hlatest & Hnonce & Hmax & Hfields);
      [discriminate|reflexivity|reflexivity|].
    destruct latest as [|[|[|latest]]]; simpl in Hlatest;
      try discriminate; injection Hlatest as <-.
    + destruct (Hmax 2 (sampleTx "7" 30 "confirmed") eq_refl eq_refl)
        as [Hle _].
      simpl in Hle. lia.
    + discriminate.
    + simpl in Hfields.
      destruct Hfields as (Hhas & Hstatus & _ & Hlink & _ & _ & Hcancel).
      repeat split; assumption.
Defined.

Lemma calculatePastTx_stores_witness :
  Forall (λ x, relevantTo "0xab" "mainnet" x →
               nonce (formatPastTx (Utils := sampleUtils) x
                        (toLowerCase "0xab"))
                 ∉ objectPrototypeKeys) sampleFetched ∧
  (calculatePastTx (U := sampleUtils) (E := sampleEnums)
     (P := samplePlatform) (R := answeringRemote)
     sampleFetched "0xab" sampleWorld).1 = Returned tt.
Proof.
  assert (Forall (λ x, relevantTo "0xab" "mainnet" x →
               nonce (formatPastTx (Utils := sampleUtils) x
                        (toLowerCase "0xab"))
                 ∉ objectPrototypeKeys) sampleFetched) as Hown.
  { repeat constructor; intros _; solve_key. }
  split; [exact Hown|].
  exact (proj1 (calculatePastTx_stores (U := sampleUtils) (E := sampleEnums)
                  (P := samplePlatform) (R := answeringRemote)
                  sampleFetched "0xab" sampleWorld Hown)).
Defined.

Lemma updateStore_deepmerge_witness :
  (addressOrSelected (P := samplePlatform) "0xab" sampleWorld
     ∉ objectPrototypeKeys) ∧
  plainData sampleAccount ∧
  plainData (VObj [("theme", VStr "dark")]) ∧
  store (updateStore (U := sampleUtils) (E := sampleEnums)
           (P := samplePlatform) [("theme", VStr "dark")] "0xab"
           sampleWorld).2 !! "0xab"
    = Some (deepMergeSpec sampleAccount (VObj [("theme", VStr "dark")])).
Proof.
  assert (addressOrSelected (P := samplePlatform) "0xab" sampleWorld
            ∉ objectPrototypeKeys) as Hkey by solve_key.
  assert (plainData sampleAccount) as Hrecord.
  { apply plainData_VObj. split; [solve_key|].
    repeat (apply Forall_cons; split; [split; [solve_key|exact I]|]).
    apply Forall_nil_2. }
  assert (plainData (VObj [("theme", VStr "dark")])) as Hpartial.
  { apply plainData_VObj. split; [solve_key|].
    repeat (apply Forall_cons; split; [split; [solve_key|exact I]|]).
    apply Forall_nil_2. }
  split; [exact Hkey|]. split; [exact Hrecord|]. split; [exact Hpartial|].
  apply (updateStore_deepmerge (U := sampleUtils) (E := sampleEnums)
           (P := samplePlatform) [("theme", VStr "dark")] "0xab"
           sampleWorld Hkey); [|exact Hpartial].
  intros record Hstored.
  change (Some sampleAccount = Some record) in Hstored.
  injection Hstored as <-. exact Hrecord.
Defined.

Lemma updateStore_frame_witness :
  "0xcd" ≠ addressOrSelected (P := samplePlatform) "0xab" sampleWorld ∧
  store (updateStore (U := sampleUtils) (E := sampleEnums)
           (P := samplePlatform) [("theme", VStr "dark")] "0xab"
           sampleWorld).2 !! "0xcd"
    = store sampleWorld !! "0xcd" ∧
  selectedAddress (updateStore (U := sampleUtils) (E := sampleEnums)
           (P := samplePlatform) [("theme", VStr "dark")] "0xab"
           sampleWorld).2
    = selectedAddress sampleWorld.
Proof.
  pose proof (updateStore_frame (U := sampleUtils) (E := sampleEnums)
                (P := samplePlatform) [("theme", VStr "dark")] "0xab"
                sampleWorld) as (Hother & Hsel & _).
  split; [discriminate|]. split.
  - apply Hother. discriminate.
  - apply Hsel. discriminate.
Defined.

Lemma setUserTheme_cases_witness :
  getProp "theme" (state (P := samplePlatform) "" sampleWorld)
    = VStr "light-blue" ∧
  setUserTheme (U := sampleUtils) (E := sampleEnums) (P := samplePlatform)
               (R := sampleRemote) "light-blue" sampleWorld
    = (Returned tt, sampleWorld) ∧
  getProp "theme" (state (P := samplePlatform) "" sampleWorld) ≠ VStr "dark" ∧
  (setUserTheme (U := sampleUtils) (E := sampleEnums) (P := samplePlatform)
                (R := sampleRemote) "dark" sampleWorld).1 = Returned tt.
Proof.
  pose proof (setUserTheme_cases (U := sampleUtils) (E := sampleEnums)
                (P := samplePlatform) (R := sampleRemote) "light-blue"
                sampleWorld) as [Hsame _].
  pose proof (setUserTheme_cases (U := sampleUtils) (E := sampleEnums)
                (P := samplePlatform) (R := sampleRemote) "dark"
                sampleWorld) as [_ Hother].
  split; [reflexivity|]. split; [apply Hsame; reflexivity|].
  split; [discriminate|]. apply Hother. discriminate.
Defined.

Lemma noncritical_fetches_caught_witness :
  walletOrders (Remote := sampleRemote) "Bearer token"
    = Rejected (VError "offline") ∧
  ELog LError [VStr "unable to fetch wallet orders"; VError "offline"]
    ∈ trace (runTask (U := sampleUtils) (E := sampleEnums)
               (P := samplePlatform) (R := sampleRemote)
               (OrdersFetched "0xab" "Bearer token") sampleWorld).2 ∧
  truthy (selectedAddress sampleWorld) = true ∧
  announcementsStore
    (getAnnouncementsContents (P := samplePlatform) (R := sampleRemote)
       sampleWorld).2
    = announcementsStore sampleWorld.
Proof.
  pose proof (noncritical_fetches_caught (U := sampleUtils) (E := sampleEnums)
                (P := samplePlatform) (R := sampleRemote)
                "0xab" "Bearer token" sampleWorld)
    as (_ & _ & _ & Hwallet & _ & _ & Hann).
  split; [reflexivity|]. split; [apply Hwallet; reflexivity|].
  split; [reflexivity|].
  apply (Hann (VError "offline")); reflexivity.
Defined.

Lemma init_existing_witness :
  state (P := samplePlatform) (init_address sampleInit) sampleWorld
    = sampleAccount ∧
  init (U := sampleUtils) (E := sampleEnums) (P := samplePlatform)
       (R := sampleRemote) sampleInit sampleWorld
    = (Returned (VStr "0xab"), sampleWorld).
Proof.
  split; [reflexivity|].
  apply (init_existing (U := sampleUtils) (E := sampleEnums)
           (P := samplePlatform) (R := sampleRemote) sampleInit
           [("selectedCurrency", VStr "USD"); ("theme", VStr "light-blue");
            ("jwtToken", VStr "token"); ("defaultPublicAddress", VStr "")]
           sampleWorld).
  reflexivity.
Defined.

Lemma getNfts_guard_witness :
  store (initialWorld "mainnet")
    !! addressOrSelected (P := samplePlatform) "0xcd" (initialWorld "mainnet")
    = None ∧
  getNfts (P := samplePlatform) (R := sampleRemote) "0xcd" "mainnet"
          (initialWorld "mainnet")
    = (Returned (VObj [("data", VArr [])]), initialWorld "mainnet") ∧
  truthy (getProp "jwtToken" (state (P := samplePlatform) "0xab" sampleWorld))
    = true ∧
  (getNfts (P := samplePlatform) (R := sampleRemote) "0xab" "mainnet"
           sampleWorld).1 = Thrown (VError "offline").
Proof.
  pose proof (getNfts_guard (P := samplePlatform) (R := sampleRemote)
                "0xcd" "mainnet" (initialWorld "mainnet")) as (Habsent & _ & _).
  pose proof (getNfts_guard (P := samplePlatform) (R := sampleRemote)
                "0xab" "mainnet" sampleWorld) as (_ & _ & Htoken).
  split; [reflexivity|]. split; [apply Habsent; reflexivity|].
  split; [reflexivity|]. rewrite Htoken; reflexivity.
Defined.

(** C6 as worded fails on a number: it is neither Error-like, nor a string,
    nor an object, and what is stored is the number, not the empty
    string. *)
Lemma handleError_number_counterexample :
  isErrorObject (VNum 42) = false ∧
  isString (VNum 42) = false ∧
  isObject (VNum 42) = false ∧
  errorStore (handleError (E := sampleEnums) (P := samplePlatform)
                (VNum 42) sampleWorld).2 = VNum 42 ∧
  errorStore (handleError (E := sampleEnums) (P := samplePlatform)
                (VNum 42) sampleWorld).2 ≠ VStr "".
Proof. by split_and!. Qed.


(** ** More on [cancelTxCalculate] *)

Section CancelTxMore.

Context `{U : !Utils}.

Lemma fmap_imap_kept {B} (f : Tx → B) (g : nat → Tx → Tx) (l : list Tx) :
  (∀ i x, f (g i x) = f x) → f <$> imap g l = f <$> l.
Proof.
  intros Hfg. apply list_eq. intros i.
  rewrite !list_lookup_fmap, list_lookup_imap.
  destruct (l !! i); simpl; [|done]. by rewrite Hfg.
Qed.

Lemma cancelledAt_fmap_kept pastTx :
  nonce <$> imap (cancelledAt pastTx) pastTx = nonce <$> pastTx ∧
  date <$> imap (cancelledAt pastTx) pastTx = date <$> pastTx ∧
  gas <$> imap (cancelledAt pastTx) pastTx = gas <$> pastTx ∧
  gasPrice <$> imap (cancelledAt pastTx) pastTx = gasPrice <$> pastTx ∧
  others <$> imap (cancelledAt pastTx) pastTx = others <$> pastTx.
Proof.
  split_and!; apply fmap_imap_kept; intros i x;
    by destruct (cancelledAt_kept pastTx i x) as (? & ? & ? & ? & ?).
Qed.

(** X1.  When no two transactions of the array have the same nonce, the
    array comes back as it was; the empty array is one such.  The nonces
    name no member of [Object.prototype]. *)
Theorem cancelTxCalculate_no_collision pastTx :
  Forall (λ x, nonce x ∉ objectPrototypeKeys) pastTx →
  NoDup (nonce <$> pastTx) →
  cancelTxCalculate pastTx = Some pastTx.
Proof.
  intros Hown Hnd. rewrite cancelTxCalculate_imap by done. f_equal.
  apply list_eq. intros i. rewrite list_lookup_imap.
  destruct (pastTx !! i) as [x|] eqn:Hx; [|done]. simpl. f_equal.
  unfold cancelledAt. rewrite decide_False; [done|].
  enough (length (nonceGroup pastTx (nonce x)) ≤ 1) by lia.
  apply (NoDup_all_eq_length _ i).
  { apply (NoDup_indicesFrom (nonce x) 0 pastTx). }
  intros j (y & Hy & Hn)%elem_of_nonceGroup.
  apply (NoDup_lookup _ j i (nonce x) Hnd).
  - by rewrite list_lookup_fmap, Hy, <- Hn.
  - by rewrite list_lookup_fmap, Hx.
Qed.

(** X2.  On an array whose nonces name no member of [Object.prototype],
    the call returns, never reorders the array and never changes the
    nonce, the date, the gas, the gas price or the untouched properties
    of an object. *)
Theorem cancelTxCalculate_keeps pastTx :
  Forall (λ x, nonce x ∉ objectPrototypeKeys) pastTx →
  ∃ result,
    cancelTxCalculate pastTx = Some result ∧
    nonce <$> result = nonce <$> pastTx ∧
    date <$> result = date <$> pastTx ∧
    gas <$> result = gas <$> pastTx ∧
    gasPrice <$> result = gasPrice <$> pastTx ∧
    others <$> result = others <$> pastTx.
Proof.
  intros Hown. eexists. split; [by apply cancelTxCalculate_imap|].
  apply cancelledAt_fmap_kept.
Qed.

Lemma indicesFrom_ext n k l l' :
  nonce <$> l = nonce <$> l' → indicesFrom n k l = indicesFrom n k l'.
Proof.
  revert k l'. induction l as [|x l IH]; intros k [|x' l'] Heq;
    try done.
  rewrite !fmap_cons in Heq. injection Heq as Hx Hl.
  simpl. rewrite Hx, (IH (S k) l' Hl). done.
Qed.

Lemma dateAt_ext l l' j : date <$> l = date <$> l' → dateAt l j = dateAt l' j.
Proof.
  intros Heq. unfold dateAt.
  assert ((date <$> l) !! j = (date <$> l') !! j) as Hj by by rewrite Heq.
  rewrite !list_lookup_fmap in Hj.
  destruct (l !! j), (l' !! j); simpl in Hj; congruence.
Qed.

Lemma latestOf_ext l l' n :
  nonce <$> l = nonce <$> l' → date <$> l = date <$> l' →
  nonceGroup l n = nonceGroup l' n ∧ latestOf l n = latestOf l' n.
Proof.
  intros Hn Hd.
  assert (nonceGroup l n = nonceGroup l' n) as Hg.
  { by apply indicesFrom_ext. }
  split; [done|]. unfold latestOf. rewrite Hg.
  rewrite (sortLatestFirst_ext l l'); [done|].
  intros b _. by apply dateAt_ext.
Qed.

(** A second pass over the result of the first finds every object as the
    first pass left it. *)
Lemma cancelledAt_twice pastTx i x :
  pastTx !! i = Some x →
  cancelledAt (imap (cancelledAt pastTx) pastTx) i (cancelledAt pastTx i x)
    = cancelledAt pastTx i x.
Proof.
  intros Hx.
  destruct (cancelledAt_fmap_kept pastTx) as (Hn & Hd & _).
  destruct (cancelledAt_kept pastTx i x) as (Hnx & _).
  unfold cancelledAt at 1. rewrite Hnx.
  destruct (latestOf_ext _ _ (nonce x) Hn Hd) as [-> ->].
  unfold cancelledAt.
  destruct (decide (1 < length (nonceGroup pastTx (nonce x))))
    as [Hlen|Hlen]; [|done].
  destruct (decide (i = latestOf pastTx (nonce x))) as [Hi|Hi]; [done|].
  rewrite list_lookup_imap.
  destruct (pastTx !! latestOf pastTx (nonce x)) as [xl|] eqn:Hxl; [|done].
  cbn [fmap option_fmap option_map]. unfold cancelledAt.
  assert (nonce xl = nonce x) as Hnl.
  { pose proof (NoDup_indicesFrom (nonce x) 0 pastTx) as Hnd.
    destruct (processGroup_lookup pastTx (nonceGroup pastTx (nonce x))
                Hnd (λ a, nonceGroup_range pastTx (nonce x) a) Hlen)
      as (latest & rest & xl' & Hsort & Hxl' & _).
    assert (latest ∈ nonceGroup pastTx (nonce x)) as Hin.
    { rewrite <- (sortLatestFirst_perm pastTx), Hsort. left. }
    assert (latestOf pastTx (nonce x) = latest) as Heq.
    { unfold latestOf. by rewrite Hsort. }
    apply elem_of_nonceGroup in Hin as (z & Hz & Hzn). congruence. }
  rewrite Hnl. rewrite decide_True by done.
  rewrite decide_True by done. done.
Qed.

(** X3.  On an array whose nonces name no member of [Object.prototype],
    the call returns and a second call on its result returns that result
    once more: nothing changes any more. *)
Theorem cancelTxCalculate_idempotent pastTx :
  Forall (λ x, nonce x ∉ objectPrototypeKeys) pastTx →
  ∃ result,
    cancelTxCalculate pastTx = Some result ∧
    cancelTxCalculate result = Some result.
Proof.
  intros Hown. exists (imap (cancelledAt pastTx) pastTx).
  split; [by apply cancelTxCalculate_imap|].
  destruct (cancelledAt_fmap_kept pastTx) as (Hn & _).
  rewrite cancelTxCalculate_imap.
  - f_equal. apply list_eq. intros i. rewrite !list_lookup_imap.
    destruct (pastTx !! i) as [x|] eqn:Hx; [|done].
    cbn [fmap option_fmap option_map]. f_equal.
    by apply cancelledAt_twice.
  - rewrite Forall_lookup in Hown. apply Forall_lookup. intros i y.
    rewrite list_lookup_imap.
    destruct (pastTx !! i) as [x|] eqn:Hx; [|done].
    cbn [fmap option_fmap option_map]. intros [= <-].
    destruct (cancelledAt_kept pastTx i x) as (-> & _).
    by apply (Hown i).
Qed.

(** X4.  In a group of several transactions with one nonce, the call
    sets [is_cancel] on one object of the group only: the first in the
    array among those of the latest date, so that a tie goes to the
    earlier position.  Every other object of the group keeps its
    [is_cancel] and has [hasCancel] set. *)
Theorem cancelTxCalculate_tie_first pastTx i x j y :
  Forall (λ x, nonce x ∉ objectPrototypeKeys) pastTx →
  pastTx !! i = Some x → pastTx !! j = Some y →
  nonce y = nonce x → i ≠ j →
  ∃ result latest latestCancelTx marked,
    cancelTxCalculate pastTx = Some result ∧
    pastTx !! latest = Some latestCancelTx ∧
    nonce latestCancelTx = nonce x ∧
    (∀ k z, pastTx !! k = Some z → nonce z = nonce x →
       (date z ≤ date latestCancelTx)%Z ∧
       (date z = date latestCancelTx → latest ≤ k)) ∧
    result !! latest = Some marked ∧
    is_cancel marked = VBool true ∧
    hasCancel marked = hasCancel latestCancelTx ∧
    ∀ k z, k ≠ latest → pastTx !! k = Some z → nonce z = nonce x →
      ∃ z', result !! k = Some z' ∧
            is_cancel z' = is_cancel z ∧ hasCancel z' = VBool true.
Proof.
  intros Hown Hx Hy Hn Hne.
  destruct (nonceGroup_latest pastTx i x j y Hx Hy Hn)
    as (Hlen & xl & Hxl & Hnl & Hmax); [done|].
  exists (imap (cancelledAt pastTx) pastTx), (latestOf pastTx (nonce x)),
         xl, (cancelledAt pastTx (latestOf pastTx (nonce x)) xl).
  split; [by apply cancelTxCalculate_imap|].
  split_and!; [done..| | | |].
  - by rewrite list_lookup_imap, Hxl.
  - unfold cancelledAt. rewrite Hnl.
    rewrite decide_True by done. by rewrite decide_True.
  - unfold cancelledAt. rewrite Hnl.
    rewrite decide_True by done. by rewrite decide_True.
  - intros k z Hk Hz Hzn. eexists.
    split; [by rewrite list_lookup_imap, Hz|].
    unfold cancelledAt. rewrite Hzn.
    rewrite decide_True by done. rewrite decide_False by done.
    by rewrite Hxl.
Qed.

(** X29.  [cancelTxCalculate] returns exactly when no nonce of the array
    names a member of [Object.prototype]; on a nonce such as
    ['constructor'] the first loop finds the inherited member in its map
    and throws. *)
Theorem cancelTxCalculate_returns_iff pastTx :
  is_Some (cancelTxCalculate pastTx) ↔
  Forall (λ x, nonce x ∉ objectPrototypeKeys) pastTx.
Proof.
  split.
  - intros [result Hresult].
    destruct (decide (Forall (λ x, nonce x ∉ objectPrototypeKeys) pastTx))
      as [Hown|Hnot]; [done|].
    apply not_Forall_Exists in Hnot; [|apply _].
    rewrite cancelTxCalculate_throws in Hresult; [done|].
    eapply Exists_impl; [exact Hnot|].
    intros z Hz. cbv beta in Hz. unfold compose in Hz.
    by destruct (decide (nonce z ∈ objectPrototypeKeys)).
  - intros Hown. rewrite cancelTxCalculate_imap by done. by eexists.
Qed.

End CancelTxMore.


(** ** [updateStore] on flat records *)

Section MergeFacts.

Context `{U : !Utils, E : !Enums, P : !Platform}.

Lemma default_flat :
  ∃ fs, cloneDeep DEFAULT_ACCOUNT_STATE = VObj fs ∧ flatFields fs ∧
        ownNames fs.
Proof.
  eexists. split; [reflexivity|]. split; [split|].
  - solve_key.
  - repeat constructor; by eexists.
  - repeat (apply Forall_cons; split; [solve_key|]). apply Forall_nil_2.
Qed.

Lemma ownNames_lookup fs k :
  ownNames fs → k ∈ objectPrototypeKeys → lookupField k fs = None.
Proof.
  intros Hfs Hk. destruct (lookupField k fs) as [v|] eqn:Hv; [|done].
  apply lookupField_Some_elem in Hv. unfold ownNames in Hfs.
  rewrite Forall_forall in Hfs. by destruct (Hfs _ Hv).
Qed.

(** The merge of two flat objects, when the target has no property
    named like a member of [Object.prototype]. *)
Lemma deepmerge_flat_own tfs sfs :
  flatFields tfs → ownNames tfs → flatFields sfs →
  ∃ merged,
    deepmerge (VObj tfs) (VObj sfs) = VObj merged ∧
    flatFields merged ∧
    ∀ k, lookupField k merged =
         match lookupField k sfs with
         | Some v => if decide (k ∈ objectPrototypeKeys) then None
                     else Some v
         | None => lookupField k tfs
         end.
Proof.
  intros Ht Hown Hs.
  destruct (deepmerge_flat tfs sfs Ht Hs) as (merged & Hm & Hflat & Hl).
  exists merged. split_and!; [done..|]. intros k. rewrite Hl.
  destruct (lookupField k sfs) as [v|]; [|done].
  rewrite propertyIsUnsafe_VObj.
  destruct (decide (k ∈ objectPrototypeKeys)) as [Hk|Hk].
  - rewrite (ownNames_lookup tfs k Hown Hk).
    rewrite bool_decide_eq_true_2 by done.
    rewrite bool_decide_eq_false_2; [done|]. by intros [? ?].
  - by rewrite bool_decide_eq_false_2.
Qed.

Lemma addressOrSelected_after newPartialState address w :
  addressOrSelected address w ≠ "selectedAddress" →
  addressOrSelected address (updateStore newPartialState address w).2 =
  addressOrSelected address w.
Proof.
  intros Hne. unfold addressOrSelected in *.
  case_decide; [|done]. unfold selectedAddress, updateStore.
  cbn [snd store setStore]. rewrite lookup_insert_ne; [done|].
  unfold addressOrSelected, selectedAddress. by rewrite decide_True.
Qed.

Lemma state_after_updateStore newPartialState address w :
  addressOrSelected address w ≠ "selectedAddress" →
  state address (updateStore newPartialState address w).2 =
  deepmerge (orElse (state address w) (cloneDeep DEFAULT_ACCOUNT_STATE))
            (VObj newPartialState).
Proof.
  intros Hne. unfold state at 1.
  rewrite addressOrSelected_after by done.
  rewrite updateStore_eq. wsimpl. by rewrite lookup_insert_eq.
Qed.

(** X5.  On a flat record and a flat partial state, [updateStore] is an
    override property by property: a property the partial state names
    takes the new value, array included, unless it is named like a member
    of [Object.prototype], in which case the merge drops it; every other
    property keeps its value, and the record stays flat.  The address
    and the properties of the record are not named like a member of
    [Object.prototype]. *)
Theorem updateStore_flat_override newPartialState address w fs :
  addressOrSelected address w ∉ objectPrototypeKeys →
  state address w = VObj fs →
  flatFields fs → ownNames fs → flatFields newPartialState →
  ∃ merged,
    (updateStore newPartialState address w).1 = Returned (VObj merged) ∧
    flatFields merged ∧
    ∀ k, ownProperty k (VObj merged) =
         match lookupField k newPartialState with
         | Some v => if decide (k ∈ objectPrototypeKeys) then None
                     else Some v
         | None => ownProperty k (VObj fs)
         end.
Proof.
  intros _ Hstate Hfs Hown Hpartial.
  destruct (deepmerge_flat_own fs newPartialState Hfs Hown Hpartial)
    as (merged & Hmerged & Hflat & Hlookup).
  exists merged. rewrite updateStore_eq, Hstate. cbn [fst orElse truthy].
  rewrite Hmerged. split_and!; [done..|].
  intros k. cbn [ownProperty]. apply Hlookup.
Qed.

(** X6.  For an address that has no record and is not named like a
    member of [Object.prototype], [updateStore] creates a record from
    the default account state: the properties of the partial state,
    except those named like a member of [Object.prototype], which the
    merge drops, and the defaults for the rest. *)
Theorem updateStore_new_address newPartialState address w :
  addressOrSelected address w ∉ objectPrototypeKeys →
  store w !! addressOrSelected address w = None →
  flatFields newPartialState →
  ∃ merged,
    (updateStore newPartialState address w).1 = Returned (VObj merged) ∧
    store (updateStore newPartialState address w).2
      !! addressOrSelected address w = Some (VObj merged) ∧
    ∀ k, ownProperty k (VObj merged) =
         match lookupField k newPartialState with
         | Some v => if decide (k ∈ objectPrototypeKeys) then None
                     else Some v
         | None => ownProperty k DEFAULT_ACCOUNT_STATE
         end.
Proof.
  intros _ Hnone Hpartial.
  destruct default_flat as (fs & Hdefault & Hfs & Hown).
  destruct (deepmerge_flat_own fs newPartialState Hfs Hown Hpartial)
    as (merged & Hmerged & Hflat & Hlookup).
  exists merged. rewrite updateStore_eq. unfold state.
  rewrite Hnone. cbn [default]. unfold orElse.
  cbn [truthy fst snd]. rewrite Hdefault, Hmerged. split_and!; [done| |].
  - wsimpl. apply lookup_insert_eq.
  - intros k. cbn [ownProperty]. rewrite Hlookup.
    destruct (lookupField k newPartialState); [done|].
    rewrite cloneDeep_default in Hdefault. by rewrite Hdefault.
Qed.

(** X7.  What [updateStore] returns is what [state] reads afterwards
    for the same address. *)
Theorem updateStore_then_state newPartialState address w :
  addressOrSelected address w ≠ "selectedAddress" →
  (updateStore newPartialState address w).1 =
  Returned (state address (updateStore newPartialState address w).2).
Proof.
  intros Hne. rewrite state_after_updateStore by done.
  by rewrite updateStore_eq.
Qed.

(** X8.  Once a token is stored for an address, the requests for that
    address carry it as bearer token. *)
Theorem updateStore_token_headers token address w :
  addressOrSelected address w ≠ "selectedAddress" →
  headers address (updateStore [("jwtToken", VStr token)] address w).2
    = "Bearer " +:+ token.
Proof.
  intros Hne. unfold headers.
  rewrite state_after_updateStore by done.
  rewrite getProp_deepmerge_single;
    [|solve_key|by left].
  unfold orElse. simpl. by destruct (String.eqb_spec token "") as [->|].
Qed.

End MergeFacts.


(** ** Settings *)

Ltac wsimpl_in H :=
  unfold mret, M_ret, ret in H;
  cbn [fst snd store metadataStore errorStore successStore billboardStore
       announcementsStore networkIdentifier timers nextTimer background trace
       setStore setErrorStore setSuccessStore setAnnouncementsStore setTimers
       setBackground setTrace] in H.

Section SettingsFacts.

Context `{U : !Utils, E : !Enums, P : !Platform, R : !Remote}.

(** X9.  A change of locale never shows a message.  With the stored
    locale as payload nothing happens; otherwise one PATCH leaves; when it
    resolves the locale of the selected address is the payload, when it
    is rejected the error is logged and the account store is as before;
    in both cases the two message stores and the timers are untouched. *)
Theorem setUserLocale_silent payload w :
  let selected := addressOrSelected "" w in
  let call := mkApiCall PATCH (config_api +:+ "/user/locale")
                        (VObj [("locale", VStr payload)])
                        (Some (headers "" w)) in
  let w' := (setUserLocale payload w).2 in
  (setUserLocale payload w).1 = Returned tt ∧
  errorStore w' = errorStore w ∧ successStore w' = successStore w ∧
  timers w' = timers w ∧
  (getProp "locale" (state "" w) = VStr payload → w' = w) ∧
  (getProp "locale" (state "" w) ≠ VStr payload →
   match apiRequest call with
   | Resolved _ =>
       getProp "locale" (default VUndefined (store w' !! selected))
         = VStr payload ∧
       trace w' = trace w ++ [EApi call]
   | Rejected error =>
       store w' = store w ∧
       trace w' = trace w ++
         [EApi call; ELog LError [VStr "unable to set locale"; error]]
   end).
Proof.
  intros selected call w'. unfold w', setUserLocale. rewrite bind_gets.
  destruct (strictEq (VStr payload) (getProp "locale" (state "" w)))
    eqn:Heq.
  { apply strictEq_VStr in Heq. by split_and!. }
  assert (getProp "locale" (state "" w) ≠ VStr payload) as Hne.
  { intros Hl. apply strictEq_VStr in Hl. congruence. }
  unfold tryCatch, apiCall, await.
  rewrite bind_gets, bind_assoc, bind_emit. fold call.
  destruct (apiRequest call) as [response|error].
  - rewrite bind_ret, bind_eq, updateStore_eq. wsimpl.
    split_and!; try done.
    intros _. split; [|done].
    change (addressOrSelected "" _) with selected.
    rewrite lookup_insert_eq. cbn [default].
    apply getProp_deepmerge_single; [solve_key|by left].
  - rewrite bind_throw. unfold log, emit. wsimpl.
    split_and!; try done.
    intros _. split; [done|]. by rewrite <- app_assoc.
Qed.

Lemma setSelectedCurrency_resolved selectedCurrency response w :
  let call := mkApiCall PATCH (config_api +:+ "/user")
                (VObj [("default_currency", VStr selectedCurrency)])
                (Some (headers "" w)) in
  getProp "selectedCurrency" (state "" w) ≠ VStr selectedCurrency →
  apiRequest call = Resolved response →
  setSelectedCurrency selectedCurrency w =
  (Returned tt,
   setTimers
     (timers w ++ [mkTimer (nextTimer w) false SUCCESS_TIME ClearSuccess])
     (S (nextTimer w))
     (setSuccessStore (VStr "navBar.snackSuccessCurrency")
        (setStore
           (<[addressOrSelected "" w :=
              deepmerge (orElse (state "" w)
                                (cloneDeep DEFAULT_ACCOUNT_STATE))
                        (VObj [("selectedCurrency", VStr selectedCurrency)])]>
              (store w))
           (setTrace (trace w ++ [EApi call]) w)))).
Proof.
  intros call Hne Hcall. unfold setSelectedCurrency. rewrite bind_gets.
  assert (strictEq (VStr selectedCurrency)
            (getProp "selectedCurrency" (state "" w)) = false) as ->.
  { apply not_true_is_false. by rewrite strictEq_VStr. }
  unfold tryCatch, apiCall, await.
  rewrite bind_gets, bind_assoc, bind_emit. fold call.
  rewrite Hcall, bind_ret, bind_eq, updateStore_eq. cbn [fst snd].
  by rewrite handleSuccess_eq.
Qed.

(** X10.  After a change of currency that the server accepted, the same
    call again finds the currency stored and does nothing: no second
    request, no second message. *)
Theorem setSelectedCurrency_again selectedCurrency response w :
  let call := mkApiCall PATCH (config_api +:+ "/user")
                (VObj [("default_currency", VStr selectedCurrency)])
                (Some (headers "" w)) in
  let w' := (setSelectedCurrency selectedCurrency w).2 in
  addressOrSelected "" w ≠ "selectedAddress" →
  getProp "selectedCurrency" (state "" w) ≠ VStr selectedCurrency →
  apiRequest call = Resolved response →
  getProp "selectedCurrency" (state "" w') = VStr selectedCurrency ∧
  successStore w' = VStr "navBar.snackSuccessCurrency" ∧
  setSelectedCurrency selectedCurrency w' = (Returned tt, w').
Proof.
  intros call w' Hkey Hne Hcall.
  assert (getProp "selectedCurrency" (state "" w')
          = VStr selectedCurrency) as Hstored.
  { unfold w'.
    rewrite (setSelectedCurrency_resolved _ response w Hne Hcall).
    cbn [snd].
    pose proof (state_after_updateStore
                  [("selectedCurrency", VStr selectedCurrency)] ""
                  (setTrace (trace w ++ [EApi call]) w) Hkey) as Hstate.
    rewrite updateStore_eq in Hstate. cbn [snd] in Hstate.
    unfold state, addressOrSelected, selectedAddress in *.
    wsimpl. wsimpl_in Hstate. rewrite Hstate.
    apply getProp_deepmerge_single; [solve_key|by left]. }
  split_and!; [done| |].
  - unfold w'.
    by rewrite (setSelectedCurrency_resolved _ response w Hne Hcall).
  - unfold setSelectedCurrency at 1. rewrite bind_gets, Hstored.
    simpl. by rewrite String.eqb_refl.
Qed.

Lemma init_found o w :
  truthy (state (init_address o) w) = true →
  init o w =
  (Returned (orElse (getProp "defaultPublicAddress"
                             (state (init_address o) w))
                    (VStr (init_address o))), w).
Proof. intros Hstate. unfold init. by rewrite bind_gets, Hstate. Qed.

(** X11.  After [setDefaultPublicAddress(ofAddress, address)] that the
    server accepted, [init] for [ofAddress] returns [address] and sends
    nothing. *)
Theorem setDefaultPublicAddress_then_init o address response w :
  let call := mkApiCall PATCH (config_api +:+ "/user")
                (VObj [("default_public_address", VStr address)])
                (Some (headers (init_address o) w)) in
  let w' := (setDefaultPublicAddress (init_address o) address w).2 in
  init_address o ≠ "" → init_address o ≠ "selectedAddress" →
  address ≠ "" →
  apiRequest call = Resolved response →
  init o w' = (Returned (VStr address), w').
Proof.
  intros call w' Hofaddr Hkey Haddr Hcall.
  assert (addressOrSelected (init_address o) w = init_address o) as Hres.
  { unfold addressOrSelected. by rewrite decide_False. }
  assert (state (init_address o) w' =
          deepmerge (orElse (state (init_address o) w)
                            (cloneDeep DEFAULT_ACCOUNT_STATE))
                    (VObj [("defaultPublicAddress", VStr address)]))
    as Hstate.
  { unfold w', setDefaultPublicAddress, tryCatch, apiCall, await.
    rewrite bind_gets, bind_assoc, bind_emit. fold call.
    rewrite Hcall, bind_ret, bind_eq, updateStore_eq. unfold log, emit.
    wsimpl. unfold state, addressOrSelected. wsimpl.
    rewrite !decide_False by done. by rewrite lookup_insert_eq. }
  assert (getProp "defaultPublicAddress" (state (init_address o) w')
          = VStr address) as Hdpa.
  { rewrite Hstate. apply getProp_deepmerge_single; [solve_key|by left]. }
  rewrite init_found.
  - rewrite Hdpa. unfold orElse. simpl.
    by destruct (String.eqb_spec address "").
  - rewrite Hstate.
    by destruct (orElse (state (init_address o) w)
                        (cloneDeep DEFAULT_ACCOUNT_STATE)).
Qed.

End SettingsFacts.


(** ** Contacts, custom tokens, custom networks *)

Section RequestFacts.

Context `{U : !Utils, E : !Enums, P : !Platform, R : !Remote}.

Lemma apiCall_bind {B} call (k : JsVal → M B) w :
  (apiCall call ≫= k) w =
  match apiRequest call with
  | Resolved v => k v (setTrace (trace w ++ [EApi call]) w)
  | Rejected e => (Thrown e, setTrace (trace w ++ [EApi call]) w)
  end.
Proof.
  unfold apiCall, await. rewrite bind_assoc, bind_emit.
  destruct (apiRequest call); [by rewrite bind_ret|by rewrite bind_throw].
Qed.

Lemma getPropOrThrow_bind {B} k v (f : JsVal → M B) w :
  nullish v = false →
  (getPropOrThrow k v ≫= f) w = f (getProp k v) w.
Proof. intros Hv. destruct v; try done; by rewrite bind_ret. Qed.

Lemma getPropOrThrow_nullish {B} k v (f : JsVal → M B) w :
  nullish v = true →
  ∃ e, (getPropOrThrow k v ≫= f) w = (Thrown e, w).
Proof.
  intros Hv. unfold getPropOrThrow.
  destruct v; try done; eexists; by rewrite bind_throw.
Qed.

Lemma tryCatch_returns (body : M unit) handler w :
  (∀ e w', (handler e w').1 = Returned tt) →
  (tryCatch body handler w).1 = Returned tt.
Proof.
  intros Hh. unfold tryCatch.
  destruct (body w) as [[[]|e] w']; [done|apply Hh].
Qed.

Lemma tryCatch_thrown {A} (body : M A) handler w e w' :
  body w = (Thrown e, w') → tryCatch body handler w = handler e w'.
Proof. intros Hb. unfold tryCatch. by rewrite Hb. Qed.

Lemma tryCatch_returned {A} (body : M A) handler w a w' :
  body w = (Returned a, w') → tryCatch body handler w = (Returned a, w').
Proof. intros Hb. unfold tryCatch. by rewrite Hb. Qed.

Lemma filterM_pure {A} (keep : A → M bool) (f : A → bool) l w :
  Forall (λ x, keep x w = (Returned (f x), w)) l →
  filterM keep l w = (Returned (filter (λ x, f x = true) l), w).
Proof.
  induction 1 as [|x l Hx _ IH]; [done|].
  cbn [filterM]. rewrite bind_eq, Hx, bind_eq, IH, filter_cons.
  by destruct (f x).
Qed.

Lemma state_truthy_of_prop k v address w :
  getProp k (state address w) = v → v ≠ VUndefined →
  nullish (state address w) = false ∧
  orElse (state address w) (cloneDeep DEFAULT_ACCOUNT_STATE)
    = state address w.
Proof.
  intros Hp Hv. by destruct (state address w); simplify_eq/=.
Qed.

(** X12.  [addContact] never throws.  When the request resolves and the
    record of the selected address has the contacts [items], the contacts
    become [items] followed by the response's data and the success message
    is set.  When the request is rejected, or resolves while the selected
    address has no record, the account store is as before and the error
    message is set. *)
Theorem addContact_cases payload w :
  let call := mkApiCall POST (config_api +:+ "/contact") payload
                        (Some (headers "" w)) in
  let w' := (addContact payload w).2 in
  (addContact payload w).1 = Returned tt ∧
  (∀ response items,
     apiRequest call = Resolved response → nullish response = false →
     getProp "contacts" (state "" w) = VArr items →
     getProp "contacts"
       (default VUndefined (store w' !! addressOrSelected "" w))
       = VArr (items ++ [getProp "data" response]) ∧
     successStore w' = VStr "navBar.snackSuccessContactAdd" ∧
     errorStore w' = errorStore w) ∧
  (∀ error, apiRequest call = Rejected error →
     store w' = store w ∧
     errorStore w' = VStr "navBar.snackFailContactAdd" ∧
     successStore w' = successStore w) ∧
  (∀ response, apiRequest call = Resolved response →
     nullish (state "" w) = true →
     store w' = store w ∧
     errorStore w' = VStr "navBar.snackFailContactAdd" ∧
     successStore w' = successStore w).
Proof.
  intros call w'. split.
  { apply tryCatch_returns. intros e w0. by rewrite handleError_eq. }
  unfold w', addContact. split_and!.
  - intros response items Hcall Hresp Hcontacts.
    destruct (state_truthy_of_prop _ _ _ _ Hcontacts) as [Hst Hor];
      [done|].
    erewrite tryCatch_returned; last first.
    { rewrite bind_gets, apiCall_bind. fold call. rewrite Hcall.
      rewrite bind_gets.
      change (state "" (setTrace _ w)) with (state "" w).
      rewrite getPropOrThrow_bind by done. rewrite Hcontacts.
      cbn [spreadArray]. rewrite bind_ret.
      rewrite getPropOrThrow_bind by done.
      rewrite bind_eq, updateStore_eq. cbn [fst snd].
      rewrite handleSuccess_eq. reflexivity. }
    wsimpl.
    change (addressOrSelected "" (setTrace _ w))
      with (addressOrSelected "" w).
    rewrite lookup_insert_eq. cbn [default]. split_and!; try done.
    apply getProp_deepmerge_single; [solve_key|by right; eexists].
  - intros error Hcall.
    erewrite tryCatch_thrown; last first.
    { rewrite bind_gets, apiCall_bind. fold call. by rewrite Hcall. }
    by rewrite handleError_eq.
  - intros response Hcall Hst.
    destruct (getPropOrThrow_nullish (B := unit) "contacts" (state "" w)
                (λ contacts,
                   items ← spreadArray contacts;
                   data ← getPropOrThrow "data" response;
                   updateStore [("contacts", VArr (items ++ [data]))] "";;
                   handleSuccess (VStr "navBar.snackSuccessContactAdd"))
                (setTrace (trace w ++ [EApi call]) w) Hst) as [e He].
    erewrite tryCatch_thrown; last first.
    { rewrite bind_gets, apiCall_bind. fold call. rewrite Hcall.
      rewrite bind_gets.
      change (state "" (setTrace _ w)) with (state "" w).
      exact He. }
    by rewrite handleError_eq.
Qed.

(** X13.  [deleteContact] never throws.  When the request resolves with
    data and the record of the selected address has the contacts [items],
    the contacts become those of [items] whose id differs from the id of
    the response's data, in their order, and the success message is set.
    When the request is rejected the account store is as before and the
    error message is set. *)
Theorem deleteContact_cases payload w :
  let call := mkApiCall DELETE
                (config_api +:+ "/contact/" +:+ toKey payload) (VObj [])
                (Some (headers "" w)) in
  let w' := (deleteContact payload w).2 in
  (deleteContact payload w).1 = Returned tt ∧
  (∀ response items,
     apiRequest call = Resolved response → nullish response = false →
     nullish (getProp "data" response) = false →
     getProp "contacts" (state "" w) = VArr items →
     Forall (λ contact, nullish contact = false) items →
     getProp "contacts"
       (default VUndefined (store w' !! addressOrSelected "" w))
       = VArr (filter
                 (λ contact,
                    negb (strictEq (getProp "id" contact)
                            (getProp "id" (getProp "data" response)))
                    = true)
                 items) ∧
     successStore w' = VStr "navBar.snackSuccessContactDelete" ∧
     errorStore w' = errorStore w) ∧
  (∀ error, apiRequest call = Rejected error →
     store w' = store w ∧
     errorStore w' = VStr "navBar.snackFailContactDelete" ∧
     successStore w' = successStore w).
Proof.
  intros call w'. split.
  { apply tryCatch_returns. intros e w0. by rewrite handleError_eq. }
  unfold w', deleteContact. split_and!.
  - intros response items Hcall Hresp Hdata Hcontacts Hitems.
    destruct (state_truthy_of_prop _ _ _ _ Hcontacts) as [Hst Hor];
      [done|].
    erewrite tryCatch_returned; last first.
    { rewrite bind_gets, apiCall_bind. fold call. rewrite Hcall.
      rewrite bind_gets.
      change (state "" (setTrace _ w)) with (state "" w).
      rewrite getPropOrThrow_bind by done. rewrite Hcontacts.
      cbn [filterArray]. rewrite bind_eq.
      rewrite (filterM_pure _
                 (λ contact,
                    negb (strictEq (getProp "id" contact)
                            (getProp "id" (getProp "data" response))))).
      2:{ eapply Forall_impl; [exact Hitems|].
          intros contact Hc. cbv beta in Hc. unfold otherId.
          rewrite getPropOrThrow_bind by done.
          rewrite getPropOrThrow_bind by done.
          by rewrite getPropOrThrow_bind by done. }
      rewrite bind_eq, updateStore_eq. cbn [fst snd].
      rewrite handleSuccess_eq. reflexivity. }
    wsimpl.
    change (addressOrSelected "" (setTrace _ w))
      with (addressOrSelected "" w).
    rewrite lookup_insert_eq. cbn [default]. split_and!; try done.
    apply getProp_deepmerge_single; [solve_key|by right; eexists].
  - intros error Hcall.
    erewrite tryCatch_thrown; last first.
    { rewrite bind_gets, apiCall_bind. fold call. by rewrite Hcall. }
    by rewrite handleError_eq.
Qed.

(** X14.  A rejected [addCustomToken]: an error of status 409 (the token
    is there already) is swallowed, nothing but the request is left in the
    world; any other error is thrown to the caller when [throwError] is
    set, and shown as the error message when it is not.  In no case is the
    account store written. *)
Theorem addCustomToken_rejected payload throwError error w :
  let call := mkApiCall POST (config_api +:+ "/customtoken") payload
                        (Some (headers "" w)) in
  let sent := setTrace (trace w ++ [EApi call]) w in
  apiRequest call = Rejected error → nullish error = false →
  store (addCustomToken payload throwError w).2 = store w ∧
  addCustomToken payload throwError w =
  if strictEq (getProp "status" error) (VNum 409) then (Returned tt, sent)
  else if throwError then (Thrown error, sent)
  else (Returned tt,
        setTimers
          (timers w ++ [mkTimer (nextTimer w) false ERROR_TIME ClearError])
          (S (nextTimer w))
          (setErrorStore (VStr "navBar.snackFailCustomTokenAdd") sent)).
Proof.
  intros call sent Hcall Herr.
  assert (addCustomToken payload throwError w =
          if strictEq (getProp "status" error) (VNum 409)
          then (Returned tt, sent)
          else if throwError then (Thrown error, sent)
          else (Returned tt,
                setTimers
                  (timers w ++
                     [mkTimer (nextTimer w) false ERROR_TIME ClearError])
                  (S (nextTimer w))
                  (setErrorStore (VStr "navBar.snackFailCustomTokenAdd")
                                 sent))) as Heq.
  { unfold addCustomToken.
    erewrite tryCatch_thrown; last first.
    { rewrite bind_gets, apiCall_bind. fold call. by rewrite Hcall. }
    rewrite getPropOrThrow_bind by done.
    destruct (strictEq (getProp "status" error) (VNum 409)); [done|].
    cbn [negb]. destruct throwError; [done|]. by rewrite handleError_eq. }
  split; [|exact Heq].
  rewrite Heq.
  by destruct (strictEq (getProp "status" error) (VNum 409)), throwError.
Qed.

(** X15.  [addCustomNetwork] never throws.  Without a token for the
    selected address no request is sent: the network is handed to the
    network controller as given and the result is [null].  With a token
    and a rejected request no network is added, the error message is set
    and the result is [null]. *)
Theorem addCustomNetwork_cases type network w :
  let call := mkApiCall POST (config_api +:+ "/customnetwork/" +:+ type)
                (VObj [("network_name", getProp "networkName" (VObj network));
                       ("rpc_url", getProp "host" (VObj network));
                       ("chain_id", getProp "chainId" (VObj network));
                       ("symbol", getProp "symbol" (VObj network));
                       ("block_explorer_url",
                        orElse (getProp "blockExplorer" (VObj network))
                               VUndefined)])
                (Some (headers "" w)) in
  let sent := setTrace (trace w ++ [EApi call]) w in
  (∃ v, (addCustomNetwork' type network w).1 = Returned v) ∧
  (truthy (getProp "jwtToken" (state "" w)) = false →
   addCustomNetwork' type network w =
   (Returned VNull,
    setTrace (trace w ++ [EAddSupportedNetworks (VObj network)]) w)) ∧
  (∀ error,
     truthy (getProp "jwtToken" (state "" w)) = true →
     apiRequest call = Rejected error →
     addCustomNetwork' type network w =
     (Returned VNull,
      setTimers
        (timers w ++ [mkTimer (nextTimer w) false ERROR_TIME ClearError])
        (S (nextTimer w))
        (setErrorStore (VStr "navBar.snackFailCustomNetworkAdd") sent))) ∧
  (∀ res,
     truthy (getProp "jwtToken" (state "" w)) = true →
     apiRequest call = Resolved res →
     nullish res = false → nullish (getProp "data" res) = false →
     addCustomNetwork' type network w =
     (Returned (getProp "id" (getProp "data" res)),
      setTrace
        (trace w ++
           [EApi call;
            EAddSupportedNetworks
              (VObj (setField "id" (getProp "id" (getProp "data" res))
                              network))]) w)).
Proof.
  intros call sent. split_and!.
  - unfold addCustomNetwork', tryCatch.
    match goal with |- context [match ?b w with _ => _ end] =>
      destruct (b w) as [[v|e] w0] end; [by eexists|].
    rewrite bind_eq, handleError_eq. by eexists.
  - intros Htoken. unfold addCustomNetwork'.
    erewrite tryCatch_returned; [reflexivity|].
    by rewrite bind_gets, Htoken, bind_emit.
  - intros error Htoken Hcall. unfold addCustomNetwork'.
    erewrite tryCatch_thrown; last first.
    { rewrite bind_gets, Htoken, bind_gets, apiCall_bind. fold call.
      by rewrite Hcall. }
    by rewrite bind_eq, handleError_eq.
  - intros res Htoken Hcall Hres Hdata. unfold addCustomNetwork'.
    erewrite tryCatch_returned; [reflexivity|].
    rewrite bind_gets, Htoken, bind_gets, apiCall_bind. fold call.
    rewrite Hcall.
    rewrite getPropOrThrow_bind by done.
    rewrite getPropOrThrow_bind by done.
    rewrite bind_emit. wsimpl. by rewrite <- app_assoc.
Qed.

End RequestFacts.


(** ** Announcements and billboard *)

Lemma lookupField_elem_NoDup k v (fs : list (string * JsVal)) :
  NoDup fs.*1 → (k, v) ∈ fs → lookupField k fs = Some v.
Proof.
  induction fs as [|[k' v'] fs IH]; intros Hnd Hin.
  { by apply elem_of_nil in Hin. }
  rewrite fmap_cons in Hnd. apply NoDup_cons in Hnd as [Hk' Hnd].
  cbn [lookupField]. apply elem_of_cons in Hin as [[= -> ->]|Hin].
  - by rewrite String.eqb_refl.
  - destruct (String.eqb_spec k k') as [->|Hne]; [|by apply IH].
    exfalso. apply Hk'. cbn [fst].
    apply list_elem_of_fmap. by exists (k', v).
Qed.

Lemma setAnnouncementsStore_same w :
  setAnnouncementsStore (announcementsStore w) w = w.
Proof. by destruct w. Qed.

Section AnnouncementFacts.

Context `{U : !Utils, E : !Enums, P : !Platform, R : !Remote}.

Lemma underLocale_snoc key items a :
  underLocale key (items ++ [a]) =
  underLocale key items ++
    (if decide (toKey (getProp "locale" a) = key) then [a] else []).
Proof.
  unfold underLocale. rewrite filter_app. f_equal.
Qed.

Lemma pushAnnouncement_eq accumulator done a w :
  nullish a = false →
  (∀ key, lookupField key accumulator = groupOf key done) →
  pushAnnouncement accumulator a w =
  (Returned (setField (toKey (getProp "locale" a))
               (VArr (underLocale (toKey (getProp "locale" a)) done ++ [a]))
               accumulator), w).
Proof.
  intros Ha Hacc. unfold pushAnnouncement.
  rewrite getPropOrThrow_bind by done.
  rewrite Hacc. unfold groupOf.
  by destruct (underLocale (toKey (getProp "locale" a)) done).
Qed.

Lemma reduceM_pushAnnouncement items : ∀ accumulator done w,
  Forall (λ a, nullish a = false) items →
  NoDup accumulator.*1 →
  (∀ key, lookupField key accumulator = groupOf key done) →
  ∃ groups,
    reduceM pushAnnouncement items accumulator w = (Returned groups, w) ∧
    NoDup groups.*1 ∧
    ∀ key, lookupField key groups = groupOf key (done ++ items).
Proof.
  induction items as [|a items IH]; intros accumulator done w Hall Hnd Hacc.
  { exists accumulator. by rewrite app_nil_r. }
  apply Forall_cons in Hall as [Ha Hall].
  cbn [reduceM].
  rewrite bind_eq, (pushAnnouncement_eq _ done) by done.
  destruct (IH (setField (toKey (getProp "locale" a))
                  (VArr (underLocale (toKey (getProp "locale" a)) done
                         ++ [a]))
                  accumulator) (done ++ [a]) w Hall)
    as (groups & Hrun & Hnd' & Hgroups).
  - by apply setField_NoDup.
  - intros key. unfold groupOf at 1. rewrite underLocale_snoc.
    case_decide as Hkey.
    + subst key. rewrite lookupField_setField_eq.
      by destruct (underLocale _ done).
    + rewrite lookupField_setField_ne by done.
      rewrite app_nil_r. apply Hacc.
  - exists groups. split_and!; [done|done|].
    intros key. by rewrite Hgroups, <- app_assoc.
Qed.

(** X16.  With a selected address and a response whose data is an array
    of announcements, [getAnnouncementsContents] stores one object in the
    announcements store: under each locale the announcements of that
    locale, all of them and in the order of the response, and no key for a
    locale without announcements. *)
Theorem getAnnouncementsContents_groups resp items w :
  let call := mkApiCall GET (config_api +:+ "/announcements") VUndefined
                        (Some (headers "" w)) in
  let w' := (getAnnouncementsContents w).2 in
  truthy (selectedAddress w) = true →
  apiRequest call = Resolved resp →
  getProp "data" resp = VArr items →
  Forall readable items →
  ∃ groups,
    announcementsStore w' = VObj groups ∧ NoDup groups.*1 ∧
    (∀ key, lookupField key groups =
            match underLocale key items with
            | [] => None
            | a :: rest => Some (VArr (a :: rest))
            end) ∧
    store w' = store w ∧ errorStore w' = errorStore w.
Proof.
  intros call w' Hsel Hcall Hdata Hitems.
  assert (nullish resp = false) as Hresp by (by destruct resp).
  destruct (reduceM_pushAnnouncement items [] []
              (setTrace (trace w ++ [EApi call]) w))
    as (groups & Hrun & Hnd & Hgroups).
  { eapply Forall_impl; [exact Hitems|]. by intros a [Ha _]. }
  { constructor. }
  { done. }
  exists groups. unfold w', getAnnouncementsContents.
  erewrite tryCatch_returned; last first.
  { rewrite bind_gets, Hsel. cbn [negb].
    rewrite bind_gets, apiCall_bind. fold call. rewrite Hcall.
    rewrite getPropOrThrow_bind by done. rewrite Hdata.
    rewrite bind_eq, Hrun. reflexivity. }
  wsimpl. split_and!; try done.
Qed.

Lemma withoutId_idemp id items :
  withoutId id (withoutId id items) = withoutId id items.
Proof.
  unfold withoutId. induction items as [|x items IH]; [done|].
  rewrite filter_cons. case_decide as Hx; [|done].
  rewrite filter_cons, decide_True by done. by f_equal.
Qed.

Lemma hideIn_keys id announcements :
  (hideIn id announcements).*1 = announcements.*1.
Proof.
  unfold hideIn. rewrite <- list_fmap_compose.
  by apply list_fmap_ext.
Qed.

Lemma hideIn_lists id announcements :
  announcementLists announcements →
  announcementLists (hideIn id announcements).
Proof.
  intros [Hnd Hall]. split; [by rewrite hideIn_keys|].
  unfold hideIn. apply Forall_fmap.
  eapply Forall_impl; [exact Hall|].
  intros [k v] (Hk & items & Hv & Hitems). cbn [fst snd] in *. subst v.
  split; [done|]. eexists. split; [done|].
  unfold withoutId. rewrite Forall_forall in Hitems |- *.
  intros x [_ Hx]%list_elem_of_filter. by apply Hitems.
Qed.

Lemma hideIn_idemp id announcements :
  announcementLists announcements →
  hideIn id (hideIn id announcements) = hideIn id announcements.
Proof.
  intros [_ Hall]. unfold hideIn. rewrite <- list_fmap_compose.
  apply Forall_fmap_ext_1.
  eapply Forall_impl; [exact Hall|].
  intros [k v] (_ & items & Hv & _). cbn [fst snd compose] in *. subst v.
  by rewrite withoutId_idemp.
Qed.

Lemma reduceM_hideUnder id announcements w : ∀ rest pre,
  announcements = pre ++ rest →
  announcementLists announcements →
  reduceM (hideUnder id announcements) rest.*1 (hideIn id pre) w =
  (Returned (hideIn id announcements), w).
Proof.
  induction rest as [|[k v] rest IH]; intros pre Heq Hlists.
  { rewrite app_nil_r in Heq. by subst. }
  destruct Hlists as [Hnd Hall].
  assert ((k, v) ∈ announcements) as Hin.
  { rewrite Heq. apply elem_of_app. right. left. }
  pose proof (lookupField_elem_NoDup k v announcements Hnd Hin) as Hlook.
  rewrite Forall_forall in Hall.
  destruct (Hall _ Hin) as (_ & items & Hv & Hitems).
  cbn [fst snd] in Hv. subst v.
  rewrite fmap_cons. cbn [fst reduceM].
  rewrite bind_eq. unfold hideUnder at 1.
  cbn [getProp]. rewrite Hlook.
  change (default VUndefined (Some (VArr items))) with (VArr items).
  cbn [filterArray]. rewrite bind_eq.
  rewrite (filterM_pure _ (λ x, negb (strictEq (getProp "id" x) id))).
  2:{ eapply Forall_impl; [exact Hitems|].
      intros x Hx. cbv beta in Hx. unfold notHidden.
      by rewrite getPropOrThrow_bind by done. }
  assert (k ∉ (hideIn id pre).*1) as Hfresh.
  { rewrite hideIn_keys. rewrite Heq, fmap_app, fmap_cons in Hnd.
    apply NoDup_app in Hnd as (_ & Hdisj & _).
    intros Hk. apply (Hdisj k Hk). left. }
  rewrite setField_fresh by done.
  replace (hideIn id pre ++ [(k, VArr (filter _ items))])
    with (hideIn id (pre ++ [(k, VArr items)])).
  2:{ unfold hideIn. by rewrite fmap_app. }
  apply IH; [by rewrite <- app_assoc|].
  split; [done|by apply Forall_forall].
Qed.

Lemma hideAnnouncement_eq payload announcements w :
  nullish payload = false →
  announcementLists announcements →
  hideAnnouncement payload announcements w =
  (Returned tt,
   setAnnouncementsStore
     (VObj (hideIn (getProp "id" payload) announcements)) w).
Proof.
  intros Hpayload Hlists. unfold hideAnnouncement.
  rewrite getPropOrThrow_bind by done.
  rewrite bind_eq.
  by rewrite (reduceM_hideUnder _ announcements w announcements []).
Qed.

(** X17.  [hideAnnouncement] puts into the announcements store an object
    with the keys of [announcements], in their order, and under each key
    the announcements that were there without those whose id is the
    payload's id; nothing else of the world changes. *)
Theorem hideAnnouncement_filters payload announcements w :
  nullish payload = false →
  announcementLists announcements →
  ∃ shown,
    hideAnnouncement payload announcements w =
      (Returned tt, setAnnouncementsStore (VObj shown) w) ∧
    shown.*1 = announcements.*1 ∧
    ∀ key items,
      lookupField key announcements = Some (VArr items) →
      lookupField key shown =
      Some (VArr (filter
                    (λ x, negb (strictEq (getProp "id" x)
                                         (getProp "id" payload)) = true)
                    items)).
Proof.
  intros Hpayload Hlists.
  exists (hideIn (getProp "id" payload) announcements).
  split_and!.
  - by apply hideAnnouncement_eq.
  - apply hideIn_keys.
  - intros key items Hlook.
    apply lookupField_elem_NoDup.
    { rewrite hideIn_keys. apply Hlists. }
    apply lookupField_Some_elem in Hlook.
    unfold hideIn. apply list_elem_of_fmap.
    by exists (key, VArr items).
Qed.

(** X18.  Hiding is idempotent: hiding the same announcement once more in
    what the store then shows leaves the world as it is. *)
Theorem hideAnnouncement_twice payload announcements w :
  let w' := (hideAnnouncement payload announcements w).2 in
  nullish payload = false →
  announcementLists announcements →
  ∃ shown,
    announcementsStore w' = VObj shown ∧
    hideAnnouncement payload shown w' = (Returned tt, w').
Proof.
  intros w' Hpayload Hlists.
  exists (hideIn (getProp "id" payload) announcements).
  assert (announcementsStore w' =
          VObj (hideIn (getProp "id" payload) announcements)) as Hstore.
  { unfold w'. by rewrite hideAnnouncement_eq. }
  split; [done|].
  rewrite hideAnnouncement_eq by (done || by apply hideIn_lists).
  rewrite hideIn_idemp by done.
  by rewrite <- Hstore, setAnnouncementsStore_same.
Qed.

Lemma lastFor_snoc link locale items e :
  lastFor link locale (items ++ [e]) =
  if decide (toKey (getProp "callToActionLink" e) = link ∧
             toKey (getProp "locale" e) = locale)
  then Some e else lastFor link locale items.
Proof.
  unfold lastFor. rewrite filter_app, filter_cons, filter_nil.
  case_decide; [by rewrite last_snoc|by rewrite app_nil_r].
Qed.

Lemma pushBillboard_eq accumulator done e w :
  nullish e = false →
  (∀ link, lookupField link accumulator = None ∨
           ∃ byLocale, lookupField link accumulator = Some (VObj byLocale)) →
  (∀ link locale, cell link locale accumulator = lastFor link locale done) →
  ∃ events,
    pushBillboard accumulator e w = (Returned events, w) ∧
    (∀ link, lookupField link events = None ∨
             ∃ byLocale, lookupField link events = Some (VObj byLocale)) ∧
    (∀ link locale,
       cell link locale events = lastFor link locale (done ++ [e])).
Proof.
  intros He Hobj Hcell. unfold pushBillboard.
  rewrite getPropOrThrow_bind by done.
  eexists. split; [reflexivity|]. split.
  - intros link.
    destruct (decide (link = toKey (getProp "callToActionLink" e)))
      as [->|Hne].
    + right. eexists. apply lookupField_setField_eq.
    + rewrite lookupField_setField_ne by done. apply Hobj.
  - intros link locale. rewrite lastFor_snoc. unfold cell at 1.
    destruct (decide (link = toKey (getProp "callToActionLink" e)))
      as [->|Hne].
    + rewrite lookupField_setField_eq.
      destruct (decide (locale = toKey (getProp "locale" e))) as [->|Hl].
      * rewrite lookupField_setField_eq. by rewrite decide_True.
      * rewrite lookupField_setField_ne by done.
        rewrite decide_False by (intros [_ ?]; done).
        rewrite <- Hcell. unfold cell.
        destruct (Hobj (toKey (getProp "callToActionLink" e)))
          as [->|[byLocale ->]]; done.
    + rewrite lookupField_setField_ne by done.
      rewrite decide_False by (intros [? _]; done).
      apply Hcell.
Qed.

Lemma reduceM_pushBillboard items : ∀ accumulator done w,
  Forall (λ e, nullish e = false) items →
  (∀ link, lookupField link accumulator = None ∨
           ∃ byLocale, lookupField link accumulator = Some (VObj byLocale)) →
  (∀ link locale, cell link locale accumulator = lastFor link locale done) →
  ∃ events,
    reduceM pushBillboard items accumulator w = (Returned events, w) ∧
    ∀ link locale,
      cell link locale events = lastFor link locale (done ++ items).
Proof.
  induction items as [|e items IH];
    intros accumulator done w Hall Hobj Hcell.
  { exists accumulator. by rewrite app_nil_r. }
  apply Forall_cons in Hall as [He Hall].
  destruct (pushBillboard_eq accumulator done e w He Hobj Hcell)
    as (events1 & Hstep & Hobj1 & Hcell1).
  destruct (IH events1 (done ++ [e]) w Hall Hobj1 Hcell1)
    as (events & Hrun & Hcells).
  exists events. split.
  - cbn [reduceM]. by rewrite bind_eq, Hstep.
  - intros link locale. by rewrite Hcells, <- app_assoc.
Qed.

(** X19.  With a selected address and a response whose data is an array
    of events, [getBillboardContents] stores one object in the billboard
    store: under a link and a locale the last event of the response with
    that link and that locale, and nothing where the response has none.
    Without a selected address nothing is requested and nothing stored. *)
Theorem getBillboardContents_last resp items w :
  let call := mkApiCall GET (config_api +:+ "/billboard") VUndefined
                        (Some (headers "" w)) in
  let w' := (getBillboardContents w).2 in
  (truthy (selectedAddress w) = false →
   getBillboardContents w = (Returned tt, w)) ∧
  (truthy (selectedAddress w) = true →
   apiRequest call = Resolved resp →
   getProp "data" resp = VArr items →
   Forall readableEvent items →
   ∃ events,
     billboardStore w' = VObj events ∧
     (∀ link locale, cell link locale events = lastFor link locale items) ∧
     store w' = store w ∧ errorStore w' = errorStore w).
Proof.
  intros call w'. split.
  { intros Hsel. unfold getBillboardContents.
    erewrite tryCatch_returned; [reflexivity|].
    by rewrite bind_gets, Hsel. }
  intros Hsel Hcall Hdata Hitems.
  assert (nullish resp = false) as Hresp by (by destruct resp).
  destruct (reduceM_pushBillboard items [] []
              (setTrace (trace w ++ [EApi call]) w))
    as (events & Hrun & Hcells).
  { eapply Forall_impl; [exact Hitems|]. by intros e [He _]. }
  { by left. }
  { done. }
  exists events. unfold w', getBillboardContents.
  erewrite tryCatch_returned; last first.
  { rewrite bind_gets, Hsel. cbn [negb].
    rewrite bind_gets, apiCall_bind. fold call. rewrite Hcall.
    rewrite getPropOrThrow_bind by done. rewrite Hdata.
    rewrite bind_eq, Hrun. reflexivity. }
  by split_and!.
Qed.

End AnnouncementFacts.


(** ** Payments, [sync], [init], timers *)

Lemma foldl_push {A B} (f : A → B) (l : list A) (acc : list B) :
  foldl (λ acc x, acc ++ [f x]) acc l = acc ++ (f <$> l).
Proof.
  revert acc. induction l as [|x l IH]; intros acc; simpl.
  { by rewrite app_nil_r. }
  by rewrite IH, <- app_assoc.
Qed.

Lemma includes_empty s : includes "" s = true.
Proof. by destruct s. Qed.

Lemma prefix_refl s : String.prefix s s = true.
Proof.
  induction s as [|c s IH]; [done|]. simpl.
  by destruct (Ascii.ascii_dec c c).
Qed.

Lemma includes_refl s : includes s s = true.
Proof. destruct s; [done|]. cbn [includes]. by rewrite prefix_refl. Qed.

Section SyncFacts.

Context `{U : !Utils, E : !Enums, P : !Platform, R : !Remote}.

(** X20.  [calculatePaymentTx] sends nothing and leaves, under the key of
    the address, a record whose [paymentTx] is the list of the formatted
    payments, one for each payment of the input and in its order; the
    payments stored before are replaced, not extended. *)
Theorem calculatePaymentTx_replaces txs address w :
  let w' := (calculatePaymentTx txs address w).2 in
  (calculatePaymentTx txs address w).1 = Returned tt ∧
  getProp "paymentTx"
    (default VUndefined (store w' !! addressOrSelected address w))
    = VArr (formatPayment <$> txs) ∧
  trace w' = trace w.
Proof.
  intros w'. unfold w', calculatePaymentTx.
  rewrite bind_eq, updateStore_eq, foldl_push. wsimpl.
  split_and!; try done.
  rewrite lookup_insert_eq. cbn [default].
  apply getProp_deepmerge_single; [solve_key|by right; eexists].
Qed.

(** X21.  The action of a formatted payment is one of the three activity
    constants or the empty string.  It is the top-up constant whenever
    the payment's action, in lower case, is the top-up constant itself,
    and also when the payment's action is empty: the empty string is
    included in every string. *)
Theorem paymentAction_cases x :
  paymentAction x ∈ [ACTIVITY_ACTION_TOPUP; ACTIVITY_ACTION_SEND;
                     ACTIVITY_ACTION_RECEIVE; ""] ∧
  (pay_action x = "" → paymentAction x = ACTIVITY_ACTION_TOPUP) ∧
  (toLowerCase (pay_action x) = ACTIVITY_ACTION_TOPUP →
   paymentAction x = ACTIVITY_ACTION_TOPUP).
Proof.
  unfold paymentAction. split_and!.
  - repeat case_match; set_solver.
  - intros ->. cbn [toLowerCase]. by rewrite includes_empty.
  - intros ->. by rewrite includes_refl.
Qed.

Lemma whiteLabelLocale_eq w :
  ∃ evs, whiteLabelLocale w =
         (Returned whiteLabelDefaultLanguage, setTrace (trace w ++ evs) w).
Proof.
  unfold whiteLabelLocale, whiteLabelDefaultLanguage.
  destruct torusWhiteLabel as [[parsed|error]|].
  - unfold tryCatch, getPropOrThrow.
    destruct parsed; cbn [nullish].
    1,2: exists [ELog LError
                   [TypeError
                      ("Cannot read properties of undefined (reading '"
                       +:+ "defaultLanguage" +:+ "')")]];
         unfold throw, log; by rewrite bind_emit.
    all: exists []; destruct w; by rewrite app_nil_r.
  - eexists. unfold log. by rewrite bind_emit.
  - exists []. destruct w. by rewrite app_nil_r.
Qed.

Lemma forEach_addCustomNetwork customNetworks : ∀ w,
  ∃ r evs,
    forEach addCustomNetwork customNetworks w
      = (r, setTrace (trace w ++ evs) w) ∧
    (forallb (λ i, negb (nullish i)) customNetworks = true →
     r = Returned tt) ∧
    (forallb (λ i, negb (nullish i)) customNetworks = false →
     ∃ e, r = Thrown e).
Proof.
  induction customNetworks as [|i l IH]; intros w.
  { exists (Returned tt), []. destruct w. by rewrite app_nil_r. }
  cbn [forEach forallb]. destruct (nullish i) eqn:Hi; cbn [negb andb].
  - destruct (getPropOrThrow_nullish (B := unit) "block_explorer_url" i
                (λ blockExplorer,
                   emit (EAddSupportedNetworks
                     (VObj [("blockExplorer", blockExplorer);
                            ("chainId", getProp "chain_id" i);
                            ("host", getProp "rpc_url" i);
                            ("networkName", getProp "network_name" i);
                            ("ticker", getProp "symbol" i);
                            ("id", getProp "id" i)]))) w Hi) as [e He].
    exists (Thrown e), []. split_and!; [|done|by eexists].
    rewrite bind_eq. unfold addCustomNetwork. rewrite He.
    destruct w. by rewrite app_nil_r.
  - rewrite bind_eq. unfold addCustomNetwork at 1.
    rewrite getPropOrThrow_bind by done. unfold emit at 1.
    cbv beta iota.
    destruct (IH (setTrace (trace w ++
                    [EAddSupportedNetworks
                       (VObj [("blockExplorer",
                               getProp "block_explorer_url" i);
                              ("chainId", getProp "chain_id" i);
                              ("host", getProp "rpc_url" i);
                              ("networkName", getProp "network_name" i);
                              ("ticker", getProp "symbol" i);
                              ("id", getProp "id" i)])]) w))
      as (r & evs & Hrun & Hok & Hbad).
    exists r. eexists. split_and!; [|done|done].
    rewrite Hrun. wsimpl. by rewrite <- app_assoc.
Qed.

(** X22.  Without a user, [sync] gives [undefined] and writes nothing:
    when the user request is rejected the error is logged as a warning,
    when it resolves without data nothing is logged.  In both cases the
    two order requests still leave, and their chain is left pending. *)
Theorem sync_without_user address w :
  let call := mkApiCall GET (config_api +:+ "/user?fetchTx=false")
                        VUndefined (Some (headers address w)) in
  let orders := [EWalletOrders (headers address w);
                 EPastOrders (headers address w)] in
  let pending := background w ++
                 [OrdersFetched address (headers address w)] in
  (∀ error, apiRequest call = Rejected error →
     sync address w =
     (Returned VUndefined,
      setBackground pending
        (setTrace (trace w ++ [EApi call; ELog LWarn [error]] ++ orders)
                  w))) ∧
  (∀ user, apiRequest call = Resolved user →
     truthy (getProp "data" user) = false →
     sync address w =
     (Returned VUndefined,
      setBackground pending
        (setTrace (trace w ++ [EApi call] ++ orders) w))).
Proof.
  intros call orders pending. split.
  - intros error Hcall.
    assert (tryCatch (syncUser address)
              (λ error, log LWarn [error];; mret VUndefined) w =
            (Returned VUndefined,
             setTrace (trace w ++ [EApi call; ELog LWarn [error]]) w))
      as Htry.
    { erewrite tryCatch_thrown; last first.
      { unfold syncUser. rewrite bind_gets, apiCall_bind. fold call.
        by rewrite Hcall. }
      unfold log. rewrite bind_emit. wsimpl. by rewrite <- app_assoc. }
    unfold sync. rewrite bind_eq, Htry, bind_eq, fetchOrders_eq. wsimpl.
    unfold pending, orders. by rewrite <- !app_assoc.
  - intros user Hcall Hdata.
    assert (tryCatch (syncUser address)
              (λ error, log LWarn [error];; mret VUndefined) w =
            (Returned VUndefined, setTrace (trace w ++ [EApi call]) w))
      as Htry.
    { erewrite tryCatch_returned; [reflexivity|].
      unfold syncUser. rewrite bind_gets, apiCall_bind. fold call.
      by rewrite Hcall, Hdata. }
    unfold sync. rewrite bind_eq, Htry, bind_eq, fetchOrders_eq. wsimpl.
    unfold pending, orders. by rewrite <- !app_assoc.
Qed.

(** X23.  With a user, [sync] writes the record under the key of the
    response's [public_address] (of the address asked for only when the
    response has none): the record there is the deep-merge of what was
    there, or of the default, with a partial state whose locale is the
    white-label language, else the user's, else the browser's, and whose
    default public address falls back to the public address.  The result
    is the response when the data carries a readable array of custom
    networks, and [undefined] otherwise, although the record is
    written.  The key is not named like a member of [Object.prototype],
    for which [state] would find the inherited member. *)
Theorem sync_found address user w :
  let call := mkApiCall GET (config_api +:+ "/user?fetchTx=false")
                        VUndefined (Some (headers address w)) in
  let data := getProp "data" user in
  let public_address := getProp "public_address" data in
  let target := if truthy public_address then toKey public_address
                else "" in
  let w' := (sync address w).2 in
  addressOrSelected target w ∉ objectPrototypeKeys →
  apiRequest call = Resolved user →
  truthy data = true →
  (sync address w).1 =
    Returned (if customNetworksOk data then user else VUndefined) ∧
  ∃ partial,
    store w' =
      <[addressOrSelected target w :=
        deepmerge (orElse (state target w)
                          (cloneDeep DEFAULT_ACCOUNT_STATE))
                  (VObj partial)]> (store w) ∧
    lookupField "locale" partial =
      Some (orElse whiteLabelDefaultLanguage
              (orElse (getProp "locale" data) (VStr getUserLanguage))) ∧
    lookupField "defaultPublicAddress" partial =
      Some (orElse (getProp "default_public_address" data)
                   public_address).
Proof.
  intros call data public_address target w' _ Hcall Hdata.
  destruct (whiteLabelLocale_eq (setTrace (trace w ++ [EApi call]) w))
    as [evs1 Hwl].
  set (partial :=
    [("contacts", getProp "contacts" data);
     ("theme", getProp "theme" data);
     ("crashReport", VBool (truthy (getProp "enable_crash_reporter" data)));
     ("selectedCurrency", getProp "default_currency" data);
     ("locale", orElse whiteLabelDefaultLanguage
                  (orElse (getProp "locale" data) (VStr getUserLanguage)));
     ("permissions", getProp "permissions" data);
     ("accountType", orElse (getProp "account_type" data)
                            (VStr ACCOUNT_TYPE_NORMAL));
     ("defaultPublicAddress",
      orElse (getProp "default_public_address" data) public_address);
     ("customTokens", getProp "customTokens" data);
     ("customNfts", getProp "customNfts" data)]).
  set (merged := deepmerge (orElse (state target w)
                                   (cloneDeep DEFAULT_ACCOUNT_STATE))
                           (VObj partial)).
  assert (∃ w1,
    tryCatch (syncUser address)
             (λ error, log LWarn [error];; mret VUndefined) w =
    (Returned (if customNetworksOk data then user else VUndefined), w1) ∧
    store w1 = <[addressOrSelected target w := merged]> (store w))
    as (w1 & Htry & Hstore).
  { set (w2 := setStore (<[addressOrSelected target w := merged]> (store w))
                 (setTrace (trace (setTrace (trace w ++ [EApi call]) w)
                            ++ evs1)
                           (setTrace (trace w ++ [EApi call]) w))).
    assert (∀ rest : M JsVal,
      (syncUser address w =
       ((match getProp "customNetworks" data with
         | VArr customNetworks => forEach addCustomNetwork customNetworks
         | _ => throw (TypeError "customNetworks.forEach is not a function")
         end;;
         emit (ESetSentryEnabled
                 (truthy (getProp "enable_crash_reporter" data)));;
         mret user) w2))) as Hbody.
    { intros _. unfold syncUser.
      rewrite bind_gets, apiCall_bind. fold call. rewrite Hcall.
      fold data. rewrite Hdata.
      rewrite bind_eq, Hwl. fold public_address target partial.
      rewrite bind_eq, updateStore_eq. reflexivity. }
    specialize (Hbody (mret VUndefined)).
    unfold tryCatch, customNetworksOk. rewrite Hbody. fold data.
    destruct (getProp "customNetworks" data) as [| | | | | |items| |];
      try (eexists; split;
           [rewrite bind_throw; unfold log; rewrite bind_emit; reflexivity
           |done]).
    destruct (forEach_addCustomNetwork items w2)
      as (r & evs & Hrun & Hok & Hbad).
    rewrite bind_eq, Hrun.
    destruct (forallb (λ i, negb (nullish i)) items).
    - rewrite (Hok eq_refl). rewrite bind_emit.
      eexists. split; [reflexivity|done].
    - destruct (Hbad eq_refl) as [e ->].
      unfold log. rewrite bind_emit.
      eexists. split; [reflexivity|done]. }
  destruct (sync_eq address w) as (user' & w1' & Htry' & _ & Hsync).
  rewrite Htry in Htry'. injection Htry' as <- <-.
  unfold w'. rewrite Hsync. wsimpl. split; [done|].
  exists partial. by split_and!.
Qed.

(** X24.  The polling callback does nothing for a logged-out user: with
    no selected address, or no token in its record, the world is left as
    it is.  With both it runs [sync] for the selected address, and it
    never throws. *)
Theorem pollTick_guard w :
  (pollTick w).1 = Returned tt ∧
  (truthy (selectedAddress w) = false ∨
   truthy (getProp "jwtToken" (state "" w)) = false →
   pollTick w = (Returned tt, w)) ∧
  (truthy (selectedAddress w) = true →
   truthy (getProp "jwtToken" (state "" w)) = true →
   (pollTick w).2 = (sync (toKey (selectedAddress w)) w).2).
Proof.
  assert (∀ address,
    detach (sync address;; mret tt) w = (Returned tt, (sync address w).2))
    as Hdetach.
  { intros address. unfold detach.
    destruct (sync_eq address w) as (user & w1 & _ & _ & Hsync).
    erewrite tryCatch_returned; [reflexivity|].
    by rewrite bind_eq, Hsync. }
  unfold pollTick. rewrite !bind_gets.
  destruct (truthy (selectedAddress w)); cbn [negb].
  - rewrite bind_gets.
    destruct (truthy (getProp "jwtToken" (state "" w))); cbn [negb].
    + rewrite Hdetach. split_and!; [done| |done]. by intros [|].
    + by split_and!.
  - by split_and!.
Qed.

(** X25.  [init] signs no message that does not begin with
    'Torus Signin'.  For an address without a record and without a token
    passed in: when the message request answers with another string,
    [init] throws 'Cannot sign on invalid message'; when the request is
    rejected it throws as well.  In both cases nothing is signed, no
    verification is requested and the stores are as before.  The address
    is not named like a member of [Object.prototype], for which [state]
    would find the inherited member. *)
Theorem init_refuses_to_sign o w :
  let call := mkApiCall POST (config_api +:+ "/auth/message")
                (VObj [("public_address", VStr (init_address o))]) None in
  addressOrSelected (init_address o) w ∉ objectPrototypeKeys →
  truthy (state (init_address o) w) = false →
  truthy (init_jwtToken o) = false →
  (∀ response m,
     apiRequest call = Resolved response →
     getProp "message" response = VStr m →
     startsWith "Torus Signin" m = false →
     init o w = (Thrown (VError "Cannot sign on invalid message"),
                 setTrace (trace w ++ [EApi call]) w)) ∧
  (∀ error,
     apiRequest call = Rejected error →
     ∃ e, init o w = (Thrown e,
                      setTrace (trace w ++ [EApi call; ELog LError [error]])
                               w)).
Proof.
  intros call _ Hstate Htoken. split.
  - intros response m Hcall Hmessage Hprefix.
    assert (nullish response = false) as Hresp by (by destruct response).
    assert (getMessageForSigning (init_address o) w =
            (Returned (VStr m), setTrace (trace w ++ [EApi call]) w))
      as Hmsg.
    { unfold getMessageForSigning.
      erewrite tryCatch_returned; [reflexivity|].
      rewrite apiCall_bind. fold call. rewrite Hcall.
      unfold getPropOrThrow. rewrite <- Hmessage. by destruct response. }
    unfold init. rewrite bind_gets, Hstate, bind_eq, Htoken. cbn [negb].
    by rewrite bind_eq, Hmsg, Hprefix.
  - intros error Hcall.
    assert (getMessageForSigning (init_address o) w =
            (Returned VUndefined,
             setTrace (trace w ++ [EApi call; ELog LError [error]]) w))
      as Hmsg.
    { unfold getMessageForSigning.
      erewrite tryCatch_thrown; last first.
      { rewrite apiCall_bind. fold call. by rewrite Hcall. }
      unfold log. rewrite bind_emit. wsimpl. by rewrite <- app_assoc. }
    eexists. unfold init.
    rewrite bind_gets, Hstate, bind_eq, Htoken. cbn [negb].
    by rewrite bind_eq, Hmsg.
Qed.

Lemma detach_apiCall call w :
  detach (apiCall call;; mret tt) w =
  (Returned tt,
   setTrace (trace w ++ EApi call ::
               match apiRequest call with
               | Resolved _ => []
               | Rejected error => [EUnhandledRejection error]
               end) w).
Proof.
  unfold detach, tryCatch. rewrite apiCall_bind.
  destruct (apiRequest call) as [response|error]; [done|].
  unfold emit. wsimpl. by rewrite <- app_assoc.
Qed.

(** X26.  The login is recorded once.  [storeUserLogin] without rehydrate
    starts one repeating timer of a second.  A tick while the page URL
    names a referrer that cannot be read yet changes nothing, and the
    timer stays; any other tick sends the one recordLogin request and
    removes the timer, so that the timers are those from before. *)
Theorem recordLogin_once verifier verifierId (calledFromEmbed : bool) address w :
  let userOrigin :=
    if calledFromEmbed then getIFrameOrigin else locationOrigin in
  let cb := RecordLogin userOrigin verifier verifierId address in
  let id := nextTimer w in
  let w1 :=
    (storeUserLogin verifier verifierId calledFromEmbed false address w).2 in
  let call := mkApiCall POST (config_api +:+ "/user/recordLogin")
                (VObj [("hostname", VStr userOrigin);
                       ("verifier", verifier);
                       ("verifierId", verifierId);
                       ("metadata", VStr ("referrer:" +:+ referrer))])
                (Some (headers address w)) in
  Forall (λ t, timerId t ≠ nextTimer w) (timers w) →
  timers w1 = timers w ++ [mkTimer id true 1000 cb] ∧
  (hrefHasReferrer && String.eqb referrer "" = true →
   runCallback id cb w1 = (Returned tt, w1)) ∧
  (hrefHasReferrer && String.eqb referrer "" = false →
   (runCallback id cb w1).1 = Returned tt ∧
   timers (runCallback id cb w1).2 = timers w ∧
   store (runCallback id cb w1).2 = store w ∧
   trace (runCallback id cb w1).2 =
     trace w ++ EApi call ::
       match apiRequest call with
       | Resolved _ => []
       | Rejected error => [EUnhandledRejection error]
       end).
Proof.
  intros userOrigin cb id w1 call Hfresh.
  assert (w1 = setTimers (timers w ++ [mkTimer id true 1000 cb])
                         (S (nextTimer w)) w) as Hw1.
  { unfold w1, storeUserLogin. cbn [negb]. by rewrite bind_eq. }
  split_and!.
  - by rewrite Hw1.
  - intros Hwait. unfold cb. cbn [runCallback]. by rewrite Hwait.
  - intros Hgo. unfold cb. cbn [runCallback]. rewrite Hgo.
    rewrite bind_gets.
    replace (headers address w1) with (headers address w) by (by rewrite Hw1).
    fold userOrigin call.
    assert (filter (λ t, timerId t ≠ id)
                   (timers w ++ [mkTimer id true 1000 cb]) = timers w)
      as Hfilter.
    { rewrite filter_app, filter_cons, filter_nil.
      rewrite decide_False by (cbn [timerId]; naive_solver).
      rewrite app_nil_r. clear -Hfresh.
      induction Hfresh as [|t l Ht _ IH]; [done|].
      rewrite filter_cons, decide_True by done. by f_equal. }
    rewrite bind_eq, detach_apiCall. fold call.
    unfold clearInterval, modify. rewrite Hw1. wsimpl.
    rewrite Hfilter. split_and!; reflexivity.
Qed.

(** X27.  When every transaction of the address on the current network
    is confirmed, and none has a nonce named like a member of
    [Object.prototype], [calculatePastTx] returns and asks nothing: no
    status is looked up, nothing is patched, and the stored past
    transactions are the cancel calculation of those transactions,
    formatted, in their order. *)
Theorem calculatePastTx_all_confirmed txs address w :
  let w' := (calculatePastTx txs address w).2 in
  let networkId := networkIdentifier w in
  let formatted := (λ x, formatPastTx x (toLowerCase address)) <$>
                     filter (λ x, relevantTo address networkId x) txs in
  Forall (λ x, relevantTo address networkId x → isConfirmed x) txs →
  Forall (λ x, nonce x ∉ objectPrototypeKeys) formatted →
  (calculatePastTx txs address w).1 = Returned tt ∧
  trace w' = trace w ∧
  ∃ finalTx,
    cancelTxCalculate formatted = Some finalTx ∧
    getProp "pastTransactions"
      (default VUndefined (store w' !! addressOrSelected address w))
      = VArr (jsOfTx <$> finalTx).
Proof.
  intros w' networkId formatted Hall Hown.
  assert (filter (λ x, relevantTo address networkId x ∧ ¬ isConfirmed x) txs
          = []) as Hpending.
  { clear Hown. induction Hall as [|x l Hx _ IH]; [done|].
    rewrite filter_cons, decide_False by naive_solver. exact IH. }
  assert (filter (λ x, relevantTo address networkId x ∧ isConfirmed x) txs
          = filter (λ x, relevantTo address networkId x) txs) as Hconf.
  { clear Hpending Hown formatted w'.
    induction Hall as [|x l Hx _ IH]; [done|].
    rewrite !filter_cons, IH. repeat case_decide; naive_solver. }
  pose proof (cancelTxCalculate_imap formatted Hown) as Hfinal.
  unfold w', calculatePastTx.
  rewrite bind_gets, foldl_sortOut. fold networkId.
  rewrite Hpending, Hconf. cbn [fst snd app forEach mapM zip zip_with].
  rewrite bind_ret, bind_ret. cbn [pushResolved]. rewrite bind_ret.
  fold formatted. rewrite Hfinal.
  rewrite bind_eq, updateStore_eq. wsimpl. split_and!; [done..|].
  eexists. split; [reflexivity|].
  rewrite lookup_insert_eq. cbn [default].
  apply getProp_deepmerge_single; [solve_key|by right; eexists].
Qed.

Lemma mergedPastTx_inherited txs address networkId :
  Exists (λ x, relevantTo address networkId x ∧
               nonce (formatPastTx x (toLowerCase address))
                 ∈ objectPrototypeKeys) txs →
  Exists (λ y, nonce y ∈ objectPrototypeKeys)
         (mergedPastTx txs address networkId).
Proof.
  intros (x & Hx & Hr & Hn)%Exists_exists.
  apply Exists_exists. unfold mergedPastTx.
  destruct (decide (isConfirmed x)) as [Hc|Hc].
  - exists (formatPastTx x (toLowerCase address)). split; [|done].
    apply elem_of_app. left. apply list_elem_of_fmap.
    exists x. split; [done|]. by apply list_elem_of_filter.
  - exists (setStatus (lookedUpStatus x)
                      (formatPastTx x (toLowerCase address))).
    split; [|done].
    apply elem_of_app. right. apply list_elem_of_fmap.
    exists x. split; [done|]. by apply list_elem_of_filter.
Qed.

(** X30.  When a transaction of the address on the current network is
    formatted with a nonce named like a member of [Object.prototype],
    [calculatePastTx] throws, from the first loop of the cancel
    calculation, and the account store is as before. *)
Theorem calculatePastTx_inherited_nonce txs address w :
  let w' := (calculatePastTx txs address w).2 in
  let networkId := networkIdentifier w in
  Exists (λ x, relevantTo address networkId x ∧
               nonce (formatPastTx x (toLowerCase address))
                 ∈ objectPrototypeKeys) txs →
  (∃ error, (calculatePastTx txs address w).1 = Thrown error) ∧
  store w' = store w.
Proof.
  intros w' networkId Hex. unfold w'.
  destruct (calculatePastTx_eq txs address w) as [evs ->].
  fold networkId.
  rewrite cancelTxCalculate_throws by by apply mergedPastTx_inherited.
  split; [by eexists|done].
Qed.

End SyncFacts.


(** ** The login buttons of the popup *)

(** X28.  A login started from the buttons ends with the modal shown
    again, whether the login succeeded or not.  A login that fails is
    logged and closes the dialog: [closeDialog] is emitted once, after what
    was emitted before.  A login that succeeds emits and logs nothing. *)
Theorem startLogin_restores_modal triggerLogin verifier email c :
  let c' := PopupLogin.fire triggerLogin PopupLogin.LoginButtons
              (PopupLogin.TriggerLogin verifier email) c in
  PopupLogin.showModal c' = true ∧
  PopupLogin.dialogShown c' = PopupLogin.loginDialog c ∧
  PopupLogin.viewMoreOptions c' = PopupLogin.viewMoreOptions c ∧
  match triggerLogin with
  | Resolved _ =>
      PopupLogin.emitted c' = PopupLogin.emitted c ∧
      PopupLogin.logged c' = PopupLogin.logged c
  | Rejected error =>
      PopupLogin.emitted c' = PopupLogin.emitted c ++ ["closeDialog"] ∧
      PopupLogin.logged c' = PopupLogin.logged c ++ [error]
  end.
Proof.
  intros c'. unfold c', PopupLogin.fire, PopupLogin.dialogShown.
  cbn [PopupLogin.listener PopupLogin.run]. unfold PopupLogin.startLogin.
  destruct triggerLogin as [v|error]; cbn; by rewrite andb_true_r.
Qed.


(** ** More examples on the sample environment *)

#[local] Existing Instance sampleUtils.
#[local] Existing Instance sampleEnums.
#[local] Existing Instance samplePlatform.

Ltac by_computation := apply (bool_decide_unpack _); vm_compute; exact I.

Lemma cancelTxCalculate_no_collision_witness :
  Forall (λ x, nonce x ∉ objectPrototypeKeys)
         [sampleTx "7" 10 "submitted"; sampleTx "8" 20 "confirmed"] ∧
  NoDup (nonce <$> [sampleTx "7" 10 "submitted"; sampleTx "8" 20 "confirmed"]) ∧
  cancelTxCalculate [sampleTx "7" 10 "submitted"; sampleTx "8" 20 "confirmed"]
    = Some [sampleTx "7" 10 "submitted"; sampleTx "8" 20 "confirmed"].
Proof.
  assert (Forall (λ x, nonce x ∉ objectPrototypeKeys)
                 [sampleTx "7" 10 "submitted"; sampleTx "8" 20 "confirmed"])
    as Hown by (repeat constructor; solve_key).
  assert (NoDup (nonce <$> [sampleTx "7" 10 "submitted";
                            sampleTx "8" 20 "confirmed"])) as Hnd
    by by_computation.
  split; [exact Hown|]. split; [exact Hnd|].
  exact (cancelTxCalculate_no_collision _ Hown Hnd).
Defined.

Lemma cancelTxCalculate_keeps_witness :
  Forall (λ x, nonce x ∉ objectPrototypeKeys) samplePastTx ∧
  ∃ result,
    cancelTxCalculate samplePastTx = Some result ∧
    nonce <$> result = ["7"; "8"; "7"] ∧
    date <$> result = [10; 20; 30]%Z.
Proof.
  assert (Forall (λ x, nonce x ∉ objectPrototypeKeys) samplePastTx) as Hown
    by (repeat constructor; solve_key).
  split; [exact Hown|].
  destruct (cancelTxCalculate_keeps samplePastTx Hown)
    as (result & Hresult & Hnonce & Hdate & _).
  exists result. split; [exact Hresult|].
  split; [exact Hnonce|exact Hdate].
Defined.

Lemma cancelTxCalculate_idempotent_witness :
  Forall (λ x, nonce x ∉ objectPrototypeKeys) samplePastTx ∧
  ∃ result,
    cancelTxCalculate samplePastTx = Some result ∧
    cancelTxCalculate result = Some result.
Proof.
  assert (Forall (λ x, nonce x ∉ objectPrototypeKeys) samplePastTx) as Hown
    by (repeat constructor; solve_key).
  split; [exact Hown|].
  exact (cancelTxCalculate_idempotent samplePastTx Hown).
Defined.

Lemma cancelTxCalculate_tie_first_witness :
  Forall (λ x, nonce x ∉ objectPrototypeKeys) sampleTie ∧
  sampleTie !! 1 = Some (sampleTx "7" 10 "confirmed") ∧
  sampleTie !! 0 = Some (sampleTx "7" 10 "submitted") ∧
  ∃ result marked other,
    cancelTxCalculate sampleTie = Some result ∧
    result !! 0 = Some marked ∧ is_cancel marked = VBool true ∧
    result !! 1 = Some other ∧ is_cancel other = VBool false ∧
    hasCancel other = VBool true.
Proof.
  assert (Forall (λ x, nonce x ∉ objectPrototypeKeys) sampleTie) as Hown
    by (repeat constructor; solve_key).
  split; [exact Hown|]. split; [reflexivity|]. split; [reflexivity|].
  destruct (cancelTxCalculate_tie_first sampleTie
              1 (sampleTx "7" 10 "confirmed")
              0 (sampleTx "7" 10 "submitted") Hown)
    as (result & latest & latestCancelTx & marked & Hresult & Hlatest & _ &
        Hfirst & Hmarked & Hcancel & _ & Hothers);
    [reflexivity|reflexivity|reflexivity|discriminate|].
  assert (latest = 0) as ->.
  { destruct (Hfirst 0 (sampleTx "7" 10 "submitted") eq_refl eq_refl)
      as [_ Hle].
    destruct latest as [|[|latest]]; [reflexivity| |discriminate].
    injection Hlatest as <-. specialize (Hle eq_refl). lia. }
  destruct (Hothers 1 (sampleTx "7" 10 "confirmed"))
    as (other & Hother & Hkeeps & Hhas); [discriminate|reflexivity..|].
  exists result, marked, other.
  split; [exact Hresult|]. split; [exact Hmarked|]. split; [exact Hcancel|].
  split; [exact Hother|]. split; [exact Hkeeps|exact Hhas].
Defined.

Lemma updateStore_flat_override_witness :
  (addressOrSelected "0xab" sampleWorld ∉ objectPrototypeKeys) ∧
  state "0xab" sampleWorld = sampleAccount ∧
  ∃ merged,
    (updateStore [("theme", VStr "dark"); ("toString", VStr "shadow")]
                 "0xab" sampleWorld).1
      = Returned (VObj merged) ∧
    ownProperty "theme" (VObj merged) = Some (VStr "dark") ∧
    ownProperty "toString" (VObj merged) = None ∧
    ownProperty "jwtToken" (VObj merged) = Some (VStr "token").
Proof.
  assert (addressOrSelected "0xab" sampleWorld ∉ objectPrototypeKeys)
    as Hkey by solve_key.
  split; [exact Hkey|]. split; [reflexivity|].
  destruct (updateStore_flat_override
              [("theme", VStr "dark"); ("toString", VStr "shadow")] "0xab"
              sampleWorld
              [("selectedCurrency", VStr "USD"); ("theme", VStr "light-blue");
               ("jwtToken", VStr "token"); ("defaultPublicAddress", VStr "")]
              Hkey)
    as (merged & Hret & _ & Hprops).
  - reflexivity.
  - split; [by_computation|]. repeat constructor.
  - repeat (apply Forall_cons; split; [solve_key|]). apply Forall_nil_2.
  - split; [by_computation|]. repeat constructor.
  - exists merged. split; [exact Hret|].
    split; [exact (Hprops "theme")|].
    split; [exact (Hprops "toString")|exact (Hprops "jwtToken")].
Defined.

Lemma updateStore_new_address_witness :
  (addressOrSelected "0xcd" sampleWorld ∉ objectPrototypeKeys) ∧
  store sampleWorld !! addressOrSelected "0xcd" sampleWorld = None ∧
  ∃ merged,
    store (updateStore [("theme", VStr "dark"); ("valueOf", VNum 1)] "0xcd"
             sampleWorld).2 !! "0xcd"
      = Some (VObj merged) ∧
    ownProperty "theme" (VObj merged) = Some (VStr "dark") ∧
    ownProperty "valueOf" (VObj merged) = None ∧
    ownProperty "selectedCurrency" (VObj merged) = Some (VStr "USD").
Proof.
  assert (addressOrSelected "0xcd" sampleWorld ∉ objectPrototypeKeys)
    as Hkey by solve_key.
  split; [exact Hkey|]. split; [reflexivity|].
  destruct (updateStore_new_address
              [("theme", VStr "dark"); ("valueOf", VNum 1)] "0xcd"
              sampleWorld Hkey)
    as (merged & _ & Hstored & Hprops).
  - reflexivity.
  - split; [by_computation|]. repeat constructor.
  - exists merged. split; [exact Hstored|].
    split; [exact (Hprops "theme")|].
    split; [exact (Hprops "valueOf")|exact (Hprops "selectedCurrency")].
Defined.

Lemma updateStore_then_state_witness :
  addressOrSelected "0xab" sampleWorld ≠ "selectedAddress" ∧
  (updateStore [("theme", VStr "dark")] "0xab" sampleWorld).1 =
  Returned (state "0xab"
              (updateStore [("theme", VStr "dark")] "0xab" sampleWorld).2).
Proof.
  assert (addressOrSelected "0xab" sampleWorld ≠ "selectedAddress") as Hkey
    by discriminate.
  split; [exact Hkey|].
  exact (updateStore_then_state [("theme", VStr "dark")] "0xab" sampleWorld
           Hkey).
Defined.

Lemma updateStore_token_headers_witness :
  addressOrSelected "0xcd" sampleWorld ≠ "selectedAddress" ∧
  headers "0xcd" (updateStore [("jwtToken", VStr "fresh")] "0xcd"
                    sampleWorld).2
    = "Bearer fresh".
Proof.
  assert (addressOrSelected "0xcd" sampleWorld ≠ "selectedAddress") as Hkey
    by discriminate.
  split; [exact Hkey|].
  exact (updateStore_token_headers "fresh" "0xcd" sampleWorld Hkey).
Defined.

Lemma setSelectedCurrency_again_witness :
  getProp "selectedCurrency" (state "" sampleWorld) = VStr "USD" ∧
  setSelectedCurrency (R := answeringRemote) "EUR"
    (setSelectedCurrency (R := answeringRemote) "EUR" sampleWorld).2 =
  (Returned tt, (setSelectedCurrency (R := answeringRemote) "EUR" sampleWorld).2).
Proof.
  split; [reflexivity|].
  apply (setSelectedCurrency_again (R := answeringRemote) "EUR"
           (VObj [("data", VObj [("id", VNum 1)])]) sampleWorld).
  - discriminate.
  - discriminate.
  - reflexivity.
Defined.

Lemma setDefaultPublicAddress_then_init_witness :
  init_address sampleInit = "0xab" ∧
  init (R := answeringRemote) sampleInit
    (setDefaultPublicAddress (R := answeringRemote) "0xab" "0xcd"
       sampleWorld).2 =
  (Returned (VStr "0xcd"),
   (setDefaultPublicAddress (R := answeringRemote) "0xab" "0xcd"
      sampleWorld).2).
Proof.
  split; [reflexivity|].
  apply (setDefaultPublicAddress_then_init (R := answeringRemote) sampleInit
           "0xcd" (VObj [("data", VObj [("id", VNum 1)])]) sampleWorld).
  - discriminate.
  - discriminate.
  - discriminate.
  - reflexivity.
Defined.

Lemma addCustomToken_rejected_witness :
  apiRequest (Remote := sampleRemote)
    (mkApiCall POST "https://api.example/customtoken" (VObj [])
               (Some "Bearer token"))
    = Rejected (VError "offline") ∧
  store (addCustomToken (R := sampleRemote) (VObj []) false sampleWorld).2
    = store sampleWorld.
Proof.
  split; [reflexivity|].
  apply (addCustomToken_rejected (R := sampleRemote) (VObj []) false
           (VError "offline") sampleWorld); reflexivity.
Defined.

Lemma getAnnouncementsContents_groups_witness :
  truthy (selectedAddress sampleWorld) = true ∧
  Forall readable sampleAnnouncements ∧
  ∃ groups,
    announcementsStore
      (getAnnouncementsContents (R := answeringRemote) sampleWorld).2
      = VObj groups ∧
    lookupField "en" groups
      = Some (VArr [sampleAnnouncement 1 "en"; sampleAnnouncement 3 "en"]) ∧
    lookupField "fr" groups = None.
Proof.
  assert (Forall readable sampleAnnouncements) as Hread.
  { repeat constructor; by_computation. }
  split; [reflexivity|]. split; [exact Hread|].
  destruct (getAnnouncementsContents_groups (R := answeringRemote)
              (VObj [("data", VArr sampleAnnouncements)])
              sampleAnnouncements sampleWorld)
    as (groups & Hstore & _ & Hgroups & _);
    [reflexivity|reflexivity|reflexivity|exact Hread|].
  exists groups. split; [exact Hstore|].
  split; [exact (Hgroups "en")|exact (Hgroups "fr")].
Defined.

Lemma sampleShown_lists : announcementLists sampleShown.
Proof.
  split; [by_computation|].
  repeat (apply Forall_cons; split;
          [split; [discriminate|eexists; split; [reflexivity|]];
           repeat constructor|]).
  apply Forall_nil_2.
Defined.

Lemma hideAnnouncement_filters_witness :
  announcementLists sampleShown ∧
  ∃ shown,
    announcementsStore
      (hideAnnouncement (VObj [("id", VNum 1)]) sampleShown sampleWorld).2
      = VObj shown ∧
    lookupField "en" shown = Some (VArr [sampleAnnouncement 3 "en"]) ∧
    lookupField "de" shown = Some (VArr [sampleAnnouncement 2 "de"]).
Proof.
  split; [exact sampleShown_lists|].
  destruct (hideAnnouncement_filters (VObj [("id", VNum 1)]) sampleShown
              sampleWorld eq_refl sampleShown_lists)
    as (shown & Hrun & _ & Hfiltered).
  exists shown. split; [by rewrite Hrun|]. split.
  - exact (Hfiltered "en" _ eq_refl).
  - exact (Hfiltered "de" _ eq_refl).
Defined.

Lemma hideAnnouncement_twice_witness :
  announcementLists sampleShown ∧
  ∃ shown,
    announcementsStore
      (hideAnnouncement (VObj [("id", VNum 1)]) sampleShown sampleWorld).2
      = VObj shown ∧
    hideAnnouncement (VObj [("id", VNum 1)]) shown
      (hideAnnouncement (VObj [("id", VNum 1)]) sampleShown sampleWorld).2
    = (Returned tt,
       (hideAnnouncement (VObj [("id", VNum 1)]) sampleShown sampleWorld).2).
Proof.
  split; [exact sampleShown_lists|].
  exact (hideAnnouncement_twice (VObj [("id", VNum 1)]) sampleShown
           sampleWorld eq_refl sampleShown_lists).
Defined.

Lemma sync_found_witness :
  (addressOrSelected "0xab" sampleWorld ∉ objectPrototypeKeys) ∧
  truthy (getProp "data" sampleUser) = true ∧
  (sync (R := answeringRemote) "0xab" sampleWorld).1 = Returned sampleUser ∧
  ∃ partial,
    store (sync (R := answeringRemote) "0xab" sampleWorld).2 !! "0xab"
      = Some (deepmerge sampleAccount (VObj partial)) ∧
    lookupField "locale" partial = Some (VStr "de") ∧
    lookupField "defaultPublicAddress" partial = Some (VStr "0xab").
Proof.
  split; [solve_key|]. split; [reflexivity|].
  destruct (sync_found (R := answeringRemote) "0xab" sampleUser sampleWorld)
    as (Hresult & partial & Hstore & Hlocale & Hdefault);
    [solve_key|reflexivity|reflexivity|].
  split; [exact Hresult|].
  exists partial. split; [|split; [exact Hlocale|exact Hdefault]].
  rewrite Hstore. apply lookup_insert_eq.
Defined.

Lemma init_refuses_to_sign_witness :
  (addressOrSelected (init_address sampleInitNew) sampleWorld
     ∉ objectPrototypeKeys) ∧
  truthy (state (init_address sampleInitNew) sampleWorld) = false ∧
  truthy (init_jwtToken sampleInitNew) = false ∧
  startsWith "Torus Signin" "Please sign this" = false ∧
  (init (R := answeringRemote) sampleInitNew sampleWorld).1
    = Thrown (VError "Cannot sign on invalid message") ∧
  store (init (R := answeringRemote) sampleInitNew sampleWorld).2
    = store sampleWorld.
Proof.
  split; [solve_key|].
  split; [reflexivity|]. split; [reflexivity|]. split; [reflexivity|].
  destruct (init_refuses_to_sign (R := answeringRemote) sampleInitNew
              sampleWorld) as [Hinvalid _];
    [solve_key|reflexivity|reflexivity|].
  rewrite (Hinvalid (VObj [("message", VStr "Please sign this")])
                    "Please sign this"); [|reflexivity..].
  split; reflexivity.
Defined.

Lemma recordLogin_once_witness :
  Forall (λ t, timerId t ≠ nextTimer sampleWorld) (timers sampleWorld) ∧
  timers (storeUserLogin (VStr "google") (VStr "user@example.com") true false
            "0xab" sampleWorld).2
    = [mkTimer 0 true 1000
         (RecordLogin "https://dapp.example" (VStr "google")
                      (VStr "user@example.com") "0xab")].
Proof.
  assert (Forall (λ t, timerId t ≠ nextTimer sampleWorld)
                 (timers sampleWorld)) as Hfresh by constructor.
  split; [exact Hfresh|].
  exact (proj1 (recordLogin_once (R := sampleRemote) (VStr "google")
                  (VStr "user@example.com") true "0xab" sampleWorld Hfresh)).
Defined.

Lemma calculatePastTx_all_confirmed_witness :
  Forall (λ x, relevantTo "0xab" "mainnet" x → isConfirmed x) sampleFetched ∧
  Forall (λ x, nonce x ∉ objectPrototypeKeys)
         ((λ x, formatPastTx x (toLowerCase "0xab")) <$>
            filter (λ x, relevantTo "0xab" "mainnet" x) sampleFetched) ∧
  (calculatePastTx (R := sampleRemote) sampleFetched "0xab" sampleWorld).1
    = Returned tt ∧
  trace (calculatePastTx (R := sampleRemote) sampleFetched "0xab"
           sampleWorld).2 = [] ∧
  getProp "pastTransactions"
    (default VUndefined
       (store (calculatePastTx (R := sampleRemote) sampleFetched "0xab"
                 sampleWorld).2 !! "0xab"))
    = VArr [jsOfTx (formatPastTx (sampleRawTx "0xAB" "confirmed") "0xab")].
Proof.
  assert (Forall (λ x, relevantTo "0xab" "mainnet" x → isConfirmed x)
                 sampleFetched) as Hall.
  { apply Forall_cons. split; [by intros _|].
    apply Forall_cons. split; [|apply Forall_nil_2].
    intros (_ & _ & _ & [Hfrom|Hto]); discriminate. }
  assert (Forall (λ x, nonce x ∉ objectPrototypeKeys)
            ((λ x, formatPastTx x (toLowerCase "0xab")) <$>
               filter (λ x, relevantTo "0xab" "mainnet" x) sampleFetched))
    as Hown by by_computation.
  split; [exact Hall|]. split; [exact Hown|].
  destruct (calculatePastTx_all_confirmed (R := sampleRemote) sampleFetched
              "0xab" sampleWorld Hall Hown)
    as (Hreturned & Htrace & finalTx & Hfinal & Hstored).
  split; [exact Hreturned|]. split; [exact Htrace|].
  transitivity (VArr (jsOfTx <$> finalTx)); [exact Hstored|].
  vm_compute in Hfinal. injection Hfinal as <-. reflexivity.
Defined.

Lemma calculatePastTx_inherited_nonce_witness :
  Exists (λ x, relevantTo "0xab" "mainnet" x ∧
               nonce (formatPastTx x (toLowerCase "0xab"))
                 ∈ objectPrototypeKeys) sampleInherited ∧
  (∃ error, (calculatePastTx (R := sampleRemote) sampleInherited "0xab"
               sampleWorld).1 = Thrown error) ∧
  store (calculatePastTx (R := sampleRemote) sampleInherited "0xab"
           sampleWorld).2 = store sampleWorld.
Proof.
  assert (Exists (λ x, relevantTo "0xab" "mainnet" x ∧
                       nonce (formatPastTx x (toLowerCase "0xab"))
                         ∈ objectPrototypeKeys) sampleInherited) as Hex
    by by_computation.
  split; [exact Hex|].
  exact (calculatePastTx_inherited_nonce (R := sampleRemote) sampleInherited
           "0xab" sampleWorld Hex).
Defined.
